(** * Microphone PCM framer and WebSocket transport: a shallow embedding

    The development follows the two library modules of the repository:
    [lib/audio.ts] (capture, linear resampling, 250 ms framing, PCM16
    quantization) and [lib/ws.ts] (the WebSocket client).

    ECMAScript numbers are IEEE 754 binary64 values, modelled by Rocq's
    primitive floats.  Quantities that the program only ever uses as
    array lengths, loop counters and frame counts are integer-valued
    numbers far below 2^53, where binary64 arithmetic is exact; they are
    modelled as [nat].  The last part of the development shows this
    exactness for the frame arithmetic of the capture callback, and
    covers the two places of [App.tsx] that use the modules: the
    transcript reducer and the [onChunk] callback. *)

From Stdlib Require Import ZArith Uint63 Floats Lia Bool Ascii String.
From stdpp Require Import base list.

#[local] Set Warnings "-register-all".
#[local] Open Scope Z_scope.

(** ** ECMAScript numbers *)

Module JS.

Definition number := float.

(** Thrown values that the modelled code can observe. *)
Inductive error : Type :=
| RangeError
| SyntaxError
| TypeError
| DOMException (name : nat)
| Thrown (tag : nat).

(** Conversion of an integer to the nearest number (exact up to 2^53).
    The integers met here are array lengths, loop counters and integer
    parts of numbers below 2^53, all far below 2^63. *)
Definition of_Z (z : Z) : number :=
  if z <? 0 then (- of_uint63 (Uint63.of_Z (- z)))%float
  else of_uint63 (Uint63.of_Z z).

Definition of_nat (n : nat) : number := of_Z (Z.of_nat n).

Definition signed (s : bool) (m : positive) : Z :=
  if s then Z.neg m else Z.pos m.

(** Largest integer below a finite number; [None] on NaN and infinities. *)
Definition floorZ (x : number) : option Z :=
  match Prim2SF x with
  | S754_zero _ => Some 0
  | S754_finite s m e =>
      Some (if 0 <=? e then signed s m * 2 ^ e
            else Z.shiftr (signed s m) (- e))
  | _ => None
  end.

(** Integer part of a finite number (rounding toward zero). *)
Definition truncZ (x : number) : option Z :=
  match Prim2SF x with
  | S754_zero _ => Some 0
  | S754_finite s m e =>
      Some (if 0 <=? e then signed s m * 2 ^ e
            else Z.quot (signed s m) (2 ^ (- e)))
  | _ => None
  end.

(** [Math.floor]: NaN, infinities, both zeros and the numbers that are
    integers already (all those with a non-negative exponent, whatever
    their size) are returned as they are; the floor of any other number
    lies within 2^53 of zero. *)
Definition Math_floor (x : number) : number :=
  match Prim2SF x with
  | S754_finite _ _ e =>
      if 0 <=? e then x
      else match floorZ x with Some z => of_Z z | None => x end
  | _ => x
  end.

(** [Math.round]: the integer nearest to [x], ties toward +infinity. *)
Definition Math_round (x : number) : number :=
  match Prim2SF x with
  | S754_finite s m e =>
      if 0 <=? e then x
      else of_Z (Z.shiftr (2 * signed s m + 2 ^ (- e)) (1 - e))
  | _ => x
  end.

Definition is_neg_zero (x : number) : bool :=
  match Prim2SF x with S754_zero true => true | _ => false end.

(** [Math.min] and [Math.max] of two arguments: NaN is contagious and
    -0 is below +0. *)
Definition Math_min (a b : number) : number :=
  if is_nan a || is_nan b then nan
  else if (a <? b)%float then a
  else if (b <? a)%float then b
  else if is_neg_zero a then a else b.

Definition Math_max (a b : number) : number :=
  if is_nan a || is_nan b then nan
  else if (b <? a)%float then a
  else if (a <? b)%float then b
  else if is_neg_zero a then b else a.

(** [ToIndex], as applied to the length argument of a typed-array
    constructor: NaN counts as 0, a negative or too large integer is a
    RangeError ([None]). *)
Definition ToIndex (x : number) : option nat :=
  match Prim2SF x with
  | S754_nan => Some 0%nat
  | S754_infinity _ => None
  | _ =>
      match truncZ x with
      | Some z =>
          if (0 <=? z) && (z <=? 2 ^ 53 - 1) then Some (Z.to_nat z)
          else None
      | None => None
      end
  end.

(** The element index denoted by a number used as a property key of a
    typed array: a non-negative integer-valued number (either zero counts
    as 0); anything else names no element. *)
Definition as_index (k : number) : option nat :=
  match Prim2SF k with
  | S754_zero _ => Some 0%nat
  | S754_finite false m e =>
      if 0 <=? e then Some (Z.to_nat (Z.pos m * 2 ^ e))
      else if Z.pos m mod 2 ^ (- e) =? 0
           then Some (Z.to_nat (Z.shiftr (Z.pos m) (- e)))
           else None
  | _ => None
  end.

(** Reading [a[k]] and using the result as a number: a missing element is
    [undefined], which arithmetic converts to NaN. *)
Definition get (a : list number) (k : number) : number :=
  match as_index k with
  | Some i => default nan (a !! i)
  | None => nan
  end.

(** The same read when the key is a loop counter. *)
Definition get_at (a : list number) (i : nat) : number :=
  default nan (a !! i).

(** Rounding of a number to the nearest binary32 value, as performed by a
    store into a [Float32Array]. *)
Definition fround (x : number) : number :=
  match Prim2SF x with
  | S754_finite s m e => SF2Prim (binary_normalize 24 128 (signed s m) e s)
  | _ => x
  end.

(** [ToInt16], as performed by a store into an [Int16Array]. *)
Definition ToInt16 (x : number) : Z :=
  match truncZ x with
  | Some z =>
      let r := z mod 65536 in
      if 32768 <=? r then r - 65536 else r
  | None => 0
  end.

(** [new Float32Array(n)]: [n] zeros, or a RangeError. *)
Definition Float32Array_new (n : number) : option (list number) :=
  match ToIndex n with
  | Some k => Some (replicate k 0%float)
  | None => None
  end.

(** [a[i] = v] on a [Float32Array] (a store past the end is ignored). *)
Definition Float32Array_set (a : list number) (i : nat) (v : number)
  : list number :=
  <[ i := fround v ]> a.

(** [a[i] = v] on an [Int16Array]. *)
Definition Int16Array_set (a : list Z) (i : nat) (v : number) : list Z :=
  <[ i := ToInt16 v ]> a.

(** The bytes of the [ArrayBuffer] behind an [Int16Array], two per
    element in two's complement, low byte first (typed arrays use the
    byte order of the platform, little-endian on every platform that
    runs a browser). *)
Definition Int16Array_buffer (a : list Z) : list Z :=
  flat_map (fun v => [ (v mod 65536) mod 256 ; (v mod 65536) / 256 ]) a.

(** A shifted mantissa that lost no non-zero bit. *)
Definition exact_record (mrs : shr_record) : bool :=
  negb (shr_r mrs) && negb (shr_s mrs).

(** The exponent of the last digit of a binary64 number of magnitude [e]
    (53 digits, least exponent -1074). *)
Definition fexp64 (e : Z) : Z := Z.max (e - 53) (-1074).

End JS.

Import JS.

(** ** lib/audio.ts: resampling and quantization *)

Definition TARGET_SAMPLE_RATE : number := 16000%float.
Definition FRAME_DURATION_MS : number := 250%float.

(** The body of the loop of [resampleLinear] for target index [i]. *)
Definition resample_sample (input : list number) (ratio : number) (i : nat)
  : number :=
  let idx := (of_nat i * ratio)%float in
  let idxLow := Math_floor idx in
  let idxHigh :=
    Math_min (idxLow + 1)%float (of_nat (length input) - 1)%float in
  let weight := (idx - idxLow)%float in
  (get input idxLow * (1 - weight) + get input idxHigh * weight)%float.

(** [for (let i = 0; i < newLength; i++) output[i] = ...], with [n]
    iterations left.  [newLength] is the length of [output], so that the
    guard is the comparison of two array indices. *)
Fixpoint resample_loop (input : list number) (ratio : number)
  (n i : nat) (output : list number) : list number :=
  match n with
  | O => output
  | S n' =>
      resample_loop input ratio n' (S i)
        (Float32Array_set output i (resample_sample input ratio i))
  end.

Definition resample_length (len : nat) (inputRate targetRate : number)
  : number :=
  Math_floor (of_nat len / (inputRate / targetRate))%float.

(** [resampleLinear]; [None] is a RangeError of the array allocation. *)
Definition resampleLinear (input : list number)
  (inputRate targetRate : number) : option (list number) :=
  if (inputRate =? targetRate)%float then Some input
  else
    let ratio := (inputRate / targetRate)%float in
    let newLength := resample_length (length input) inputRate targetRate in
    match Float32Array_new newLength with
    | None => None
    | Some output =>
        Some (resample_loop input ratio (length output) 0 output)
    end.

(** The clamping step of [floatTo16BitPCM]. *)
Definition clamp (x : number) : number :=
  Math_max (-1)%float (Math_min 1%float x).

(** The value stored for one sample, before the conversion to int16. *)
Definition scale (s : number) : number :=
  if (s <? 0)%float then (s * 32768)%float else (s * 32767)%float.

Fixpoint pcm_loop (float32 : list number) (n i : nat) (out : list Z)
  : list Z :=
  match n with
  | O => out
  | S n' =>
      pcm_loop float32 n' (S i)
        (Int16Array_set out i (scale (clamp (get_at float32 i))))
  end.

Definition floatTo16BitPCM (float32 : list number) : list Z :=
  pcm_loop float32 (length float32) 0 (replicate (length float32) 0).

(** ** lib/audio.ts: the capture session *)

Module Audio.

(** The opaque browser objects held by the controller. *)
Definition MediaStream := nat.
Record AudioContext := { sampleRate : number }.

Record AudioStreamCallbacks := {
  (** what the consumer of [onChunk] throws on a payload, if anything *)
  onChunk_throws : list Z -> option error;
  (** whether the optional [onError] callback was supplied *)
  has_onError : bool;
  (** what [onError], when supplied, throws on an error, if anything *)
  onError_throws : error -> option error
}.

(** The variables captured by the closures of [createMicrophonePcmStream]. *)
Record Framer := mkFramer {
  mediaStream : option MediaStream;
  audioContext : option AudioContext;
  processor : bool;       (* [processor !== null] *)
  sourceNode : bool;      (* [sourceNode !== null] *)
  running : bool;
  resampleBuffer : list number;
  lastEmitTime : number
}.

Definition init : Framer :=
  mkFramer None None false false false [] 0%float.

(** What the session does to the outside. *)
Inductive effect : Type :=
| CallOnChunk (payload : list Z)
| CallOnError (e : error)
| Uncaught (e : error)
| StartRejects (e : error)
| ProcessorDisconnect
| SourceDisconnect
| ContextClose (ctx : AudioContext)
| TracksStop (s : MediaStream).

Definition report (cb : AudioStreamCallbacks) (e : error) : list effect :=
  if has_onError cb then [CallOnError e] else [].

(** What the call [callbacks.onError?.(err)] throws, if anything. *)
Definition report_throws (cb : AudioStreamCallbacks) (e : error)
  : option error :=
  if has_onError cb then onError_throws cb e else None.

(** [Math.round((TARGET_SAMPLE_RATE * FRAME_DURATION_MS) / 1000)]. *)
Definition samplesPerFrame : nat :=
  default 0%nat
    (as_index
       (Math_round (TARGET_SAMPLE_RATE * FRAME_DURATION_MS / 1000)%float)).

(** [try { callbacks.onChunk(pcm.buffer) } catch (err) { callbacks.onError?.(err) }]:
    an exception thrown by [onError] leaves the handler. *)
Definition deliver (cb : AudioStreamCallbacks) (payload : list Z)
  : list effect :=
  CallOnChunk payload ::
  match onChunk_throws cb payload with
  | Some e =>
      report cb e ++
      match report_throws cb e with Some e' => [Uncaught e'] | None => [] end
  | None => []
  end.

(** Whether this pass is an emission pass: [now - lastEmitTime >= FRAME_DURATION_MS]. *)
Definition elapsed (st : Framer) (now : number) : bool :=
  (FRAME_DURATION_MS <=? now - lastEmitTime st)%float.

(** The handler [processor.onaudioprocess], for one input block and one
    reading [now] of [performance.now()].  [framesToEmit] and [emitCount]
    are computed on array lengths, where [Math.floor (a / b)] is the
    integer quotient; an exception that leaves the handler is recorded as
    [Uncaught]: one thrown before the buffer is assigned leaves the
    variables as they were, one thrown by [onError] comes after the
    buffer and [lastEmitTime] were updated. *)
Definition onaudioprocess (cb : AudioStreamCallbacks) (st : Framer)
  (input : list number) (now : number) : Framer * list effect :=
  if negb (running st) then (st, [])
  else
    match audioContext st with
    | None => (st, [Uncaught TypeError])
    | Some ctx =>
        match resampleLinear input (sampleRate ctx) TARGET_SAMPLE_RATE with
        | None => (st, [Uncaught RangeError])
        | Some resampled =>
            let concat := resampleBuffer st ++ resampled in
            if elapsed st now then
              let framesToEmit := (length concat / samplesPerFrame)%nat in
              if (0 <? framesToEmit)%nat then
                let emitCount := (framesToEmit * samplesPerFrame)%nat in
                let frame := take emitCount concat in
                let pcm := floatTo16BitPCM frame in
                (mkFramer (mediaStream st) (audioContext st) (processor st)
                   (sourceNode st) (running st) (drop emitCount concat) now,
                 deliver cb (Int16Array_buffer pcm))
              else
                (mkFramer (mediaStream st) (audioContext st) (processor st)
                   (sourceNode st) (running st) concat (lastEmitTime st), [])
            else
              (mkFramer (mediaStream st) (audioContext st) (processor st)
                 (sourceNode st) (running st) concat (lastEmitTime st), [])
        end
    end.

(** [stop()]. *)
Definition stop (st : Framer) : Framer * list effect :=
  (mkFramer None None false false false [] (lastEmitTime st),
   (if processor st then [ProcessorDisconnect] else []) ++
   (if sourceNode st then [SourceDisconnect] else []) ++
   match audioContext st with Some c => [ContextClose c] | None => [] end ++
   match mediaStream st with Some s => [TracksStop s] | None => [] end).

(** What the browser answers to the requests made by [start()] once it
    is resumed: the outcome of [getUserMedia], the outcome of the
    [AudioContext] constructor (a standard context has the requested
    48000 Hz, a legacy [webkitAudioContext] the rate of the hardware), and
    the reading of [performance.now()].  Creating and connecting the two
    nodes is taken to succeed. *)
Record start_env := {
  getUserMedia : error + MediaStream;
  new_AudioContext : error + AudioContext;
  start_now : number
}.

(** [catch (err) { callbacks.onError?.(err); stop(); }]: an exception
    thrown by [onError] leaves the block before [stop()] is called, and
    the promise that [start()] returned is rejected with it. *)
Definition start_catch (cb : AudioStreamCallbacks) (st : Framer)
  (e : error) : Framer * list effect :=
  match report_throws cb e with
  | Some e' => (st, report cb e ++ [StartRejects e'])
  | None => let '(st', fx) := stop st in (st', report cb e ++ fx)
  end.

(** [start()] up to its [await]: [true] when the call suspends on
    [getUserMedia], [false] when it returns at once. *)
Definition start_call (st : Framer) : bool := negb (running st).

(** [start()] from the [await] to its end. *)
Definition start_resume (cb : AudioStreamCallbacks) (env : start_env)
  (st : Framer) : Framer * list effect :=
  match getUserMedia env with
  | inl e => start_catch cb st e
  | inr stream =>
      let st1 :=
        mkFramer (Some stream) (audioContext st) (processor st)
          (sourceNode st) (running st) (resampleBuffer st)
          (lastEmitTime st) in
      match new_AudioContext env with
      | inl e => start_catch cb st1 e
      | inr ctx =>
          (mkFramer (Some stream) (Some ctx) true true true
             (resampleBuffer st) (start_now env), [])
      end
  end.

Definition isRecording (st : Framer) : bool := running st.

(** All four capture resources are released. *)
Definition released (st : Framer) : bool :=
  match mediaStream st, audioContext st with
  | None, None => negb (processor st) && negb (sourceNode st)
  | _, _ => false
  end.

(** The controller together with the [start()] calls that are suspended
    at their [await]. *)
Record System := mkSystem {
  framer : Framer;
  suspended : nat
}.

(** The steps the event loop can run, each to completion. *)
Inductive step : Type :=
| StartCall
| StartResume (env : start_env)
| StopCall
| AudioProcess (input : list number) (now : number).

Definition exec (cb : AudioStreamCallbacks) (s : System) (a : step)
  : System * list effect :=
  match a with
  | StartCall =>
      if start_call (framer s)
      then (mkSystem (framer s) (S (suspended s)), [])
      else (s, [])
  | StartResume env =>
      match suspended s with
      | O => (s, [])
      | S k =>
          let '(st, fx) := start_resume cb env (framer s) in
          (mkSystem st k, fx)
      end
  | StopCall =>
      let '(st, fx) := stop (framer s) in (mkSystem st (suspended s), fx)
  | AudioProcess input now =>
      if processor (framer s) then
        let '(st, fx) := onaudioprocess cb (framer s) input now in
        (mkSystem st (suspended s), fx)
      else (s, [])
  end.

Fixpoint run (cb : AudioStreamCallbacks) (s : System) (tr : list step)
  : System * list effect :=
  match tr with
  | [] => (s, [])
  | a :: tr' =>
      let '(s1, fx1) := exec cb s a in
      let '(s2, fx2) := run cb s1 tr' in
      (s2, fx1 ++ fx2)
  end.

(** The payloads handed to [onChunk], in order. *)
Definition chunks (fx : list effect) : list (list Z) :=
  omap (fun e => match e with CallOnChunk p => Some p | _ => None end) fx.


End Audio.

(** ** JSON texts and [JSON.parse] *)

Module JSON.

(** An ECMAScript string is a sequence of UTF-16 code units. *)
Definition jsstring := list N.

Definition units (s : String.string) : jsstring :=
  map Ascii.N_of_ascii (String.list_ascii_of_string s).

(** A text written with ['] in place of the double quote. *)
Definition text (s : String.string) : jsstring :=
  map (fun c => if N.eqb c 39 then 34%N else c) (units s).

Inductive value : Type :=
| Null
| Bool (b : bool)
| Number (literal : jsstring)
| Str (s : jsstring)
| Array (elements : list value)
| Object (members : list (jsstring * value)).

#[local] Open Scope N_scope.

Definition is_ws (c : N) : bool :=
  (c =? 32) || (c =? 9) || (c =? 10) || (c =? 13).

Fixpoint skip_ws (s : jsstring) : jsstring :=
  match s with
  | c :: r => if is_ws c then skip_ws r else s
  | [] => []
  end.

Definition is_digit (c : N) : bool := (48 <=? c) && (c <=? 57).

Definition hex_digit (c : N) : option N :=
  if is_digit c then Some (c - 48)
  else if (97 <=? c) && (c <=? 102) then Some (c - 87)
  else if (65 <=? c) && (c <=? 70) then Some (c - 55)
  else None.

(** The characters of a string literal after its opening quote. *)
Fixpoint parse_chars (s : jsstring) (acc : jsstring)
  : option (jsstring * jsstring) :=
  match s with
  | [] => None
  | 34 :: r => Some (rev acc, r)
  | 92 :: r =>
      match r with
      | 34 :: r' => parse_chars r' (34 :: acc)
      | 92 :: r' => parse_chars r' (92 :: acc)
      | 47 :: r' => parse_chars r' (47 :: acc)
      | 98 :: r' => parse_chars r' (8 :: acc)
      | 102 :: r' => parse_chars r' (12 :: acc)
      | 110 :: r' => parse_chars r' (10 :: acc)
      | 114 :: r' => parse_chars r' (13 :: acc)
      | 116 :: r' => parse_chars r' (9 :: acc)
      | 117 :: a :: b :: c :: d :: r' =>
          match hex_digit a, hex_digit b, hex_digit c, hex_digit d with
          | Some x, Some y, Some z, Some w =>
              parse_chars r' (((x * 16 + y) * 16 + z) * 16 + w :: acc)
          | _, _, _, _ => None
          end
      | _ => None
      end
  | c :: r => if c <? 32 then None else parse_chars r (c :: acc)
  end.

Fixpoint take_digits (s : jsstring) (acc : jsstring)
  : jsstring * jsstring :=
  match s with
  | c :: r => if is_digit c then take_digits r (c :: acc) else (acc, s)
  | [] => (acc, [])
  end.

(** One or more digits, pushed onto [acc]. *)
Definition digits1 (s : jsstring) (acc : jsstring)
  : option (jsstring * jsstring) :=
  match s with
  | c :: r => if is_digit c then Some (take_digits r (c :: acc)) else None
  | [] => None
  end.

Definition parse_int (s : jsstring) (acc : jsstring)
  : option (jsstring * jsstring) :=
  match s with
  | 48 :: r => Some (48 :: acc, r)
  | _ => digits1 s acc
  end.

Definition parse_frac (s : jsstring) (acc : jsstring)
  : option (jsstring * jsstring) :=
  match s with
  | 46 :: r => digits1 r (46 :: acc)
  | _ => Some (acc, s)
  end.

Definition parse_exp (s : jsstring) (acc : jsstring)
  : option (jsstring * jsstring) :=
  match s with
  | c :: r =>
      if (c =? 101) || (c =? 69) then
        match r with
        | d :: r' =>
            if (d =? 43) || (d =? 45) then digits1 r' (d :: c :: acc)
            else digits1 r (c :: acc)
        | [] => None
        end
      else Some (acc, s)
  | [] => Some (acc, [])
  end.

(** A number literal: [-? int frac? exp?]; the literal is kept as text. *)
Definition parse_number (s : jsstring) : option (value * jsstring) :=
  let '(acc0, s0) :=
    match s with 45 :: r => ([45], r) | _ => ([], s) end in
  match parse_int s0 acc0 with
  | Some (acc1, s1) =>
      match parse_frac s1 acc1 with
      | Some (acc2, s2) =>
          match parse_exp s2 acc2 with
          | Some (acc3, s3) => Some (Number (rev acc3), s3)
          | None => None
          end
      | None => None
      end
  | None => None
  end.

(** A JSON value with leading white space; [fuel] bounds the nesting
    depth and the number of elements of an array or object. *)
Fixpoint parse_value (fuel : nat) (s : jsstring)
  : option (value * jsstring) :=
  match fuel with
  | O => None
  | S f =>
      match skip_ws s with
      | 110 :: 117 :: 108 :: 108 :: r => Some (Null, r)
      | 116 :: 114 :: 117 :: 101 :: r => Some (Bool true, r)
      | 102 :: 97 :: 108 :: 115 :: 101 :: r => Some (Bool false, r)
      | 34 :: r =>
          match parse_chars r [] with
          | Some (str, r') => Some (Str str, r')
          | None => None
          end
      | 91 :: r =>
          match skip_ws r with
          | 93 :: r' => Some (Array [], r')
          | _ =>
              (fix elements (k : nat) (r : jsstring) (acc : list value)
                 : option (value * jsstring) :=
                 match k with
                 | O => None
                 | S k' =>
                     match parse_value f r with
                     | Some (v, r1) =>
                         match skip_ws r1 with
                         | 44 :: r2 => elements k' r2 (v :: acc)
                         | 93 :: r2 => Some (Array (rev (v :: acc)), r2)
                         | _ => None
                         end
                     | None => None
                     end
                 end) f r []
          end
      | 123 :: r =>
          match skip_ws r with
          | 125 :: r' => Some (Object [], r')
          | _ =>
              (fix members (k : nat) (r : jsstring)
                 (acc : list (jsstring * value))
                 : option (value * jsstring) :=
                 match k with
                 | O => None
                 | S k' =>
                     match skip_ws r with
                     | 34 :: r0 =>
                         match parse_chars r0 [] with
                         | Some (key, r1) =>
                             match skip_ws r1 with
                             | 58 :: r2 =>
                                 match parse_value f r2 with
                                 | Some (v, r3) =>
                                     match skip_ws r3 with
                                     | 44 :: r4 =>
                                         members k' r4 ((key, v) :: acc)
                                     | 125 :: r4 =>
                                         Some (Object (rev ((key, v) :: acc)), r4)
                                     | _ => None
                                     end
                                 | None => None
                                 end
                             | _ => None
                             end
                         | None => None
                         end
                     | _ => None
                     end
                 end) f r []
          end
      | c :: r =>
          if (c =? 45) || is_digit c then parse_number (c :: r) else None
      | [] => None
      end
  end.

(** [JSON.parse(text)]: [None] is a SyntaxError.  A text of [n] code
    units nests and enumerates fewer than [n] values, so the fuel never
    runs out. *)
Definition parse (text : jsstring) : option value :=
  match parse_value (S (length text)) text with
  | Some (v, r) =>
      match skip_ws r with
      | [] => Some v
      | _ => None
      end
  | None => None
  end.

(** The own property [key] of a parsed value (of duplicate names the
    last one wins). *)
Fixpoint assoc_last (key : jsstring) (ms : list (jsstring * value))
  (found : option value) : option value :=
  match ms with
  | [] => found
  | (k, v) :: r =>
      assoc_last key r (if bool_decide (k = key) then Some v else found)
  end.

Definition property (key : String.string) (v : value) : option value :=
  match v with
  | Object ms => assoc_last (units key) ms None
  | _ => None
  end.

End JSON.

(** ** lib/ws.ts: the WebSocket client *)

Module WS.

Import JSON.

Inductive ReadyState : Type := CONNECTING | OPEN | CLOSING | CLOSED.

Inductive PromiseState : Type :=
| Pending
| Fulfilled
| Rejected (e : error).

(** A [WebSocket] object: its state, the promise whose [resolve] and
    [reject] its handlers capture, and the messages handed to [send]. *)
Record WebSocket := mkWebSocket {
  readyState : ReadyState;
  promise : nat;
  sent : list (list Z)
}.

(** The arguments of [createWebSocketClient]. *)
Record Config := {
  (** whether [new WebSocket(url)] accepts the URL *)
  url_ok : bool;
  (** what the message callback throws on a message, if anything *)
  onMessage_throws : value -> option error;
  (** whether the optional error callback was supplied *)
  has_onError : bool;
  (** what the error callback, when supplied, throws on an error, if
      anything *)
  onError_throws : error -> option error
}.

(** The two variables of the closure, as references into the heap of
    sockets and promises created so far. *)
Record Client := mkClient {
  socket : option nat;
  openPromise : option nat;
  sockets : list WebSocket;
  promises : list PromiseState
}.

Definition init : Client := mkClient None None [] [].

Inductive effect : Type :=
| CallOnMessage (msg : value)
| CallOnError (e : error)
| SocketSend (s : nat) (bytes : list Z)
| SocketClose (s : nat).

Definition report (cfg : Config) (e : error) : list effect :=
  if has_onError cfg then [CallOnError e] else [].

(** What the call [onError?.(err)] throws, if anything. *)
Definition report_throws (cfg : Config) (e : error) : option error :=
  if has_onError cfg then onError_throws cfg e else None.

(** [socket && socket.readyState === WebSocket.OPEN] *)
Definition isOpen (c : Client) : bool :=
  match socket c with
  | Some s =>
      match sockets c !! s with
      | Some w =>
          match readyState w with OPEN => true | _ => false end
      | None => false
      end
  | None => false
  end.

(** The value returned by [connect()]: [Promise.resolve()], or a
    reference to the promise stored in [openPromise]. *)
Inductive outcome : Type :=
| Resolved
| Shared (p : nat).

(** [connect()].  When [new WebSocket(url)] throws, the [catch] block of
    the executor reports the error and rejects the promise with it; an
    exception that the error callback throws there leaves the executor
    before [reject(err)], and the promise is rejected with that exception
    instead. *)
Definition connect (cfg : Config) (c : Client)
  : Client * outcome * list effect :=
  if isOpen c then (c, Resolved, [])
  else
    match openPromise c with
    | Some p => (c, Shared p, [])
    | None =>
        let p := length (promises c) in
        if url_ok cfg then
          (mkClient (Some (length (sockets c))) (Some p)
             (sockets c ++ [mkWebSocket CONNECTING p []])
             (promises c ++ [Pending]),
           Shared p, [])
        else
          (mkClient (socket c) (Some p) (sockets c)
             (promises c ++
                [Rejected
                   (default SyntaxError (report_throws cfg SyntaxError))]),
           Shared p, report cfg SyntaxError)
    end.

(** Settling a promise has an effect only while it is pending. *)
Definition settle (p : nat) (r : PromiseState) (ps : list PromiseState)
  : list PromiseState :=
  match ps !! p with
  | Some Pending => <[ p := r ]> ps
  | _ => ps
  end.

Definition set_readyState (s : nat) (r : ReadyState)
  (ws : list WebSocket) : list WebSocket :=
  match ws !! s with
  | Some w => <[ s := mkWebSocket r (promise w) (sent w) ]> ws
  | None => ws
  end.

(** A payload for [sendAudioChunk]: a view on a buffer, or a buffer. *)
Inductive chunk : Type :=
| View (bytes : list Z)
| Buffer (bytes : list Z).

Definition chunk_bytes (ch : chunk) : list Z :=
  match ch with View b => b | Buffer b => b end.

(** [sendAudioChunk(chunk)]. *)
Definition sendAudioChunk (c : Client) (ch : chunk)
  : Client * list effect :=
  if isOpen c then
    match socket c with
    | Some s =>
        match sockets c !! s with
        | Some w =>
            (mkClient (socket c) (openPromise c)
               (<[ s := mkWebSocket (readyState w) (promise w)
                          (sent w ++ [chunk_bytes ch]) ]> (sockets c))
               (promises c),
             [SocketSend s (chunk_bytes ch)])
        | None => (c, [])
        end
    | None => (c, [])
    end
  else (c, []).

(** [socket.close()]: a socket that is connecting or open starts to
    close; on a socket that is closing or closed the call does nothing. *)
Definition socket_close (s : nat) (ws : list WebSocket) : list WebSocket :=
  match ws !! s with
  | Some w =>
      match readyState w with
      | CONNECTING | OPEN => set_readyState s CLOSING ws
      | CLOSING | CLOSED => ws
      end
  | None => ws
  end.

(** [close()]. *)
Definition close (c : Client) : Client * list effect :=
  match socket c with
  | Some s =>
      (mkClient None None (socket_close s (sockets c)) (promises c),
       [SocketClose s])
  | None => (c, [])
  end.

(** The data of a message event. *)
Inductive data : Type :=
| Text (s : jsstring)
| Binary (bytes : list Z).

(** The handler [socket.onmessage].  The call of the error callback is
    the last thing the handler does, so that an exception thrown by that
    callback skips nothing. *)
Definition onmessage (cfg : Config) (c : Client) (d : data)
  : Client * list effect :=
  match d with
  | Text s =>
      match parse s with
      | Some msg =>
          (c, CallOnMessage msg ::
              match onMessage_throws cfg msg with
              | Some e => report cfg e
              | None => []
              end)
      | None => (c, report cfg SyntaxError)
      end
  | Binary _ => (c, [])
  end.

(** The events a socket [s] delivers to the handlers installed by
    [connect()]; the browser updates [readyState] before it calls them.
    A connection that fails is closed: the browser sets [readyState] to
    [CLOSED], then delivers the error event, then the close event.  In
    the error handler, an exception thrown by the error callback leaves
    the handler before [reject] is called. *)
Inductive event : Type :=
| Open_ (s : nat)
| Error_ (s : nat) (ev : error)
| Close_ (s : nat)
| Message_ (s : nat) (d : data).

Definition handle (cfg : Config) (c : Client) (ev : event)
  : Client * list effect :=
  match ev with
  | Open_ s =>
      match sockets c !! s with
      | Some w =>
          (mkClient (socket c) (openPromise c)
             (set_readyState s OPEN (sockets c))
             (settle (promise w) Fulfilled (promises c)), [])
      | None => (c, [])
      end
  | Error_ s e =>
      match sockets c !! s with
      | Some w =>
          (mkClient (socket c) (openPromise c)
             (set_readyState s CLOSED (sockets c))
             match report_throws cfg e with
             | Some _ => promises c
             | None => settle (promise w) (Rejected (Thrown 0)) (promises c)
             end,
           report cfg e)
      | None => (c, [])
      end
  | Close_ s =>
      match sockets c !! s with
      | Some w =>
          (mkClient None None (set_readyState s CLOSED (sockets c))
             (promises c), [])
      | None => (c, [])
      end
  | Message_ s d =>
      match sockets c !! s with
      | Some w => onmessage cfg c d
      | None => (c, [])
      end
  end.


(** The connection state of the specification. *)
Inductive ConnectionState : Type := Closed | Connecting | Open.

Definition state (c : Client) : ConnectionState :=
  if isOpen c then Open
  else match openPromise c with Some _ => Connecting | None => Closed end.

(** The well-formed server messages of the specification: an object
    whose [type] is ["transcript"] with a string [text], or whose [type]
    is ["error"] with a string [message]. *)
Definition is_ServerMessage (v : value) : bool :=
  match property "type" v with
  | Some (Str t) =>
      if bool_decide (t = units "transcript") then
        match property "text" v with Some (Str _) => true | _ => false end
      else if bool_decide (t = units "error") then
        match property "message" v with Some (Str _) => true | _ => false end
      else false
  | _ => false
  end.

(** Whether the handler hands the frame to the message callback. *)
Definition delivered (fx : list effect) : bool :=
  existsb (fun e => match e with CallOnMessage _ => true | _ => false end) fx.

End WS.

(** ** Runs of the client *)

Module Run.

Import WS.

(** What can happen to a client: calls of its three functions and
    events of the sockets it created. *)
Inductive op : Type :=
| Connect
| Send (ch : chunk)
| Close
| Event (ev : event).

Definition apply (cfg : Config) (c : Client) (o : op) : Client :=
  match o with
  | Connect => fst (fst (connect cfg c))
  | Send ch => fst (sendAudioChunk c ch)
  | Close => fst (close c)
  | Event ev => fst (handle cfg c ev)
  end.

Definition run (cfg : Config) (c : Client) (tr : list op) : Client :=
  foldl (apply cfg) c tr.

Definition is_live (w : WebSocket) : bool :=
  match readyState w with CONNECTING | OPEN => true | _ => false end.

Definition state_of (c : Client) (s : nat) : option ReadyState :=
  readyState <$> sockets c !! s.

(** What a run has done to the sockets so far, beyond what their
    [readyState] shows: the sockets that [close()] has closed, and the
    sockets that have delivered their close event. *)
Record history := mkHistory {
  let_go : list nat;
  gone : list nat
}.

Definition record (c : Client) (h : history) (o : op) : history :=
  match o with
  | Close =>
      match socket c with
      | Some s => mkHistory (s :: let_go h) (gone h)
      | None => h
      end
  | Event (Close_ s) => mkHistory (let_go h) (s :: gone h)
  | _ => h
  end.

(** The order of events that a browser guarantees for one socket (open
    only while connecting, messages only while open, an error only until
    the socket is closed, one close event and nothing after it), and the
    one discipline asked of the caller: [connect()] is not called while a
    socket closed by [close()] still awaits its close event.  Calls may
    fall between any two events, also between the error event and the
    close event of a failed connection (where promise reactions run). *)
Definition enabled (c : Client) (h : history) (o : op) : bool :=
  match o with
  | Connect => forallb (fun s => bool_decide (s ∈ gone h)) (let_go h)
  | Send _ | Close => true
  | Event (Open_ s) =>
      match state_of c s with Some CONNECTING => true | _ => false end
  | Event (Message_ s _) =>
      match state_of c s with Some OPEN => true | _ => false end
  | Event (Error_ s _) =>
      match state_of c s with
      | Some CLOSED | None => false
      | Some _ => true
      end
  | Event (Close_ s) =>
      match state_of c s with
      | Some _ => bool_decide (s ∉ gone h)
      | None => false
      end
  end.

Inductive reachable (cfg : Config) : Client -> history -> Prop :=
| reach_init : reachable cfg init (mkHistory [] [])
| reach_step c h o :
    reachable cfg c h -> enabled c h o = true ->
    reachable cfg (apply cfg c o) (record c h o).

(** Whether a sequence of calls and events keeps to that order and
    discipline, step by step. *)
Fixpoint admits (cfg : Config) (c : Client) (h : history) (tr : list op)
  : bool :=
  match tr with
  | [] => true
  | o :: tr' =>
      enabled c h o && admits cfg (apply cfg c o) (record c h o) tr'
  end.

(** The sockets of a client that are connecting or open. *)
Definition live (c : Client) : list nat :=
  filter (fun s => bool_decide (is_live <$> sockets c !! s = Some true))
    (seq 0 (length (sockets c))).


End Run.

(** ** Specification-level definitions and concrete inputs *)

(** The 16-bit sample that [floatTo16BitPCM] stores for one input sample. *)
Definition quantize (x : number) : Z := ToInt16 (scale (clamp x)).

(** A consumer that never throws, with an error callback that never
    throws either. *)
Definition quiet_callbacks : Audio.AudioStreamCallbacks :=
  {| Audio.onChunk_throws := fun _ => None;
     Audio.has_onError := true;
     Audio.onError_throws := fun _ => None |}.

(** A browser that grants the microphone and a 48 kHz context at time 0. *)
Definition granted : Audio.start_env :=
  {| Audio.getUserMedia := inr 0%nat;
     Audio.new_AudioContext := inr {| Audio.sampleRate := 48000%float |};
     Audio.start_now := 0%float |}.

(** One block of the script processor: 4096 samples of silence. *)
Definition silence : list number := replicate 4096 0%float.

(** Six blocks delivered in a burst after the session started: five within
    50 ms, the sixth once 250 ms have elapsed. *)
Definition burst : list Audio.step :=
  [ Audio.StartCall; Audio.StartResume granted;
    Audio.AudioProcess silence 10%float;
    Audio.AudioProcess silence 20%float;
    Audio.AudioProcess silence 30%float;
    Audio.AudioProcess silence 40%float;
    Audio.AudioProcess silence 50%float;
    Audio.AudioProcess silence 260%float ].

(** A running session that already buffers one frame's worth of samples. *)
Definition one_frame_buffered : Audio.Framer :=
  Audio.mkFramer (Some 0%nat) (Some {| Audio.sampleRate := 48000%float |})
    true true true (replicate 4000 0%float) 0%float.

(** A client configuration with a valid URL, a message callback that never
    throws, and an error callback. *)
Definition plain_config : WS.Config :=
  {| WS.url_ok := true;
     WS.onMessage_throws := fun _ => None;
     WS.has_onError := true;
     WS.onError_throws := fun _ => None |}.

(** A text frame that is JSON but no server message. *)
Definition bogus_frame : JSON.jsstring := JSON.text "{'type':'bogus'}".

(** [connect(); close(); connect()], then the close event of the first
    socket, then [connect()] again. *)
Definition reconnect_race : list Run.op :=
  [ Run.Connect; Run.Close; Run.Connect;
    Run.Event (WS.Close_ 0); Run.Connect ].

(** A connection that fails, with calls between its error event and its
    close event, and a second attempt that succeeds. *)
Definition failure_and_retry : list Run.op :=
  [ Run.Connect; Run.Event (WS.Error_ 0 (Thrown 1));
    Run.Connect; Run.Send (WS.Buffer [1; 2]); Run.Event (WS.Close_ 0);
    Run.Connect; Run.Event (WS.Open_ 1); Run.Connect ].

(** The linear blend of the specification for target index [i]: the source
    position is [idx = i * (nativeRate / targetRate)], and the two native
    samples at [floor idx] and [min (floor idx + 1) lastIndex] are weighted
    by the fractional part of [idx]. *)
Definition linear_blend (input : list number)
  (nativeRate targetRate : number) (i : nat) : number :=
  let idx := (of_nat i * (nativeRate / targetRate))%float in
  let lastIndex := (of_nat (length input) - 1)%float in
  let frac := (idx - Math_floor idx)%float in
  (get input (Math_floor idx) * (1 - frac)
   + get input (Math_min (Math_floor idx + 1) lastIndex) * frac)%float.


(** Whether the error callback of a capture session throws when it is
    handed [e]. *)
Definition onError_escapes (cb : Audio.AudioStreamCallbacks) (e : error)
  : bool :=
  match Audio.report_throws cb e with Some _ => true | None => false end.


(** ** Further observations of the two modules *)

(** The samples read back from a payload as signed 16-bit little-endian
    PCM, the format the capture module announces for its frames. *)
Fixpoint decode_pcm16le (bytes : list Z) : list Z :=
  match bytes with
  | lo :: hi :: rest =>
      (let u := lo + 256 * hi in if 32768 <=? u then u - 65536 else u)
      :: decode_pcm16le rest
  | _ => []
  end.

(** The calls of the capture callback for a sequence of input blocks,
    each with the reading of the clock in that call. *)
Definition passes (blocks : list (list number * number)) : list Audio.step :=
  map (fun b => Audio.AudioProcess (fst b) (snd b)) blocks.

Definition is_resume (a : Audio.step) : bool :=
  match a with Audio.StartResume _ => true | _ => false end.

(** A session that holds nothing: not running, no capture resource, no
    buffered sample. *)
Definition idle (st : Audio.Framer) : bool :=
  negb (Audio.running st) && Audio.released st &&
  bool_decide (length (Audio.resampleBuffer st) = 0%nat).



(** The [CallOnError] effects of a capture session. *)
Definition error_reports (fx : list Audio.effect) : list error :=
  omap (fun e => match e with Audio.CallOnError e => Some e | _ => None end) fx.

(** [sendAudioChunk] called for each chunk of a list in turn. *)
Fixpoint send_all (c : WS.Client) (chs : list WS.chunk)
  : WS.Client * list WS.effect :=
  match chs with
  | [] => (c, [])
  | ch :: rest =>
      let '(c1, fx1) := WS.sendAudioChunk c ch in
      let '(c2, fx2) := send_all c1 rest in
      (c2, fx1 ++ fx2)
  end.

Definition is_connect (o : Run.op) : bool :=
  match o with Run.Connect => true | _ => false end.

(** What each socket was handed by [send], socket by socket. *)
Definition all_sent (c : WS.Client) : list (list (list Z)) :=
  map WS.sent (WS.sockets c).

(** The readings of the clock in the passes of a run that call
    [onChunk]. *)
Fixpoint emission_times (cb : Audio.AudioStreamCallbacks)
  (st : Audio.Framer) (blocks : list (list number * number))
  : list number :=
  match blocks with
  | [] => []
  | (input, now) :: rest =>
      let '(st', fx) := Audio.onaudioprocess cb st input now in
      match Audio.chunks fx with
      | [] => emission_times cb st' rest
      | _ :: _ => now :: emission_times cb st' rest
      end
  end.

(** Every reading is at least [FRAME_DURATION_MS] after the one before
    it, [t0] coming first. *)
Fixpoint spaced (t0 : number) (ts : list number) : bool :=
  match ts with
  | [] => true
  | t :: rest => (FRAME_DURATION_MS <=? t - t0)%float && spaced t rest
  end.

(** The error that makes a resumed [start()] fail, if any. *)
Definition start_error (env : Audio.start_env) : option error :=
  match Audio.getUserMedia env with
  | inl e => Some e
  | inr _ =>
      match Audio.new_AudioContext env with
      | inl e => Some e
      | inr _ => None
      end
  end.

(** ** App.tsx: the transcript and the glue between the two modules *)

Module App.

Import JSON.

(** [ServerMessage], as lib/ws.ts declares it: [is_final] is optional. *)
Inductive ServerMessage : Type :=
| TranscriptMessage (text : jsstring) (is_final : option bool)
| ErrorMessage (message : jsstring).

(** The two state variables of [useTranscript]. *)
Record Transcript := mkTranscript {
  partial : jsstring;
  finals : list jsstring
}.

Definition initial : Transcript := mkTranscript [] [].

(** [handleMessage], with its argument at its declared type: the state
    once React has applied the updates that the call enqueues
    ([setFinals] with an updater function, [setPartial] with a value). *)
Definition handleMessage (t : Transcript) (msg : ServerMessage)
  : Transcript :=
  match msg with
  | TranscriptMessage text is_final =>
      if default false is_final
      then mkTranscript [] (finals t ++ [text])
      else mkTranscript text (finals t)
  | ErrorMessage _ => t
  end.

(** [Boolean(s)] for a string. *)
Definition truthy (s : jsstring) : bool :=
  match s with [] => false | _ :: _ => true end.

(** [lines.join(sep)] for an array of strings. *)
Fixpoint join (sep : jsstring) (lines : list jsstring) : jsstring :=
  match lines with
  | [] => []
  | [s] => s
  | s :: rest => s ++ sep ++ join sep rest
  end.

(** The value of the transcript text area:
    [[...finals, partial].filter(Boolean).join('\n')]. *)
Definition transcript_text (t : Transcript) : jsstring :=
  join [10%N] (List.filter truthy (finals t ++ [partial t])).

(** The [onChunk] callback that [startRecording] gives the framer:
    [wsRef.current?.sendAudioChunk(chunk)], the chunk being the
    [ArrayBuffer] of a payload. *)
Definition onChunk (ws : option WS.Client) (payload : list Z)
  : option WS.Client * list WS.effect :=
  match ws with
  | Some c =>
      let '(c', fx) := WS.sendAudioChunk c (WS.Buffer payload) in
      (Some c', fx)
  | None => (None, [])
  end.

(** [onChunk] called for each payload of a list in turn. *)
Fixpoint forward (ws : option WS.Client) (payloads : list (list Z))
  : option WS.Client * list WS.effect :=
  match payloads with
  | [] => (ws, [])
  | payload :: rest =>
      let '(ws1, fx1) := onChunk ws payload in
      let '(ws2, fx2) := forward ws1 rest in
      (ws2, fx1 ++ fx2)
  end.

End App.

(** The text that a message adds to the final transcripts, if any. *)
Definition final_text (msg : App.ServerMessage) : option JSON.jsstring :=
  match msg with
  | App.TranscriptMessage text (Some true) => Some text
  | _ => None
  end.

(** The partial transcript that a message sets, if any. *)
Definition partial_text (msg : App.ServerMessage) : option JSON.jsstring :=
  match msg with
  | App.TranscriptMessage text (Some true) => Some []
  | App.TranscriptMessage text _ => Some text
  | App.ErrorMessage _ => None
  end.

(** What the socket that a client refers to was handed so far. *)
Definition sent_on_socket (ws : option WS.Client) : list (list Z) :=
  match ws with
  | Some c =>
      match WS.socket c with
      | Some s => default [] (WS.sent <$> WS.sockets c !! s)
      | None => []
      end
  | None => []
  end.

(** A browser that refuses the microphone. *)
Definition denied : Audio.start_env :=
  {| Audio.getUserMedia := inl (DOMException 0);
     Audio.new_AudioContext := inr {| Audio.sampleRate := 48000%float |};
     Audio.start_now := 0%float |}.

(** A browser that grants the microphone and refuses the audio
    context. *)
Definition context_refused : Audio.start_env :=
  {| Audio.getUserMedia := inr 7%nat;
     Audio.new_AudioContext := inl (DOMException 1);
     Audio.start_now := 0%float |}.

(** A consumer that throws on every payload and supplies no error
    callback. *)
Definition deaf_callbacks : Audio.AudioStreamCallbacks :=
  {| Audio.onChunk_throws := fun _ => Some (Thrown 1);
     Audio.has_onError := false;
     Audio.onError_throws := fun _ => None |}.

(** A consumer whose error callback throws on every error. *)
Definition throwing_callbacks : Audio.AudioStreamCallbacks :=
  {| Audio.onChunk_throws := fun _ => None;
     Audio.has_onError := true;
     Audio.onError_throws := fun _ => Some (Thrown 2) |}.

(** A client whose connection is open. *)
Definition open_client : WS.Client :=
  Run.run plain_config WS.init [Run.Connect; Run.Event (WS.Open_ 0)].

(** A client configuration whose URL the [WebSocket] constructor
    rejects. *)
Definition bad_url_config : WS.Config :=
  {| WS.url_ok := false;
     WS.onMessage_throws := fun _ => None;
     WS.has_onError := true;
     WS.onError_throws := fun _ => None |}.

(** A client configuration whose error callback throws on every error. *)
Definition throwing_config : WS.Config :=
  {| WS.url_ok := true;
     WS.onMessage_throws := fun _ => None;
     WS.has_onError := true;
     WS.onError_throws := fun _ => Some (Thrown 2) |}.

(** The frame arithmetic of the capture callback, as the source computes
    it on numbers: [samplesPerFrame], [framesToEmit] and [emitCount] for
    a buffer of [len] samples. *)
Definition samplesPerFrame_number : number :=
  Math_round (TARGET_SAMPLE_RATE * FRAME_DURATION_MS / 1000)%float.

Definition framesToEmit (len : nat) : number :=
  Math_floor (of_nat len / samplesPerFrame_number)%float.

Definition emitCount (len : nat) : number :=
  (framesToEmit len * samplesPerFrame_number)%float.

(** A sample that is neither NaN nor an infinity. *)
Definition finite_number (x : number) : bool :=
  match Prim2SF x with
  | S754_nan | S754_infinity _ => false
  | _ => true
  end.

(** * Properties *)

(** ** Comparisons of numbers *)

Section Comparisons.

#[local] Open Scope float_scope.

Lemma SFcompare_antisym (a b : spec_float) :
  SFcompare b a = option_map CompOpp (SFcompare a b).
Proof.
  destruct a as [sa|sa| |sa ma ea], b as [sb|sb| |sb mb eb]; simpl;
    try reflexivity; try (destruct sa; reflexivity);
    try (destruct sb; reflexivity); try (destruct sa, sb; reflexivity).
  f_equal. rewrite (Z.compare_antisym ea eb).
  change (Pos.compare_cont Eq mb ma)
    with (Pos.compare_cont (CompOpp Eq) mb ma).
  rewrite <- (Pos.compare_cont_antisym ma mb Eq).
  destruct sa, sb; simpl; try reflexivity;
    destruct (ea ?= eb)%Z; simpl; try reflexivity;
    destruct (Pos.compare_cont Eq ma mb); reflexivity.
Qed.

Lemma is_nan_spec (x : number) :
  is_nan x = false <-> Prim2SF x <> S754_nan.
Proof.
  unfold is_nan. rewrite FloatAxioms.eqb_spec. unfold SFeqb.
  destruct (Prim2SF x) as [s|s| |s m e]; simpl.
  - split; [discriminate|reflexivity].
  - destruct s; simpl; (split; [discriminate|reflexivity]).
  - split; [discriminate|congruence].
  - rewrite Z.compare_refl, Pos.compare_cont_refl.
    destruct s; simpl; (split; [discriminate|reflexivity]).
Qed.

Lemma is_nan_eq (x : number) : is_nan x = true -> x = nan.
Proof.
  intros H. apply Prim2SF_inj.
  destruct (Prim2SF x) eqn:E; try reflexivity;
    exfalso; (assert (is_nan x = false) as Hf
                by (apply is_nan_spec; congruence)); congruence.
Qed.

Lemma not_ltb_leb (a b : number) :
  is_nan a = false -> is_nan b = false ->
  (a <? b) = false -> (b <=? a) = true.
Proof.
  rewrite !is_nan_spec, FloatAxioms.ltb_spec, FloatAxioms.leb_spec.
  unfold SFltb, SFleb.
  intros Ha Hb. rewrite (SFcompare_antisym (Prim2SF a) (Prim2SF b)).
  destruct (SFcompare (Prim2SF a) (Prim2SF b)) as [[]|] eqn:E; simpl;
    try congruence.
  destruct (Prim2SF a), (Prim2SF b); simpl in E; congruence.
Qed.

(** Two numbers that compare equal to -1 or to 1 are that number. *)
Lemma compare_eq_finite (a b : number) (s : bool) (m : positive) (e : Z) :
  Prim2SF b = S754_finite s m e ->
  (a <? b) = false -> (b <? a) = false -> is_nan a = false -> a = b.
Proof.
  intros Hb. rewrite !FloatAxioms.ltb_spec, is_nan_spec. unfold SFltb.
  intros H1 H2 Hn. apply Prim2SF_inj. rewrite Hb in *.
  rewrite (SFcompare_antisym (Prim2SF a) (S754_finite s m e)) in H2.
  destruct (Prim2SF a) as [sa|sa| |sa ma ea]; simpl in *; try congruence.
  - destruct s; simpl in *; congruence.
  - destruct sa; simpl in *; congruence.
  - destruct sa, s; simpl in *; try congruence;
      destruct (ea ?= e)%Z eqn:Ee; simpl in *; try congruence;
      apply Z.compare_eq in Ee; subst ea;
      destruct (Pos.compare_cont Eq ma m) eqn:Em; simpl in *;
        try congruence; apply Pos.compare_eq in Em; by subst.
Qed.

End Comparisons.

(** ** Quantization *)

Section Quantization.

#[local] Open Scope float_scope.

Lemma above_one_not_below (x : number) :
  (1 <? x) = true -> (x <? -1) = false.
Proof.
  rewrite !FloatAxioms.ltb_spec. unfold SFltb.
  change (Prim2SF 1) with (S754_finite false 4503599627370496 (-52)).
  change (Prim2SF (-1)) with (S754_finite true 4503599627370496 (-52)).
  destruct (Prim2SF x) as [s|s| |s m e]; try destruct s;
    cbv beta iota delta [SFcompare]; congruence.
Qed.

(** Clamping returns -1 below -1, 1 above 1, and the sample itself
    otherwise (NaN included). *)
Lemma clamp_eq (x : number) :
  clamp x = if x <? -1 then -1 else if 1 <? x then 1 else x.
Proof.
  destruct (is_nan x) eqn:Hx.
  - apply is_nan_eq in Hx. subst x. reflexivity.
  - unfold clamp, Math_min. rewrite Hx.
    change (is_nan 1) with false. cbn [orb].
    change (is_neg_zero 1) with false. cbv iota.
    destruct (1 <? x) eqn:E1.
    + rewrite (above_one_not_below x E1). reflexivity.
    + assert (Hm : (if x <? 1 then x else x) = x) by (by destruct (x <? 1)).
      rewrite Hm. unfold Math_max. rewrite Hx.
      change (is_nan (-1)) with false. cbn [orb].
      change (is_neg_zero (-1)) with false. cbv iota.
      destruct (x <? -1) eqn:E2; [reflexivity|].
      destruct (-1 <? x) eqn:E3; [reflexivity|].
      symmetry. by eapply (compare_eq_finite x (-1)).
Qed.

Lemma clamp_bounds (x : number) :
  is_nan x = false -> (-1 <=? clamp x) = true /\ (clamp x <=? 1) = true.
Proof.
  intros Hx. rewrite clamp_eq.
  destruct (x <? -1) eqn:E1; [split; reflexivity|].
  destruct (1 <? x) eqn:E2; [split; reflexivity|].
  split; apply not_ltb_leb; done.
Qed.

Lemma ToInt16_range (x : number) : (-32768 <= ToInt16 x <= 32767)%Z.
Proof.
  unfold ToInt16. destruct (truncZ x) as [z|]; [|lia].
  pose proof (Z.mod_pos_bound z 65536 eq_refl).
  destruct (32768 <=? z mod 65536)%Z eqn:E; lia.
Qed.

End Quantization.

(** ** The two loops *)

Section Loops.

Lemma resample_loop_length input ratio n : forall i output,
  length (resample_loop input ratio n i output) = length output.
Proof.
  induction n as [|n IH]; intros i output; simpl; [done|].
  rewrite IH. unfold Float32Array_set. by rewrite length_insert.
Qed.

Lemma resample_loop_lookup input ratio n : forall i output j,
  (i + n <= length output)%nat ->
  resample_loop input ratio n i output !! j =
    if bool_decide (i <= j < i + n)%nat
    then Some (fround (resample_sample input ratio j))
    else output !! j.
Proof.
  induction n as [|n IH]; intros i output j Hlen; simpl.
  - rewrite bool_decide_eq_false_2; [done|lia].
  - rewrite IH by (unfold Float32Array_set; rewrite length_insert; lia).
    unfold Float32Array_set.
    destruct (decide (j = i)) as [->|Hne].
    + rewrite (bool_decide_eq_false_2 (S i <= i < _)%nat) by lia.
      rewrite (bool_decide_eq_true_2 (i <= i < _)%nat) by lia.
      apply list_lookup_insert_eq. lia.
    + rewrite list_lookup_insert_ne by done.
      destruct (decide (S i <= j < S i + n)%nat).
      * rewrite !bool_decide_eq_true_2 by lia. done.
      * rewrite !bool_decide_eq_false_2 by lia. done.
Qed.

Lemma pcm_loop_lookup float32 n : forall i out j,
  (i + n <= length out)%nat ->
  pcm_loop float32 n i out !! j =
    if bool_decide (i <= j < i + n)%nat
    then Some (quantize (get_at float32 j))
    else out !! j.
Proof.
  induction n as [|n IH]; intros i out j Hlen; simpl.
  - rewrite bool_decide_eq_false_2; [done|lia].
  - rewrite IH by (unfold Int16Array_set; rewrite length_insert; lia).
    unfold Int16Array_set.
    destruct (decide (j = i)) as [->|Hne].
    + rewrite (bool_decide_eq_false_2 (S i <= i < _)%nat) by lia.
      rewrite (bool_decide_eq_true_2 (i <= i < _)%nat) by lia.
      apply list_lookup_insert_eq. lia.
    + rewrite list_lookup_insert_ne by done.
      destruct (decide (S i <= j < S i + n)%nat).
      * rewrite !bool_decide_eq_true_2 by lia. done.
      * rewrite !bool_decide_eq_false_2 by lia. done.
Qed.

(** The quantization loop stores the quantized sample at every index. *)
Lemma floatTo16BitPCM_map (float32 : list number) :
  floatTo16BitPCM float32 = map quantize float32.
Proof.
  apply list_eq. intros j. unfold floatTo16BitPCM.
  rewrite pcm_loop_lookup by (rewrite length_replicate; lia).
  rewrite list_lookup_fmap. unfold get_at.
  destruct (float32 !! j) as [x|] eqn:E; simpl.
  - assert (j < length float32)%nat by (eapply lookup_lt_Some; eauto).
    rewrite bool_decide_eq_true_2 by lia. reflexivity.
  - assert (length float32 <= j)%nat by (by apply lookup_ge_None).
    rewrite bool_decide_eq_false_2 by lia.
    apply lookup_ge_None. by rewrite length_replicate.
Qed.

Lemma floatTo16BitPCM_length (float32 : list number) :
  length (floatTo16BitPCM float32) = length float32.
Proof. rewrite floatTo16BitPCM_map. apply length_map. Qed.

Lemma Int16Array_buffer_length (a : list Z) :
  length (Int16Array_buffer a) = (2 * length a)%nat.
Proof.
  unfold Int16Array_buffer. induction a as [|v a IH]; simpl; [done|].
  rewrite IH. lia.
Qed.

(** The buffer holds every sample as two bytes, the low byte first. *)
Lemma Int16Array_buffer_lookup (a : list Z) (j : nat) (v : Z) :
  a !! j = Some v ->
  Int16Array_buffer a !! (2 * j)%nat = Some ((v mod 65536) mod 256) /\
  Int16Array_buffer a !! (2 * j + 1)%nat = Some ((v mod 65536) / 256).
Proof.
  intros Hj. split.
  - revert j Hj. induction a as [|w a IH]; intros [|j] Hj; try done.
    + injection Hj as ->. reflexivity.
    + replace (2 * S j)%nat with (S (S (2 * j))) by lia.
      cbn [Int16Array_buffer flat_map app]. apply (IH j Hj).
  - revert j Hj. induction a as [|w a IH]; intros [|j] Hj; try done.
    + injection Hj as ->. reflexivity.
    + replace (2 * S j + 1)%nat with (S (S (2 * j + 1))) by lia.
      cbn [Int16Array_buffer flat_map app]. apply (IH j Hj).
Qed.

Lemma Int16Array_buffer_bytes (a : list Z) :
  Forall (fun b => 0 <= b < 256) (Int16Array_buffer a).
Proof.
  induction a as [|v a IH]; [constructor|].
  cbn [Int16Array_buffer flat_map app].
  pose proof (Z.mod_pos_bound v 65536 ltac:(lia)).
  constructor; [apply Z.mod_pos_bound; lia|].
  constructor; [|exact IH].
  split; [apply Z.div_pos; lia|apply Z.div_lt_upper_bound; lia].
Qed.

End Loops.

(** ** Magnitudes of rounded numbers *)

Section Rounding.

Lemma digits2_pos_bounds (p : positive) :
  2 ^ (Z.pos (digits2_pos p) - 1) <= Z.pos p < 2 ^ Z.pos (digits2_pos p).
Proof.
  induction p as [p IH|p IH|]; cbn [digits2_pos].
  - rewrite Pos2Z.inj_succ.
    replace (Z.succ (Z.pos (digits2_pos p)) - 1) with (Z.pos (digits2_pos p)) by lia.
    rewrite Z.pow_succ_r by lia.
    assert (2 ^ Z.pos (digits2_pos p) = 2 * 2 ^ (Z.pos (digits2_pos p) - 1)) as E.
    { rewrite <- Z.pow_succ_r by lia. f_equal. lia. }
    lia.
  - rewrite Pos2Z.inj_succ.
    replace (Z.succ (Z.pos (digits2_pos p)) - 1) with (Z.pos (digits2_pos p)) by lia.
    rewrite Z.pow_succ_r by lia.
    assert (2 ^ Z.pos (digits2_pos p) = 2 * 2 ^ (Z.pos (digits2_pos p) - 1)) as E.
    { rewrite <- Z.pow_succ_r by lia. f_equal. lia. }
    lia.
  - simpl. lia.
Qed.

Lemma Zdigits2_nonneg (m : Z) : 0 <= Zdigits2 m.
Proof. destruct m; simpl; lia. Qed.

Lemma Zdigits2_bounds (m : Z) :
  0 < m -> 2 ^ (Zdigits2 m - 1) <= m < 2 ^ Zdigits2 m.
Proof. destruct m as [|p|p]; try lia. intros _. apply digits2_pos_bounds. Qed.

Lemma Zdigits2_pos (m : Z) : 0 < m -> 1 <= Zdigits2 m.
Proof. destruct m as [|p|p]; try lia. intros _. simpl. lia. Qed.

(** [m < 2 ^ k] bounds the number of digits by [k], and conversely. *)
Lemma Zdigits2_le (m k : Z) : 0 <= m -> 0 <= k -> m < 2 ^ k -> Zdigits2 m <= k.
Proof.
  intros Hm Hk H. destruct (Z.eq_dec m 0) as [->|Hne]; [simpl; lia|].
  destruct (Zdigits2_bounds m ltac:(lia)) as [Hlo _].
  destruct (Z_le_gt_dec (Zdigits2 m) k) as [|Hgt]; [done|].
  assert (2 ^ k <= 2 ^ (Zdigits2 m - 1)) by (apply Z.pow_le_mono_r; lia).
  lia.
Qed.

Lemma Zdigits2_ge (m k : Z) : 0 <= k -> 2 ^ k <= m -> k + 1 <= Zdigits2 m.
Proof.
  intros Hk H. assert (0 < m) by (pose proof (Z.pow_pos_nonneg 2 k); lia).
  destruct (Zdigits2_bounds m ltac:(lia)) as [_ Hhi].
  destruct (Z_le_gt_dec (k + 1) (Zdigits2 m)) as [|Hgt]; [done|].
  assert (2 ^ Zdigits2 m <= 2 ^ k)
    by (apply Z.pow_le_mono_r; pose proof (Zdigits2_nonneg m); lia).
  lia.
Qed.

Lemma shr_1_m (mrs : shr_record) :
  0 <= shr_m mrs -> shr_m (shr_1 mrs) = shr_m mrs / 2.
Proof.
  destruct mrs as [m r s]. cbn [shr_m]. intros Hm.
  destruct m as [|[p|p|]|p]; cbn [shr_1 shr_m]; try lia.
  - reflexivity.
  - rewrite Pos2Z.inj_xI. apply Z.div_unique with 1; lia.
  - rewrite Pos2Z.inj_xO. apply Z.div_unique with 0; lia.
  - reflexivity.
Qed.

Lemma iter_shr_1_m (n : positive) : forall mrs : shr_record,
  0 <= shr_m mrs ->
  shr_m (SpecFloat.iter_pos shr_1 n mrs) = Z.shiftr (shr_m mrs) (Z.pos n).
Proof.
  induction n as [n IH|n IH|]; intros mrs Hm; cbn [SpecFloat.iter_pos].
  - assert (0 <= shr_m (shr_1 mrs))
      by (rewrite shr_1_m by done; apply Z.div_pos; lia).
    assert (0 <= shr_m (SpecFloat.iter_pos shr_1 n (shr_1 mrs)))
      by (rewrite IH by done; by apply Z.shiftr_nonneg).
    rewrite IH, IH, shr_1_m by done.
    rewrite <- (Z.shiftr_div_pow2 _ 1) by lia.
    rewrite !Z.shiftr_shiftr by lia. f_equal. lia.
  - assert (0 <= shr_m (SpecFloat.iter_pos shr_1 n mrs))
      by (rewrite IH by done; by apply Z.shiftr_nonneg).
    rewrite IH, IH by done.
    rewrite !Z.shiftr_shiftr by lia. f_equal. lia.
  - rewrite shr_1_m by done. by rewrite <- (Z.shiftr_div_pow2 _ 1) by lia.
Qed.

Lemma fexp_eq (e : Z) : fexp prec emax e = fexp64 e.
Proof. reflexivity. Qed.

(** Shifting to the exponent [fexp] of the magnitude. *)
Lemma shr_fexp_spec (m e : Z) (l : location) :
  0 <= m ->
  let e' := Z.max e (fexp64 (Zdigits2 m + e)) in
  snd (shr_fexp prec emax m e l) = e' /\
  shr_m (fst (shr_fexp prec emax m e l)) = Z.shiftr m (e' - e).
Proof.
  intros Hm e'. unfold shr_fexp, shr. rewrite fexp_eq. fold fexp64.
  assert (Hrec : shr_m (shr_record_of_loc m l) = m)
    by (destruct l as [|[]]; reflexivity).
  destruct (fexp64 (Zdigits2 m + e) - e) as [|p|p] eqn:E; cbn [fst snd].
  - unfold e'. replace (Z.max e _) with e by lia.
    rewrite Z.sub_diag, Z.shiftr_0_r. done.
  - unfold e'. replace (Z.max e _) with (fexp64 (Zdigits2 m + e)) by lia.
    split; [lia|]. rewrite iter_shr_1_m by lia. rewrite Hrec. f_equal. lia.
  - unfold e'. replace (Z.max e _) with e by lia.
    rewrite Z.sub_diag, Z.shiftr_0_r. done.
Qed.

Lemma round_nearest_even_bounds (m : Z) (l : location) :
  m <= round_nearest_even m l <= m + 1.
Proof.
  unfold round_nearest_even. destruct l as [|[]]; try lia.
  destruct (Z.even m); lia.
Qed.

(** The steps of [binary_round_aux], spelled out. *)
Lemma binary_round_aux_spec (sx : bool) (mx ex : Z) (lx : location) :
  0 <= mx ->
  exists m2,
    let e1 := Z.max ex (fexp64 (Zdigits2 mx + ex)) in
    let m1 := Z.shiftr mx (e1 - ex) in
    let e3 := Z.max e1 (fexp64 (Zdigits2 m2 + e1)) in
    let m3 := Z.shiftr m2 (e3 - e1) in
    m1 <= m2 <= m1 + 1 /\
    binary_round_aux prec emax sx mx ex lx =
      match m3 with
      | Z0 => S754_zero sx
      | Z.pos m => if e3 <=? 971 then S754_finite sx m e3
                   else S754_infinity sx
      | Z.neg _ => S754_nan
      end.
Proof.
  intros Hm. unfold binary_round_aux.
  destruct (shr_fexp_spec mx ex lx Hm) as [He1 Hm1].
  destruct (shr_fexp prec emax mx ex lx) as [mrs1 e1]. cbn [fst snd] in *.
  set (m2 := round_nearest_even (shr_m mrs1) (loc_of_shr_record mrs1)).
  assert (H2 : shr_m mrs1 <= m2 <= shr_m mrs1 + 1)
    by apply round_nearest_even_bounds.
  assert (0 <= shr_m mrs1) by (rewrite Hm1; by apply Z.shiftr_nonneg).
  destruct (shr_fexp_spec m2 e1 loc_Exact ltac:(lia)) as [He3 Hm3].
  destruct (shr_fexp prec emax m2 e1 loc_Exact) as [mrs3 e3].
  cbn [fst snd] in *.
  exists m2. cbv zeta. subst e1. rewrite <- Hm1. split; [done|].
  rewrite Hm3, He3. reflexivity.
Qed.

Lemma shiftr_lt_pow2 (a n k : Z) :
  0 <= k <= n -> a < 2 ^ n -> Z.shiftr a k < 2 ^ (n - k).
Proof.
  intros Hk Ha. rewrite Z.shiftr_div_pow2 by lia.
  apply Z.div_lt_upper_bound; [apply Z.pow_pos_nonneg; lia|].
  rewrite <- Z.pow_add_r by lia. by replace (k + (n - k)) with n by lia.
Qed.

Lemma shiftr_le_pow2 (a n k : Z) :
  0 <= k <= n -> a <= 2 ^ n -> Z.shiftr a k <= 2 ^ (n - k).
Proof.
  intros Hk Ha. rewrite Z.shiftr_div_pow2 by lia.
  assert (0 < 2 ^ k) by (apply Z.pow_pos_nonneg; lia).
  apply Z.div_le_upper_bound; [done|].
  rewrite <- Z.pow_add_r by lia. by replace (k + (n - k)) with n by lia.
Qed.

Lemma shiftr_ge_pow2 (a n k : Z) :
  0 <= k <= n -> 2 ^ n <= a -> 2 ^ (n - k) <= Z.shiftr a k.
Proof.
  intros Hk Ha. rewrite Z.shiftr_div_pow2 by lia.
  apply Z.div_le_lower_bound; [apply Z.pow_pos_nonneg; lia|].
  rewrite <- Z.pow_add_r by lia. by replace (k + (n - k)) with n by lia.
Qed.

(** Rounding does not raise a number above the next power of two. *)
Lemma round_upper (sx : bool) (mx ex : Z) (lx : location) (G : Z) :
  0 <= mx -> Zdigits2 mx + ex <= G -> -1074 <= G <= 971 ->
  match binary_round_aux prec emax sx mx ex lx with
  | S754_zero s => s = sx
  | S754_finite s m e => s = sx /\ e <= G /\ Z.pos m <= 2 ^ (G - e)
  | _ => False
  end.
Proof.
  intros Hm Hg HG.
  destruct (binary_round_aux_spec sx mx ex lx Hm) as (m2 & H2 & ->).
  cbv zeta in *. pose proof (Zdigits2_nonneg mx) as Hd.
  set (e1 := Z.max ex (fexp64 (Zdigits2 mx + ex))) in *.
  assert (He1 : ex <= e1 <= G) by (unfold e1, fexp64; lia).
  set (m1 := Z.shiftr mx (e1 - ex)) in *.
  assert (Hm1 : 0 <= m1 < 2 ^ (G - e1)).
  { split; [by apply Z.shiftr_nonneg|].
    replace (G - e1) with (G - ex - (e1 - ex)) by lia.
    apply shiftr_lt_pow2; [lia|].
    destruct (Z.eq_dec mx 0) as [->|Hne]; [apply Z.pow_pos_nonneg; lia|].
    destruct (Zdigits2_bounds mx ltac:(lia)) as [_ Hhi].
    eapply Z.lt_le_trans; [exact Hhi|]. apply Z.pow_le_mono_r; lia. }
  assert (Hd2 : Zdigits2 m2 <= G - e1 + 1).
  { apply Zdigits2_le; [lia|lia|].
    rewrite Z.pow_add_r, Z.pow_1_r by lia. lia. }
  set (e3 := Z.max e1 (fexp64 (Zdigits2 m2 + e1))) in *.
  assert (He3 : e1 <= e3 <= G) by (unfold e3, fexp64; lia).
  assert (Hm3 : 0 <= Z.shiftr m2 (e3 - e1) <= 2 ^ (G - e3)).
  { split; [apply Z.shiftr_nonneg; lia|].
    replace (G - e3) with (G - e1 - (e3 - e1)) by lia.
    apply shiftr_le_pow2; lia. }
  destruct (Z.shiftr m2 (e3 - e1)) as [|m|m]; [reflexivity| |lia].
  rewrite (proj2 (Z.leb_le e3 971)) by lia. split; [done|lia].
Qed.

(** Rounding does not lower the magnitude of a number that is not tiny. *)
Lemma round_lower (sx : bool) (mx ex : Z) (lx : location) (g : Z) :
  0 < mx -> g <= Zdigits2 mx + ex -> -1073 <= g ->
  match binary_round_aux prec emax sx mx ex lx with
  | S754_finite s m e => s = sx /\ g <= Z.pos (digits2_pos m) + e
  | S754_infinity s => s = sx
  | _ => False
  end.
Proof.
  intros Hm Hg Hg0.
  destruct (binary_round_aux_spec sx mx ex lx ltac:(lia)) as (m2 & H2 & ->).
  cbv zeta in *.
  destruct (Zdigits2_bounds mx Hm) as [Hlo _].
  set (d := Zdigits2 mx) in *.
  assert (1 <= d) by (apply (Zdigits2_pos mx Hm)).
  set (e1 := Z.max ex (fexp64 (d + ex))) in *.
  assert (He1 : 0 <= e1 - ex <= d - 1) by (unfold e1, fexp64; lia).
  set (m1 := Z.shiftr mx (e1 - ex)) in *.
  assert (Hm1 : 2 ^ (d - 1 - (e1 - ex)) <= m1)
    by (apply shiftr_ge_pow2; lia).
  assert (Hd2 : d - (e1 - ex) <= Zdigits2 m2).
  { replace (d - (e1 - ex)) with (d - 1 - (e1 - ex) + 1) by lia.
    apply Zdigits2_ge; lia. }
  assert (Hm2 : 0 < m2).
  { assert (0 < 2 ^ (d - 1 - (e1 - ex))) by (apply Z.pow_pos_nonneg; lia).
    lia. }
  destruct (Zdigits2_bounds m2 Hm2) as [Hlo2 _].
  set (d2 := Zdigits2 m2) in *.
  set (e3 := Z.max e1 (fexp64 (d2 + e1))) in *.
  assert (He3 : 0 <= e3 - e1 <= d2 - 1) by (unfold e3, fexp64; lia).
  assert (Hm3 : 2 ^ (d2 - 1 - (e3 - e1)) <= Z.shiftr m2 (e3 - e1))
    by (apply shiftr_ge_pow2; lia).
  assert (0 < 2 ^ (d2 - 1 - (e3 - e1))) by (apply Z.pow_pos_nonneg; lia).
  destruct (Z.shiftr m2 (e3 - e1)) as [|m|m] eqn:E; [lia| |lia].
  destruct (e3 <=? 971); [|reflexivity]. split; [done|].
  assert (d2 - 1 - (e3 - e1) + 1 <= Zdigits2 (Z.pos m))
    by (apply Zdigits2_ge; lia).
  simpl in H2. cbn [Zdigits2] in *. lia.
Qed.

Lemma digits2_pos_iter_xO (m d : positive) :
  Z.pos (digits2_pos (Pos.iter xO m d)) = Z.pos (digits2_pos m) + Z.pos d.
Proof.
  induction d as [|d IH] using Pos.peano_ind.
  - cbn [Pos.iter digits2_pos]. lia.
  - rewrite Pos.iter_succ. cbn [digits2_pos]. lia.
Qed.

(** Aligning a mantissa keeps the magnitude. *)
Lemma shl_align_magnitude (mx : positive) (ex ex' : Z) :
  let '(mz, ez) := shl_align mx ex ex' in
  Z.pos (digits2_pos mz) + ez = Z.pos (digits2_pos mx) + ex.
Proof.
  unfold shl_align. destruct (ex' - ex) as [|d|d] eqn:E; [done|done|].
  rewrite digits2_pos_iter_xO. lia.
Qed.

(** The number made from an integer in [0, 2^k). *)
Lemma of_Z_upper (z k : Z) :
  0 <= z < 2 ^ k -> 0 <= k <= 62 ->
  match Prim2SF (of_Z z) with
  | S754_zero _ => True
  | S754_finite s m e => s = false /\ e <= k /\ Z.pos m <= 2 ^ (k - e)
  | _ => False
  end.
Proof.
  intros Hz Hk. unfold of_Z. rewrite (proj2 (Z.ltb_ge z 0)) by lia.
  rewrite of_uint63_spec, Uint63.of_Z_spec.
  rewrite Z.mod_small.
  2:{ split; [lia|]. eapply Z.lt_le_trans; [apply Hz|].
      change wB with (2 ^ 63). apply Z.pow_le_mono_r; lia. }
  destruct z as [|p|p]; [done| |lia]. cbn [binary_normalize].
  unfold binary_round.
  pose proof (shl_align_magnitude p 0
                (fexp prec emax (Z.pos (digits2_pos p) + 0))) as Hmag.
  destruct (shl_align p 0 _) as [mz ez].
  assert (Z.pos (digits2_pos p) <= k).
  { apply (Zdigits2_le (Z.pos p) k); lia. }
  pose proof (round_upper false (Z.pos mz) ez loc_Exact k ltac:(lia)) as H'.
  cbn [Zdigits2] in H'. specialize (H' ltac:(lia) ltac:(lia)).
  destruct (binary_round_aux prec emax false (Z.pos mz) ez loc_Exact);
    done.
Qed.

(** The truncated quotient computed by [SFdiv_core_binary]. *)
Lemma SFdiv_core_binary_spec (m1 e1 m2 e2 : Z) :
  0 < m1 -> 0 < m2 ->
  let e' := Z.min (fexp64 (Zdigits2 m1 + e1 - (Zdigits2 m2 + e2))) (e1 - e2) in
  let s := e1 - e2 - e' in
  exists l,
    SFdiv_core_binary prec emax m1 e1 m2 e2 = (m1 * 2 ^ s / m2, e', l).
Proof.
  intros H1 H2 e' s. unfold SFdiv_core_binary. rewrite fexp_eq.
  fold e'. fold s. assert (0 <= s) by (unfold s, e'; lia).
  assert (Hm : match s with
               | 0 => m1 | Z.pos _ => Z.shiftl m1 s | Z.neg _ => 0
               end = m1 * 2 ^ s).
  { destruct s as [|p|p] eqn:E; [lia| |lia]. by rewrite Z.shiftl_mul_pow2. }
  rewrite Hm.
  pose proof (Z_div_mod (m1 * 2 ^ s) m2 ltac:(lia)) as Hdm.
  unfold Z.div. destruct (Z.div_eucl (m1 * 2 ^ s) m2) as [q r].
  eexists. reflexivity.
Qed.

(** The magnitude of a quotient is at most the difference of the
    magnitudes plus one. *)
Lemma SFdiv_core_upper (m1 e1 m2 e2 : Z) (G : Z) :
  0 < m1 -> 0 < m2 ->
  Zdigits2 m1 + e1 - (Zdigits2 m2 + e2) + 1 <= G -> -1074 <= G ->
  let '(q, e', _) := SFdiv_core_binary prec emax m1 e1 m2 e2 in
  0 <= q /\ Zdigits2 q + e' <= G.
Proof.
  intros H1 H2 HG HG'.
  destruct (SFdiv_core_binary_spec m1 e1 m2 e2 H1 H2) as [l ->].
  set (d1 := Zdigits2 m1) in *. set (d2 := Zdigits2 m2) in *.
  set (e' := Z.min (fexp64 (d1 + e1 - (d2 + e2))) (e1 - e2)).
  set (s := e1 - e2 - e').
  assert (0 <= s) by (unfold s, e'; lia).
  assert (e' <= G) by (unfold e', fexp64; lia).
  destruct (Zdigits2_bounds m1 H1) as [_ Hhi1]. fold d1 in Hhi1.
  destruct (Zdigits2_bounds m2 H2) as [Hlo2 _]. fold d2 in Hlo2.
  assert (Hd2 : 1 <= d2) by (apply (Zdigits2_pos m2 H2)).
  pose proof (Zdigits2_nonneg m1) as Hd1. fold d1 in Hd1.
  assert (0 < 2 ^ s) by (apply Z.pow_pos_nonneg; lia).
  assert (Hq0 : 0 <= m1 * 2 ^ s / m2) by (apply Z.div_pos; nia).
  split; [done|].
  assert (Hq : m1 * 2 ^ s / m2 < 2 ^ (G - e')).
  { apply Z.div_lt_upper_bound; [done|].
    assert (Ha : m1 * 2 ^ s < 2 ^ (d1 + s))
      by (rewrite Z.pow_add_r by lia; nia).
    assert (Hb : 2 ^ (d1 + s) <= 2 ^ (d2 - 1 + (G - e'))).
    { apply Z.pow_le_mono_r; [lia|]. unfold s. lia. }
    rewrite (Z.pow_add_r 2 (d2 - 1) (G - e')) in Hb by lia.
    assert (Hc : 0 < 2 ^ (G - e')) by (apply Z.pow_pos_nonneg; lia).
    assert (Hd : 2 ^ (d2 - 1) * 2 ^ (G - e') <= m2 * 2 ^ (G - e'))
      by (apply Z.mul_le_mono_nonneg_r; lia).
    lia. }
  pose proof (Zdigits2_le (m1 * 2 ^ s / m2) (G - e') Hq0 ltac:(lia) Hq).
  lia.
Qed.

(** A quotient of at least 1 has magnitude at least 1. *)
Lemma SFdiv_core_lower (m1 e1 m2 e2 : Z) :
  0 < m1 -> 0 < m2 -> e2 <= e1 -> m2 <= m1 * 2 ^ (e1 - e2) ->
  let '(q, e', _) := SFdiv_core_binary prec emax m1 e1 m2 e2 in
  0 < q /\ 1 <= Zdigits2 q + e'.
Proof.
  intros H1 H2 He Hle.
  destruct (SFdiv_core_binary_spec m1 e1 m2 e2 H1 H2) as [l ->].
  set (d1 := Zdigits2 m1) in *. set (d2 := Zdigits2 m2) in *.
  set (e' := Z.min (fexp64 (d1 + e1 - (d2 + e2))) (e1 - e2)).
  set (s := e1 - e2 - e').
  assert (0 <= s) by (unfold s, e'; lia).
  assert (0 < 2 ^ s) by (apply Z.pow_pos_nonneg; lia).
  destruct (Z_le_gt_dec e' 0) as [Hneg|Hpos].
  - assert (Hq : 2 ^ (- e') <= m1 * 2 ^ s / m2).
    { apply Z.div_le_lower_bound; [done|].
      replace s with (e1 - e2 + - e') by (unfold s; lia).
      rewrite Z.pow_add_r by lia.
      assert (0 < 2 ^ (- e')) by (apply Z.pow_pos_nonneg; lia). nia. }
    assert (0 < 2 ^ (- e')) by (apply Z.pow_pos_nonneg; lia).
    split; [lia|].
    pose proof (Zdigits2_ge (m1 * 2 ^ s / m2) (- e') ltac:(lia) Hq). lia.
  - assert (Hq : 2 ^ 0 <= m1 * 2 ^ s / m2).
    { apply Z.div_le_lower_bound; [done|].
      destruct (Zdigits2_bounds m1 H1) as [Hlo1 _]. fold d1 in Hlo1.
      destruct (Zdigits2_bounds m2 H2) as [_ Hhi2]. fold d2 in Hhi2.
      assert (Ha : d2 <= d1 - 1 + s) by (unfold s, e', fexp64 in *; lia).
      assert (Hb : 2 ^ d2 <= 2 ^ (d1 - 1 + s)).
      { apply Z.pow_le_mono_r; [lia|done]. }
      assert (Hd1 : 1 <= d1) by (apply (Zdigits2_pos m1 H1)).
      rewrite (Z.pow_add_r 2 (d1 - 1) s) in Hb by lia.
      assert (Hc : 2 ^ (d1 - 1) * 2 ^ s <= m1 * 2 ^ s)
        by (apply Z.mul_le_mono_nonneg_r; lia).
      change (2 ^ 0) with 1. lia. }
    change (2 ^ 0) with 1 in Hq. split; [lia|].
    pose proof (Zdigits2_ge (m1 * 2 ^ s / m2) 0 ltac:(lia) Hq). lia.
Qed.

(** A number above zero is a positive finite number or +infinity. *)
Lemma positive_number (t : number) :
  (0 <? t)%float = true ->
  Prim2SF t = S754_infinity false \/
  exists m e, Prim2SF t = S754_finite false m e.
Proof.
  rewrite FloatAxioms.ltb_spec. unfold SFltb.
  change (Prim2SF 0) with (S754_zero false).
  destruct (Prim2SF t) as [s|s| |s m e]; cbn [SFcompare]; try done;
    destruct s; try done; eauto.
Qed.

(** The mantissa of a number has at most 53 digits, and exactly 53 above
    the least exponent. *)
Lemma valid_mantissa (x : number) (s : bool) (m : positive) (e : Z) :
  Prim2SF x = S754_finite s m e ->
  -1074 <= e /\ Z.pos (digits2_pos m) <= 53 /\
  (-1074 < e -> Z.pos (digits2_pos m) = 53).
Proof.
  intros Hx. pose proof (Prim2SF_valid x) as Hv. rewrite Hx in Hv.
  unfold SpecFloat.valid_binary, bounded, canonical_mantissa in Hv.
  apply andb_prop in Hv as [Hc _]. apply Z.eqb_eq in Hc.
  rewrite fexp_eq in Hc. unfold fexp64 in Hc. lia.
Qed.

(** The order of two positive finite numbers, on their mantissas. *)
Lemma leb_finite (t r : number) (mt : positive) (et : Z) :
  Prim2SF t = S754_finite false mt et ->
  (t <=? r)%float = true ->
  Prim2SF r = S754_infinity false \/
  exists mr er,
    Prim2SF r = S754_finite false mr er /\
    et <= er /\ Z.pos mt <= Z.pos mr * 2 ^ (er - et).
Proof.
  intros Ht. rewrite FloatAxioms.leb_spec, Ht. unfold SFleb.
  destruct (Prim2SF r) as [s|s| |s mr er] eqn:Hr; cbn [SFcompare];
    try done; destruct s; try done; eauto.
  intros Hcmp. right. exists mr, er. split; [done|].
  destruct (valid_mantissa t false mt et Ht) as (Het & Hdt & _).
  destruct (valid_mantissa r false mr er Hr) as (Her & Hdr & Hnr).
  destruct (digits2_pos_bounds mt) as [_ Hmt].
  destruct (digits2_pos_bounds mr) as [Hmr _].
  destruct (et ?= er) eqn:E.
  - apply Z.compare_eq in E. subst er. rewrite Z.sub_diag.
    split; [lia|]. change (2 ^ 0) with 1.
    destruct (Pos.compare_cont Eq mt mr) eqn:Em; try done.
    + apply Pos.compare_eq in Em. subst. lia.
    + change (Pos.compare_cont Eq mt mr) with (mt ?= mr)%positive in Em.
      assert (mt < mr)%positive as Hlt by exact Em. lia.
  - assert (et < er) as Hlt by exact E. split; [lia|].
    rewrite (Hnr ltac:(lia)) in Hmr.
    assert (2 ^ Z.pos (digits2_pos mt) <= 2 ^ 53)
      by (apply Z.pow_le_mono_r; lia).
    assert (2 ^ 1 <= 2 ^ (er - et)) by (apply Z.pow_le_mono_r; lia).
    change (2 ^ (53 - 1)) with 4503599627370496 in Hmr.
    change (2 ^ 53) with 9007199254740992 in *.
    change (2 ^ 1) with 2 in *. nia.
  - done.
Qed.

(** Only +infinity is at least +infinity. *)
Lemma leb_infinity (t r : number) :
  Prim2SF t = S754_infinity false -> (t <=? r)%float = true ->
  Prim2SF r = S754_infinity false.
Proof.
  intros Ht. rewrite FloatAxioms.leb_spec, Ht. unfold SFleb.
  destruct (Prim2SF r) as [s|s| |s m e]; cbn [SFcompare]; try done;
    destruct s; done.
Qed.

(** The ratio of a rate to a positive rate that is not above it is NaN
    (both infinite), +infinity, or a finite number of magnitude at least 1. *)
Lemma ratio_at_least_one (r t : number) :
  (0 <? t)%float = true -> (t <=? r)%float = true ->
  match Prim2SF (r / t) with
  | S754_nan => True
  | S754_infinity s => s = false
  | S754_finite s m e => s = false /\ 1 <= Z.pos (digits2_pos m) + e
  | S754_zero _ => False
  end.
Proof.
  intros Hpos Hle. rewrite div_spec. unfold SF64div.
  destruct (positive_number t Hpos) as [Ht|(mt & et & Ht)].
  - rewrite (leb_infinity t r Ht Hle), Ht. exact I.
  - destruct (leb_finite t r mt et Ht Hle)
      as [Hr|(mr & er & Hr & He & Hm)]; rewrite Hr, Ht; [reflexivity|].
    cbn [SFdiv xorb].
    pose proof (SFdiv_core_lower (Z.pos mr) er (Z.pos mt) et
                  ltac:(lia) ltac:(lia) He Hm) as Hcore.
    destruct (SFdiv_core_binary prec emax (Z.pos mr) er (Z.pos mt) et)
      as [[mz ez] lz].
    destruct Hcore as [Hmz Hmag].
    pose proof (round_lower false mz ez lz 1 Hmz Hmag ltac:(lia)) as Hround.
    destruct (binary_round_aux prec emax false mz ez lz); done.
Qed.

(** The number of samples before it is rounded down: NaN, a zero, or a
    positive number below 2^33. *)
Lemma quotient_small (len : nat) (q : number) :
  Z.of_nat len < 2 ^ 32 ->
  match Prim2SF q with
  | S754_nan => True
  | S754_infinity s => s = false
  | S754_finite s m e => s = false /\ 1 <= Z.pos (digits2_pos m) + e
  | S754_zero _ => False
  end ->
  match Prim2SF (of_nat len / q) with
  | S754_nan | S754_zero _ => True
  | S754_finite s m e => s = false /\ e <= 33 /\ Z.pos m <= 2 ^ (33 - e)
  | S754_infinity _ => False
  end.
Proof.
  intros Hlen Hq. rewrite div_spec. unfold SF64div, of_nat.
  pose proof (of_Z_upper (Z.of_nat len) 32 ltac:(lia) ltac:(lia)) as Hx.
  destruct (Prim2SF (of_Z (Z.of_nat len))) as [sx|sx| |sx mx ex];
    [| done | done |].
  - destruct (Prim2SF q) as [s|s| |s m e]; cbn [SFdiv]; done.
  - destruct Hx as (-> & Hex & Hmx).
    destruct (Prim2SF q) as [s|s| |s mq eq]; cbn [SFdiv]; try done.
    destruct Hq as [-> Hmag]. cbn [xorb].
    assert (Hdx : Z.pos (digits2_pos mx) <= 32 - ex + 1).
    { apply (Zdigits2_le (Z.pos mx) (32 - ex + 1)); [lia|lia|].
      rewrite Z.pow_add_r, Z.pow_1_r by lia. lia. }
    pose proof (SFdiv_core_upper (Z.pos mx) ex (Z.pos mq) eq 33
                  ltac:(lia) ltac:(lia)) as Hcore.
    cbn [Zdigits2] in Hcore. specialize (Hcore ltac:(lia) ltac:(lia)).
    destruct (SFdiv_core_binary prec emax (Z.pos mx) ex (Z.pos mq) eq)
      as [[mz ez] lz].
    destruct Hcore as [Hmz Hmag'].
    pose proof (round_upper false mz ez lz 33 Hmz Hmag' ltac:(lia)) as Hr.
    destruct (binary_round_aux prec emax false mz ez lz); done.
Qed.

(** Such a number, rounded down, is an array length. *)
Lemma floor_is_length (w : number) :
  match Prim2SF w with
  | S754_nan | S754_zero _ => True
  | S754_finite s m e => s = false /\ e <= 33 /\ Z.pos m <= 2 ^ (33 - e)
  | S754_infinity _ => False
  end ->
  exists n, ToIndex (Math_floor w) = Some n.
Proof.
  intros Hw. unfold Math_floor, floorZ.
  destruct (Prim2SF w) as [s|s| |s m e] eqn:E; [| done | |].
  - exists 0%nat. unfold ToIndex, truncZ. rewrite E. reflexivity.
  - exists 0%nat. unfold ToIndex. rewrite E. reflexivity.
  - destruct Hw as (-> & He & Hm). cbn [signed].
    destruct (0 <=? e) eqn:Ee0.
    { apply Z.leb_le in Ee0.
      assert (H2 : 0 < 2 ^ e) by (apply Z.pow_pos_nonneg; lia).
      assert (Hz : 0 <= Z.pos m * 2 ^ e <= 2 ^ 33).
      { split; [lia|].
        replace 33 with (33 - e + e) at 1 by lia.
        rewrite Z.pow_add_r by lia.
        apply Z.mul_le_mono_nonneg_r; lia. }
      change (2 ^ 33) with 8589934592 in Hz.
      exists (Z.to_nat (Z.pos m * 2 ^ e)).
      unfold ToIndex, truncZ. rewrite E. cbn [signed].
      rewrite (proj2 (Z.leb_le 0 e)) by done.
      assert (Hc : (0 <=? Z.pos m * 2 ^ e)
                   && (Z.pos m * 2 ^ e <=? 2 ^ 53 - 1) = true).
      { apply andb_true_intro. split; apply Z.leb_le;
          [lia|change (2 ^ 53 - 1) with 9007199254740991; lia]. }
      by rewrite Hc. }
    set (z := Z.shiftr (Z.pos m) (- e)).
    assert (Hz : 0 <= z <= 2 ^ 33).
    { unfold z. apply Z.leb_gt in Ee0. split; [apply Z.shiftr_nonneg; lia|].
      replace 33 with (33 - e - (- e)) at 1 by lia.
      apply shiftr_le_pow2; lia. }
    change (2 ^ 33) with 8589934592 in Hz.
    pose proof (of_Z_upper z 34 ltac:(change (2 ^ 34) with 17179869184; lia)
                  ltac:(lia)) as Hf.
    unfold ToIndex, truncZ.
    destruct (Prim2SF (of_Z z)) as [s'|s'| |s' m' e']; [| done | done |].
    + exists 0%nat. reflexivity.
    + destruct Hf as (-> & He' & Hm'). cbn [signed].
      set (z' := if 0 <=? e' then Z.pos m' * 2 ^ e'
                 else Z.quot (Z.pos m') (2 ^ (- e'))).
      assert (Hz' : 0 <= z' <= 2 ^ 34).
      { unfold z'. destruct (0 <=? e') eqn:Ee.
        - apply Z.leb_le in Ee.
          assert (0 < 2 ^ e') by (apply Z.pow_pos_nonneg; lia).
          split; [lia|].
          replace 34 with (34 - e' + e') at 1 by lia.
          rewrite Z.pow_add_r by lia.
          apply Z.mul_le_mono_nonneg_r; lia.
        - apply Z.leb_gt in Ee.
          assert (0 < 2 ^ (- e')) by (apply Z.pow_pos_nonneg; lia).
          rewrite Z.quot_div_nonneg by lia.
          rewrite <- Z.shiftr_div_pow2 by lia.
          split; [apply Z.shiftr_nonneg; lia|].
          replace 34 with (34 - e' - (- e')) at 1 by lia.
          apply shiftr_le_pow2; lia. }
      change (2 ^ 34) with 17179869184 in Hz'.
      exists (Z.to_nat z').
      assert (Hc : (0 <=? z') && (z' <=? 2 ^ 53 - 1) = true).
      { apply andb_true_intro. split; apply Z.leb_le;
          [lia|change (2 ^ 53 - 1) with 9007199254740991; lia]. }
      by rewrite Hc.
Qed.

(** The length computed by [resampleLinear] is an array length whenever
    the native rate is at least the positive target rate. *)
Lemma resample_length_valid (len : nat) (r t : number) :
  Z.of_nat len < 2 ^ 32 ->
  (0 <? t)%float = true -> (t <=? r)%float = true ->
  exists n, ToIndex (resample_length len r t) = Some n.
Proof.
  intros Hlen Hpos Hle. unfold resample_length.
  apply floor_is_length, quotient_small; [done|].
  by apply ratio_at_least_one.
Qed.

End Rounding.

(** ** Exact rounding and the range of quantized samples *)

Section Exact.

Lemma shr_1_exact (mrs : shr_record) :
  0 <= shr_m mrs -> exact_record mrs = true -> Z.even (shr_m mrs) = true ->
  exact_record (shr_1 mrs) = true.
Proof.
  destruct mrs as [m [] []]; cbn [shr_m exact_record shr_r shr_s negb andb];
    try done.
  intros Hm _ He. destruct m as [|[p|p|]|p]; try done.
Qed.

Lemma even_of_mod_pow2 (m n : Z) : 0 < n -> m mod 2 ^ n = 0 -> Z.even m = true.
Proof.
  intros Hn Hm. rewrite Zeven_mod. apply Z.eqb_eq.
  apply Z.mod_divide; [lia|]. apply Z.mod_divide in Hm;
    [|apply Z.pow_nonzero; lia].
  destruct Hm as [k ->]. exists (k * 2 ^ (n - 1)).
  replace n with (1 + (n - 1)) at 1 by lia.
  rewrite Z.pow_add_r by lia. change (2 ^ 1) with 2. lia.
Qed.

Lemma shiftr_mod_pow2 (m a b : Z) :
  0 <= a -> 0 <= b -> m mod 2 ^ (a + b) = 0 -> Z.shiftr m a mod 2 ^ b = 0.
Proof.
  intros Ha Hb Hm. apply Z.mod_divide in Hm; [|apply Z.pow_nonzero; lia].
  destruct Hm as [k ->]. rewrite Z.shiftr_div_pow2 by lia.
  rewrite Z.pow_add_r, (Z.mul_comm (2 ^ a)), Z.mul_assoc by lia.
  rewrite Z.div_mul by (apply Z.pow_nonzero; lia).
  apply Z.mod_mul. apply Z.pow_nonzero; lia.
Qed.

Lemma mod_pow2_le (m a b : Z) :
  0 <= a <= b -> m mod 2 ^ b = 0 -> m mod 2 ^ a = 0.
Proof.
  intros Hab Hm. apply Z.mod_divide in Hm; [|apply Z.pow_nonzero; lia].
  destruct Hm as [k ->]. replace b with (b - a + a) by lia.
  rewrite Z.pow_add_r, Z.mul_assoc by lia.
  apply Z.mod_mul. apply Z.pow_nonzero; lia.
Qed.

Lemma iter_shr_1_exact (n : positive) : forall mrs : shr_record,
  0 <= shr_m mrs -> exact_record mrs = true ->
  shr_m mrs mod 2 ^ Z.pos n = 0 ->
  exact_record (SpecFloat.iter_pos shr_1 n mrs) = true.
Proof.
  induction n as [n IH|n IH|]; intros mrs Hm Hx Hmod;
    cbn [SpecFloat.iter_pos].
  - assert (H1 : exact_record (shr_1 mrs) = true).
    { apply shr_1_exact; [done|done|].
      apply (even_of_mod_pow2 _ (Z.pos n~1)); [lia|done]. }
    assert (H1m : 0 <= shr_m (shr_1 mrs))
      by (rewrite shr_1_m by done; apply Z.div_pos; lia).
    assert (E1 : shr_m (shr_1 mrs) = Z.shiftr (shr_m mrs) 1)
      by (rewrite shr_1_m by done; by rewrite (Z.shiftr_div_pow2 _ 1) by lia).
    assert (H2 : exact_record (SpecFloat.iter_pos shr_1 n (shr_1 mrs)) = true).
    { apply IH; [done|done|]. rewrite E1.
      apply (mod_pow2_le _ _ (Z.pos n + Z.pos n)); [lia|].
      apply shiftr_mod_pow2; [lia|lia|].
      by replace (1 + (Z.pos n + Z.pos n)) with (Z.pos n~1) by lia. }
    apply IH; [rewrite iter_shr_1_m by done; by apply Z.shiftr_nonneg|done|].
    rewrite iter_shr_1_m, E1, Z.shiftr_shiftr by lia.
    apply shiftr_mod_pow2; [lia|lia|].
    by replace (1 + Z.pos n + Z.pos n) with (Z.pos n~1) by lia.
  - assert (H2 : exact_record (SpecFloat.iter_pos shr_1 n mrs) = true).
    { apply IH; [done|done|].
      apply (mod_pow2_le _ _ (Z.pos n~0)); [lia|done]. }
    apply IH; [rewrite iter_shr_1_m by done; by apply Z.shiftr_nonneg|done|].
    rewrite iter_shr_1_m by done.
    apply shiftr_mod_pow2; [lia|lia|].
    by replace (Z.pos n + Z.pos n) with (Z.pos n~0) by lia.
  - apply shr_1_exact; [done|done|].
    apply (even_of_mod_pow2 _ 1); [lia|done].
Qed.

Lemma Zdigits2_shiftr (m k : Z) :
  0 < m -> 0 <= k < Zdigits2 m -> Zdigits2 (Z.shiftr m k) = Zdigits2 m - k.
Proof.
  intros Hm Hk. destruct (Zdigits2_bounds m Hm) as [Hlo Hhi].
  assert (H1 : 2 ^ (Zdigits2 m - 1 - k) <= Z.shiftr m k)
    by (apply shiftr_ge_pow2; lia).
  assert (H2 : Z.shiftr m k < 2 ^ (Zdigits2 m - k))
    by (apply shiftr_lt_pow2; lia).
  assert (0 < 2 ^ (Zdigits2 m - 1 - k)) by (apply Z.pow_pos_nonneg; lia).
  pose proof (Zdigits2_le (Z.shiftr m k) (Zdigits2 m - k)
                ltac:(lia) ltac:(lia) H2).
  pose proof (Zdigits2_ge (Z.shiftr m k) (Zdigits2 m - 1 - k)
                ltac:(lia) H1).
  lia.
Qed.

Lemma shiftr_zero_of_small (m k : Z) :
  0 <= m -> Zdigits2 m <= k -> Z.shiftr m k = 0.
Proof.
  intros Hm Hk. pose proof (Zdigits2_nonneg m).
  rewrite Z.shiftr_div_pow2 by lia. apply Z.div_small. split; [done|].
  destruct (Z.eq_dec m 0) as [->|Hne]; [apply Z.pow_pos_nonneg; lia|].
  destruct (Zdigits2_bounds m ltac:(lia)) as [_ Hhi].
  eapply Z.lt_le_trans; [exact Hhi|]. apply Z.pow_le_mono_r; lia.
Qed.

(** The first shift of [binary_round_aux] loses nothing when the bits
    shifted out are zero. *)
Lemma shr_fexp_exact (m e : Z) :
  0 <= m ->
  m mod 2 ^ (Z.max e (fexp64 (Zdigits2 m + e)) - e) = 0 ->
  loc_of_shr_record (fst (shr_fexp prec emax m e loc_Exact)) = loc_Exact.
Proof.
  intros Hm Hmod. unfold shr_fexp, shr. rewrite fexp_eq.
  destruct (fexp64 (Zdigits2 m + e) - e) as [|p|p] eqn:E; cbn [fst];
    try reflexivity.
  replace (Z.max e (fexp64 (Zdigits2 m + e)) - e) with (Z.pos p) in Hmod
    by lia.
  pose proof (iter_shr_1_exact p (shr_record_of_loc m loc_Exact)
                Hm eq_refl Hmod) as Hx.
  destruct (SpecFloat.iter_pos shr_1 p _) as [m' [] []]; done.
Qed.

(** The steps of [binary_round_aux] on an exactly known number: the
    mantissa is cut at the exponent [e1], goes up by one only if bits were
    lost, and is cut once more if that carried into a new digit. *)
Lemma binary_round_aux_exact (sx : bool) (mx ex : Z) :
  0 <= mx ->
  let e1 := Z.max ex (fexp64 (Zdigits2 mx + ex)) in
  let m1 := Z.shiftr mx (e1 - ex) in
  exists m2 m3 e3,
    (m2 = m1 \/ (m2 = m1 + 1 /\ mx mod 2 ^ (e1 - ex) <> 0)) /\
    e1 <= e3 <= e1 + 1 /\
    m3 * 2 ^ (e3 - e1) = m2 /\
    binary_round_aux prec emax sx mx ex loc_Exact =
      match m3 with
      | Z0 => S754_zero sx
      | Z.pos m => if e3 <=? 971 then S754_finite sx m e3
                   else S754_infinity sx
      | Z.neg _ => S754_nan
      end.
Proof.
  intros Hm e1 m1. unfold binary_round_aux.
  destruct (shr_fexp_spec mx ex loc_Exact Hm) as [He1 Hm1].
  pose proof (shr_fexp_exact mx ex Hm) as Hex. fold e1 in He1, Hm1, Hex.
  destruct (shr_fexp prec emax mx ex loc_Exact) as [mrs1 e1'].
  cbn [fst snd] in *. subst e1'. fold m1 in Hm1.
  set (m2 := round_nearest_even (shr_m mrs1) (loc_of_shr_record mrs1)).
  assert (Hm1' : 0 <= m1) by (apply Z.shiftr_nonneg; lia).
  assert (H2 : m2 = m1 \/ (m2 = m1 + 1 /\ mx mod 2 ^ (e1 - ex) <> 0)).
  { destruct (Z.eq_dec (mx mod 2 ^ (e1 - ex)) 0) as [Hz|Hnz].
    - left. unfold m2. rewrite (Hex Hz), Hm1. reflexivity.
    - pose proof (round_nearest_even_bounds (shr_m mrs1)
                    (loc_of_shr_record mrs1)) as Hb.
      fold m2 in Hb. rewrite Hm1 in Hb.
      destruct (Z.eq_dec m2 m1); [by left|right; split; [lia|done]]. }
  pose proof (Zdigits2_nonneg mx) as Hdx.
  assert (He1lo : -1074 <= e1) by (unfold e1, fexp64; lia).
  (* the magnitude after the first cut *)
  assert (Hfexp1 : 0 < m1 -> fexp64 (Zdigits2 m1 + e1) <= e1).
  { intros Hpos.
    assert (Zdigits2 m1 + e1 = Zdigits2 mx + ex) as ->; [|unfold e1; lia].
    destruct (Z_lt_le_dec (e1 - ex) (Zdigits2 mx)) as [Hlt|Hge].
    - unfold m1. rewrite Zdigits2_shiftr; [lia| |unfold e1; lia].
      destruct (Z.eq_dec mx 0) as [E|E]; [|lia].
      subst mx. unfold m1 in Hpos. rewrite Z.shiftr_0_l in Hpos. lia.
    - unfold m1 in Hpos. rewrite shiftr_zero_of_small in Hpos; lia. }
  clearbody m2 m1 e1.
  assert (Hm2 : 0 <= m2) by (destruct H2 as [->|[-> _]]; lia).
  destruct (shr_fexp_spec m2 e1 loc_Exact Hm2) as [He3 Hm3].
  destruct (shr_fexp prec emax m2 e1 loc_Exact) as [mrs3 e3].
  cbn [fst snd] in *.
  exists m2, (shr_m mrs3), e3. split; [done|].
  rewrite Hm3. clear Hm3 Hex Hm1 mrs1 mrs3.
  (* the second cut is by at most one digit, and then of a power of two *)
  assert (Hcut : e1 <= e3 <= e1 + 1 /\ (e3 = e1 + 1 -> Z.even m2 = true)).
  { destruct (Z.eq_dec m1 0) as [E0|E0].
    - subst m1. assert (Zdigits2 m2 <= 1) as Hd.
      { destruct H2 as [->|[-> _]]; simpl; lia. }
      pose proof (Zdigits2_nonneg m2). unfold fexp64 in He3. lia.
    - specialize (Hfexp1 ltac:(lia)).
      destruct (Zdigits2_bounds m1 ltac:(lia)) as [_ Hhi].
      pose proof (Zdigits2_pos m1 ltac:(lia)) as Hd1.
      assert (Hd2 : Zdigits2 m2 <= Zdigits2 m1 + 1).
      { apply Zdigits2_le; [lia|lia|].
        rewrite Z.pow_add_r, Z.pow_1_r by lia.
        destruct H2 as [->|[-> _]]; lia. }
      split; [unfold fexp64 in *; lia|].
      intros Hcarry.
      assert (Hlt : Zdigits2 m1 < Zdigits2 m2) by (unfold fexp64 in *; lia).
      assert (0 < m2) by (destruct H2 as [->|[-> _]]; lia).
      destruct (Zdigits2_bounds m2 ltac:(lia)) as [Hlo2 _].
      assert (2 ^ Zdigits2 m1 <= 2 ^ (Zdigits2 m2 - 1))
        by (apply Z.pow_le_mono_r; lia).
      assert (Hpow : m2 = 2 ^ Zdigits2 m1)
        by (destruct H2 as [->|[-> _]]; lia).
      rewrite Hpow.
      replace (Zdigits2 m1) with (1 + (Zdigits2 m1 - 1)) by lia.
      rewrite Z.pow_add_r by lia. change (2 ^ 1) with 2.
      by rewrite Z.even_mul. }
  destruct Hcut as [He3' Heven]. split; [done|]. split; [|reflexivity].
  rewrite <- He3. clear He3.
  destruct (Z.eq_dec e3 e1) as [E|Hne].
  - rewrite E, Z.sub_diag, Z.shiftr_0_r. change (2 ^ 0) with 1. lia.
  - assert (e3 = e1 + 1) as E by lia. specialize (Heven E).
    rewrite E. replace (e1 + 1 - e1) with 1 by lia.
    rewrite Z.shiftr_div_pow2 by lia. change (2 ^ 1) with 2.
    apply Zeven_bool_iff, Zeven_div2 in Heven.
    rewrite Z.div2_div in Heven. lia.
Qed.

(** Rounding an exactly known number does not go above a bound that lies
    on the grid of the result. *)
Lemma round_le_grid (sx : bool) (mx ex N eb : Z) :
  0 <= mx ->
  let e1 := Z.max ex (fexp64 (Zdigits2 mx + ex)) in
  e1 <= eb -> e1 + 1 <= 971 -> mx <= N * 2 ^ (eb - ex) ->
  match binary_round_aux prec emax sx mx ex loc_Exact with
  | S754_zero s => s = sx
  | S754_finite s m e =>
      s = sx /\ e1 <= e <= e1 + 1 /\
      Z.pos m * 2 ^ (e - e1) <= N * 2 ^ (eb - e1)
  | _ => False
  end.
Proof.
  intros Hm e1 Heb Hov Hle.
  destruct (binary_round_aux_exact sx mx ex Hm)
    as (m2 & m3 & e3 & H2 & He3 & Hm3 & ->).
  fold e1 in H2, He3, Hm3.
  assert (Hk : 0 <= e1 - ex) by (unfold e1; lia).
  assert (Hp : 0 < 2 ^ (e1 - ex)) by (apply Z.pow_pos_nonneg; lia).
  assert (HN : N * 2 ^ (eb - ex) = N * 2 ^ (eb - e1) * 2 ^ (e1 - ex)).
  { rewrite <- Z.mul_assoc, <- Z.pow_add_r by lia. do 2 f_equal. lia. }
  set (m1 := Z.shiftr mx (e1 - ex)) in H2.
  assert (Hdiv : mx = m1 * 2 ^ (e1 - ex) + mx mod 2 ^ (e1 - ex)).
  { unfold m1. rewrite Z.shiftr_div_pow2 by lia.
    rewrite Z.mul_comm. apply Z.div_mod. lia. }
  pose proof (Z.mod_pos_bound mx (2 ^ (e1 - ex)) Hp) as Hmod.
  assert (Hm2 : m2 <= N * 2 ^ (eb - e1)).
  { destruct H2 as [->|[-> Hnz]]; nia. }
  assert (0 < 2 ^ (e3 - e1)) by (apply Z.pow_pos_nonneg; lia).
  destruct m3 as [|m|m]; [reflexivity| |].
  - rewrite (proj2 (Z.leb_le e3 971)) by lia. split; [done|]. split; lia.
  - assert (0 <= m2).
    { assert (0 <= m1) by (apply Z.shiftr_nonneg; lia).
      destruct H2 as [->|[-> _]]; lia. }
    nia.
Qed.

(** A number between -1 and 1: a zero, or a finite number whose mantissa
    is at most [2 ^ (- e)]. *)
Lemma unit_interval (c : number) :
  (-1 <=? c)%float = true -> (c <=? 1)%float = true ->
  match Prim2SF c with
  | S754_zero _ => True
  | S754_finite s m e => e <= -52 /\ Z.pos m <= 2 ^ (- e)
  | _ => False
  end.
Proof.
  rewrite !FloatAxioms.leb_spec. unfold SFleb.
  change (Prim2SF 1) with (S754_finite false 4503599627370496 (-52)).
  change (Prim2SF (-1)) with (S754_finite true 4503599627370496 (-52)).
  destruct (Prim2SF c) as [s|s| |s m e] eqn:Hc; cbn [SFcompare]; try done.
  - destruct s; done.
  - destruct (valid_mantissa c s m e Hc) as (_ & Hd & _).
    destruct (digits2_pos_bounds m) as [_ Hhi].
    assert (Hsmall : e < -52 -> Z.pos m <= 2 ^ (- e)).
    { intros He.
      assert (2 ^ Z.pos (digits2_pos m) <= 2 ^ (- e))
        by (apply Z.pow_le_mono_r; lia).
      lia. }
    destruct s.
    + intros Hlo _. destruct (-52 ?= e) eqn:E.
      * apply Z.compare_eq in E. subst e. split; [lia|].
        change (2 ^ (- -52)) with 4503599627370496.
        destruct (Pos.compare_cont Eq 4503599627370496 m) eqn:Em;
          try done.
        -- apply Pos.compare_eq in Em. subst m. lia.
        -- assert (Z.pos 4503599627370496 > Z.pos m) as Hlt by exact Em.
           clear Em. lia.
      * done.
      * assert (-52 > e) as Hgt by exact E. split; [lia|]. apply Hsmall. lia.
    + intros _ Hhi'. destruct (e ?= -52) eqn:E.
      * apply Z.compare_eq in E. subst e. split; [lia|].
        change (2 ^ (- -52)) with 4503599627370496.
        destruct (Pos.compare_cont Eq m 4503599627370496) eqn:Em;
          try done.
        -- apply Pos.compare_eq in Em. subst m. lia.
        -- assert (Z.pos m < Z.pos 4503599627370496) as Hlt by exact Em.
           clear Em. lia.
      * assert (e < -52) as Hlt by exact E. split; [lia|]. by apply Hsmall.
      * done.
Qed.

(** The integer part of a rounded product that is at most [N] in
    absolute value. *)
Lemma truncZ_product (p : number) (sx : bool) (mx ex N : Z) :
  0 <= mx -> ex <= -2 -> 0 <= N -> mx <= N * 2 ^ (- ex) ->
  Zdigits2 mx + ex <= 51 ->
  Prim2SF p = binary_round_aux prec emax sx mx ex loc_Exact ->
  exists z, truncZ p = Some z /\
            (if sx then - N <= z <= 0 else 0 <= z <= N).
Proof.
  intros Hm Hex HN Hle Hmag Hp. unfold truncZ. rewrite Hp.
  set (e1 := Z.max ex (fexp64 (Zdigits2 mx + ex))).
  assert (He1 : ex <= e1 <= -2) by (unfold e1, fexp64; lia).
  pose proof (round_le_grid sx mx ex N 0 Hm) as H.
  cbv zeta in H. fold e1 in H.
  replace (0 - ex) with (- ex) in H by lia.
  replace (0 - e1) with (- e1) in H by lia.
  specialize (H ltac:(lia) ltac:(lia) Hle).
  destruct (binary_round_aux prec emax sx mx ex loc_Exact)
    as [s|s| |s m e]; try done.
  - exists 0. split; [done|]. destruct sx; lia.
  - destruct H as (-> & He & Hb).
    assert (Hpe : 0 < 2 ^ (e - e1)) by (apply Z.pow_pos_nonneg; lia).
    assert (Hpn : 0 < 2 ^ (- e)) by (apply Z.pow_pos_nonneg; lia).
    assert (Hq : 0 <= Z.pos m / 2 ^ (- e) <= N).
    { split; [apply Z.div_pos; lia|].
      apply Z.div_le_upper_bound; [done|].
      assert (E2 : 2 ^ (- e1) = 2 ^ (- e) * 2 ^ (e - e1)).
      { rewrite <- Z.pow_add_r by lia. f_equal. lia. }
      rewrite E2 in Hb. nia. }
    rewrite (proj2 (Z.leb_gt 0 e)) by lia.
    eexists. split; [reflexivity|].
    destruct sx; cbn [signed].
    + change (Z.neg m) with (- Z.pos m).
      rewrite Z.quot_opp_l by lia. rewrite Z.quot_div_nonneg by lia. lia.
    + rewrite Z.quot_div_nonneg by lia. lia.
Qed.

Lemma ToInt16_in_range (p : number) (z : Z) :
  truncZ p = Some z -> -32768 <= z <= 32767 -> ToInt16 p = z.
Proof.
  intros Hp Hz. unfold ToInt16. rewrite Hp.
  destruct (Z_lt_le_dec z 0).
  - assert (z mod 65536 = z + 65536) as ->.
    { symmetry. apply (Z.mod_unique _ _ (-1)); lia. }
    rewrite (proj2 (Z.leb_le 32768 (z + 65536))) by lia. lia.
  - rewrite Z.mod_small by lia.
    rewrite (proj2 (Z.leb_gt 32768 z)) by lia. done.
Qed.

(** The value stored for a sample that is not NaN is the integer part of
    the scaled clamped sample: the conversion to 16 bits never wraps. *)
Lemma quantize_no_wrap (x : number) :
  is_nan x = false ->
  exists z, truncZ (scale (clamp x)) = Some z /\
            -32768 <= z <= 32767 /\ quantize x = z.
Proof.
  intros Hx. destruct (clamp_bounds x Hx) as [Hlo Hhi].
  pose proof (unit_interval (clamp x) Hlo Hhi) as Hc.
  set (c := clamp x) in *.
  assert (Hgoal : exists z, truncZ (scale c) = Some z /\ -32768 <= z <= 32767).
  { unfold scale. rewrite FloatAxioms.ltb_spec. unfold SFltb.
    change (Prim2SF 0) with (S754_zero false).
    destruct (Prim2SF c) as [s|s| |s m e] eqn:Ec; try done.
    - cbn [SFcompare]. exists 0. split; [|lia].
      unfold truncZ. rewrite mul_spec, Ec.
      change (Prim2SF 32767)
        with (S754_finite false 9006924376834048 (-38)).
      reflexivity.
    - destruct Hc as [He Hm].
      assert (Hpe : 0 < 2 ^ (- e)) by (apply Z.pow_pos_nonneg; lia).
      destruct s; cbn [SFcompare].
      + (* negative: scaled by 32768 *)
        destruct (truncZ_product (c * 32768)%float true
                    (Z.pos (m * 4503599627370496)) (e + -37) 32768)
          as (z & Hz & Hr).
        * lia.
        * lia.
        * lia.
        * rewrite Pos2Z.inj_mul.
          replace (- (e + -37)) with (- e + 37) by lia.
          rewrite Z.pow_add_r by lia. change (2 ^ 37) with 137438953472.
          nia.
        * assert (Zdigits2 (Z.pos (m * 4503599627370496)) <= - e + 53)
            as Hd; [|lia].
          apply Zdigits2_le; [lia|lia|].
          rewrite Pos2Z.inj_mul, Z.pow_add_r by lia.
          change (2 ^ 53) with 9007199254740992. nia.
        * rewrite mul_spec, Ec.
          change (Prim2SF 32768)
            with (S754_finite false 4503599627370496 (-37)).
          reflexivity.
        * exists z. split; [done|lia].
      + (* not negative: scaled by 32767 *)
        destruct (truncZ_product (c * 32767)%float false
                    (Z.pos (m * 9006924376834048)) (e + -38) 32767)
          as (z & Hz & Hr).
        * lia.
        * lia.
        * lia.
        * rewrite Pos2Z.inj_mul.
          replace (- (e + -38)) with (- e + 38) by lia.
          rewrite Z.pow_add_r by lia. change (2 ^ 38) with 274877906944.
          nia.
        * assert (Zdigits2 (Z.pos (m * 9006924376834048)) <= - e + 53)
            as Hd; [|lia].
          apply Zdigits2_le; [lia|lia|].
          rewrite Pos2Z.inj_mul, Z.pow_add_r by lia.
          change (2 ^ 53) with 9007199254740992. nia.
        * rewrite mul_spec, Ec.
          change (Prim2SF 32767)
            with (S754_finite false 9006924376834048 (-38)).
          reflexivity.
        * exists z. split; [done|lia]. }
  destruct Hgoal as (z & Hz & Hr). exists z. split; [done|]. split; [done|].
  unfold quantize. fold c. by apply ToInt16_in_range.
Qed.

End Exact.

(** C4: [floatTo16BitPCM] quantizes every sample on its own: the sample is
    clamped to [-1, 1] (below -1 gives -1, above 1 gives 1, anything else is
    kept), a negative clamped value is scaled by 32768 and any other by
    32767, and the result is stored as a signed 16-bit integer.  +1.0 maps
    to 32767, -1.0 to -32768, 0.0 to 0, and every output lies in
    [-32768, 32767]: for a sample that is not NaN the stored value is the
    integer part of the scaled value, with no wrap-around, and NaN is
    stored as 0. *)
Theorem floatTo16BitPCM_quantizes (float32 : list number) :
  floatTo16BitPCM float32 = map quantize float32 /\
  (forall x : number,
      clamp x = (if x <? -1 then -1 else if 1 <? x then 1 else x)%float /\
      (is_nan x || ((-1 <=? clamp x) && (clamp x <=? 1)))%float = true /\
      quantize x =
        ToInt16 (if clamp x <? 0 then clamp x * 32768
                 else clamp x * 32767)%float /\
      -32768 <= quantize x <= 32767 /\
      (if is_nan x then quantize x = 0
       else exists z, truncZ (scale (clamp x)) = Some z /\
                      -32768 <= z <= 32767 /\ quantize x = z)) /\
  quantize 1%float = 32767 /\
  quantize (-1)%float = -32768 /\
  quantize 0%float = 0.
Proof.
  split; [apply floatTo16BitPCM_map|]. split.
  - intros x. split; [apply clamp_eq|]. split; [|split; [|split]].
    + destruct (is_nan x) eqn:Hx; [reflexivity|].
      destruct (clamp_bounds x Hx) as [-> ->]. reflexivity.
    + reflexivity.
    + apply ToInt16_range.
    + destruct (is_nan x) eqn:Hx; [|by apply quantize_no_wrap].
      apply is_nan_eq in Hx. subst x. reflexivity.
  - repeat split; reflexivity.
Qed.

(** ** Resampling *)

(** C9: when the native rate equals the target rate, [resampleLinear]
    returns its input unchanged. *)
Theorem resampleLinear_identity (input : list number) (r t : number) :
  (r =? t)%float = true -> resampleLinear input r t = Some input.
Proof. intros H. unfold resampleLinear. by rewrite H. Qed.

Lemma resampleLinear_identity_witness :
  resampleLinear [0.5; -0.25; 1]%float 16000%float 16000%float
  = Some [0.5; -0.25; 1]%float.
Proof. apply resampleLinear_identity. reflexivity. Defined.

(** The result of [resampleLinear] for unequal rates: a RangeError exactly
    when the computed length is no array length, and otherwise an array
    of that length holding at every index the blend computed by the loop
    body, rounded to single precision by the store. *)
Lemma resampleLinear_unequal (input : list number) (r t : number) :
  (r =? t)%float = false ->
  match ToIndex (resample_length (length input) r t) with
  | None => resampleLinear input r t = None
  | Some n =>
      exists output,
        resampleLinear input r t = Some output /\
        length output = n /\
        forall i, (i < n)%nat ->
          output !! i = Some (fround (resample_sample input (r / t)%float i))
  end.
Proof.
  intros H. unfold resampleLinear, Float32Array_new. rewrite H.
  destruct (ToIndex _) as [n|]; [|done].
  eexists. split; [done|]. rewrite length_replicate. split.
  - by rewrite resample_loop_length, length_replicate.
  - intros i Hi. rewrite resample_loop_lookup by (rewrite length_replicate; lia).
    rewrite bool_decide_eq_true_2 by lia. done.
Qed.

(** C5: for every input block and every native rate that is at least the
    (positive) target rate and not equal to it, [resampleLinear] returns
    exactly [floor (inputLength / (nativeRate / targetRate))] samples, and
    the sample at index [i] is the linear blend of the specification, as
    the [Float32Array] stores it (in single precision). *)
Theorem resampleLinear_blend
  (input : list number) (nativeRate targetRate : number) :
  Z.of_nat (length input) < 2 ^ 32 ->
  (0 <? targetRate)%float = true ->
  (targetRate <=? nativeRate)%float = true ->
  (nativeRate =? targetRate)%float = false ->
  exists n output,
    ToIndex (Math_floor
               (of_nat (length input) / (nativeRate / targetRate))%float)
      = Some n /\
    resampleLinear input nativeRate targetRate = Some output /\
    length output = n /\
    forall i, (i < n)%nat ->
      output !! i =
        Some (fround (linear_blend input nativeRate targetRate i)).
Proof.
  intros Hlen Hpos Hle Hne.
  destruct (resample_length_valid (length input) nativeRate targetRate
              Hlen Hpos Hle) as [n Hn].
  pose proof (resampleLinear_unequal input nativeRate targetRate Hne) as H.
  rewrite Hn in H. destruct H as (output & H1 & H2 & H3).
  exists n, output. done.
Qed.

Lemma resampleLinear_blend_witness :
  exists n output,
    ToIndex (Math_floor (of_nat 7 / (44100 / 16000))%float) = Some n /\
    resampleLinear [1; 2; 3; 4; 5; 6; 7]%float 44100%float 16000%float
      = Some output /\
    length output = n /\
    forall i, (i < n)%nat ->
      output !! i =
        Some (fround (linear_blend [1; 2; 3; 4; 5; 6; 7]%float
                        44100%float 16000%float i)).
Proof.
  apply (resampleLinear_blend [1; 2; 3; 4; 5; 6; 7]%float
           44100%float 16000%float); reflexivity.
Defined.

(** ** The capture callback *)

Section Capture.

Import Audio.

Lemma samplesPerFrame_value : samplesPerFrame = 4000%nat.
Proof. vm_compute. reflexivity. Qed.

Lemma samplesPerFrame_pos : (0 < samplesPerFrame)%nat.
Proof. rewrite samplesPerFrame_value. lia. Qed.

Lemma whole_frames_le (n : nat) :
  (n / samplesPerFrame * samplesPerFrame <= n)%nat.
Proof. rewrite Nat.mul_comm. apply Nat.Div0.mul_div_le. Qed.

Lemma chunks_app (fx1 fx2 : list effect) :
  chunks (fx1 ++ fx2) = chunks fx1 ++ chunks fx2.
Proof. unfold chunks. apply omap_app. Qed.

Lemma chunks_report cb e : chunks (report cb e) = [].
Proof. unfold report. by destruct (has_onError cb). Qed.

Lemma chunks_deliver cb payload : chunks (deliver cb payload) = [payload].
Proof.
  unfold deliver.
  change (CallOnChunk payload :: ?l) with ([CallOnChunk payload] ++ l).
  rewrite chunks_app.
  destruct (onChunk_throws cb payload) as [e|]; [|done].
  rewrite chunks_app, chunks_report. by destruct (report_throws cb e).
Qed.

Lemma chunks_stop st : chunks (snd (stop st)) = [].
Proof.
  unfold stop. cbn [snd].
  destruct (processor st), (sourceNode st), (audioContext st),
    (mediaStream st); reflexivity.
Qed.

Lemma chunks_start_catch cb st e : chunks (snd (start_catch cb st e)) = [].
Proof.
  unfold start_catch. destruct (report_throws cb e) as [e'|].
  - cbn [snd]. by rewrite chunks_app, chunks_report.
  - pose proof (chunks_stop st) as H.
    destruct (stop st) as [st' fx]. cbn [snd] in *.
    by rewrite chunks_app, chunks_report, H.
Qed.

Lemma chunks_start_resume cb env st :
  chunks (snd (start_resume cb env st)) = [].
Proof.
  unfold start_resume. destruct (getUserMedia env) as [e|stream];
    [apply chunks_start_catch|].
  destruct (new_AudioContext env) as [e|ctx];
    [apply chunks_start_catch|done].
Qed.

(** The shape of a pass in which the elapsed-time condition holds. *)
Lemma onaudioprocess_pass cb st input now ctx resampled :
  running st = true ->
  audioContext st = Some ctx ->
  resampleLinear input (sampleRate ctx) TARGET_SAMPLE_RATE
    = Some resampled ->
  elapsed st now = true ->
  let concat := resampleBuffer st ++ resampled in
  let n := (length concat / samplesPerFrame * samplesPerFrame)%nat in
  resampleBuffer (fst (onaudioprocess cb st input now)) = drop n concat /\
  chunks (snd (onaudioprocess cb st input now)) =
    if (0 <? n)%nat
    then [Int16Array_buffer (floatTo16BitPCM (take n concat))]
    else [].
Proof.
  intros Hrun Hctx Hres Hel concat n. unfold onaudioprocess.
  rewrite Hrun, Hctx, Hres, Hel. cbn [negb]. fold concat.
  destruct (0 <? length concat / samplesPerFrame)%nat eqn:E;
    cbn [fst snd resampleBuffer chunks omap].
  - fold n. rewrite chunks_deliver.
    apply Nat.ltb_lt in E.
    assert (0 < n)%nat by (unfold n; pose proof samplesPerFrame_pos; nia).
    split; [done|]. by rewrite (proj2 (Nat.ltb_lt 0 n)).
  - apply Nat.ltb_ge in E. assert (n = 0)%nat as -> by (unfold n; lia).
    split; [by rewrite drop_0|done].
Qed.

(** One call of the handler hands at most one payload to [onChunk]. *)
Lemma onaudioprocess_chunks cb st input now :
  chunks (snd (onaudioprocess cb st input now)) = [] \/
  exists ctx resampled k,
    audioContext st = Some ctx /\
    resampleLinear input (sampleRate ctx) TARGET_SAMPLE_RATE
      = Some resampled /\
    k = (length (resampleBuffer st ++ resampled) / samplesPerFrame)%nat /\
    (0 < k)%nat /\
    chunks (snd (onaudioprocess cb st input now)) =
      [Int16Array_buffer
         (floatTo16BitPCM
            (take (k * samplesPerFrame) (resampleBuffer st ++ resampled)))].
Proof.
  unfold onaudioprocess.
  destruct (running st); cbn [negb]; [|by left].
  destruct (audioContext st) as [ctx|]; [|by left].
  destruct (resampleLinear _ _ _) as [resampled|] eqn:Hres; [|by left].
  destruct (elapsed st now); [|by left].
  destruct (0 <? _)%nat eqn:E; [|by left].
  right.
  exists ctx, resampled,
    (length (resampleBuffer st ++ resampled) / samplesPerFrame)%nat.
  apply Nat.ltb_lt in E. cbn [snd]. rewrite chunks_deliver. done.
Qed.

Lemma payload_length (samples : list number) (k : nat) :
  (k * samplesPerFrame <= length samples)%nat ->
  length (Int16Array_buffer
            (floatTo16BitPCM (take (k * samplesPerFrame) samples)))
  = (k * (samplesPerFrame * 2))%nat.
Proof.
  intros H.
  rewrite Int16Array_buffer_length, floatTo16BitPCM_length, length_take.
  lia.
Qed.

(** Every payload of one step is a positive number of whole frames. *)
Lemma exec_chunks cb s a payload :
  payload ∈ chunks (snd (exec cb s a)) ->
  exists k, (0 < k)%nat /\ length payload = (k * (samplesPerFrame * 2))%nat.
Proof.
  destruct a as [|env| |input now]; unfold exec.
  - destruct (start_call (framer s)); by intros ?%elem_of_nil.
  - destruct (suspended s); [by intros ?%elem_of_nil|].
    pose proof (chunks_start_resume cb env (framer s)) as H.
    destruct (start_resume cb env (framer s)). cbn [snd] in *.
    rewrite H. by intros ?%elem_of_nil.
  - pose proof (chunks_stop (framer s)) as H.
    destruct (stop (framer s)). cbn [snd] in *.
    rewrite H. by intros ?%elem_of_nil.
  - destruct (processor (framer s)); [|by intros ?%elem_of_nil].
    pose proof (onaudioprocess_chunks cb (framer s) input now) as H.
    destruct (onaudioprocess cb (framer s) input now) as [st fx].
    cbn [snd] in *.
    destruct H as [->|(ctx & resampled & k & _ & _ & Hk & Hpos & ->)];
      [by intros ?%elem_of_nil|].
    intros ->%list_elem_of_singleton. exists k. split; [done|].
    apply payload_length. subst k. apply whole_frames_le.
Qed.

End Capture.

(** C1, as the code has it: a call of the capture callback makes at most
    one [onChunk] call, and the payload of that call is the little-endian
    16-bit encoding of all [k >= 1] whole frames that the buffer holds at
    that moment, [k * samplesPerFrame] samples and twice as many bytes,
    every sample a signed 16-bit integer; [k] is the number of whole
    frames among the pending samples, not always 1. *)
Theorem chunk_carries_all_whole_frames
  (cb : Audio.AudioStreamCallbacks) (st : Audio.Framer)
  (input : list number) (now : number) :
  let payloads := Audio.chunks (snd (Audio.onaudioprocess cb st input now)) in
  payloads = [] \/
  exists ctx resampled pcm,
    Audio.audioContext st = Some ctx /\
    resampleLinear input (Audio.sampleRate ctx) TARGET_SAMPLE_RATE
      = Some resampled /\
    let pending := Audio.resampleBuffer st ++ resampled in
    let k := (length pending / Audio.samplesPerFrame)%nat in
    (0 < k)%nat /\
    pcm = map quantize (take (k * Audio.samplesPerFrame) pending) /\
    payloads = [Int16Array_buffer pcm] /\
    length pcm = (k * Audio.samplesPerFrame)%nat /\
    length (Int16Array_buffer pcm) = (k * (Audio.samplesPerFrame * 2))%nat /\
    Forall (fun v => -32768 <= v <= 32767) pcm /\
    Forall (fun b => 0 <= b < 256) (Int16Array_buffer pcm) /\
    forall j v, pcm !! j = Some v ->
      exists lo hi,
        Int16Array_buffer pcm !! (2 * j)%nat = Some lo /\
        Int16Array_buffer pcm !! (2 * j + 1)%nat = Some hi /\
        lo + 256 * hi = v mod 65536.
Proof.
  intros payloads. subst payloads.
  destruct (onaudioprocess_chunks cb st input now)
    as [H|(ctx & resampled & k & Hctx & Hres & Hk & Hpos & H)]; [by left|].
  right. exists ctx, resampled, (floatTo16BitPCM
    (take (k * Audio.samplesPerFrame) (Audio.resampleBuffer st ++ resampled))).
  cbv zeta. rewrite <- Hk.
  pose proof (whole_frames_le (length (Audio.resampleBuffer st ++ resampled)))
    as Hle. rewrite <- Hk in Hle.
  repeat split; try done.
  - apply floatTo16BitPCM_map.
  - rewrite floatTo16BitPCM_length, length_take. lia.
  - by apply payload_length.
  - rewrite floatTo16BitPCM_map. apply Forall_forall.
    intros v (x & -> & _)%list_elem_of_fmap. apply ToInt16_range.
  - apply Int16Array_buffer_bytes.
  - intros j v Hj.
    destruct (Int16Array_buffer_lookup _ j v Hj) as [Hlo Hhi].
    exists ((v mod 65536) mod 256), ((v mod 65536) / 256).
    split; [exact Hlo|]. split; [exact Hhi|].
    pose proof (Z.div_mod (v mod 65536) 256 ltac:(lia)). lia.
Qed.

(** C1 fails as stated: six blocks of silence delivered in a burst after
    the start make a single [onChunk] call whose payload holds two frames
    (16000 bytes), not one. *)
Lemma burst_emits_double_frame :
  map length
    (Audio.chunks
       (snd (Audio.run quiet_callbacks (Audio.mkSystem Audio.init 0) burst)))
  = [(2 * (Audio.samplesPerFrame * 2))%nat] /\
  (2 * (Audio.samplesPerFrame * 2) <> Audio.samplesPerFrame * 2)%nat.
Proof. split; [vm_compute; reflexivity|rewrite samplesPerFrame_value; lia]. Qed.

(** C2: after a pass of the capture callback in which the elapsed-time
    condition holds, fewer than [samplesPerFrame] samples stay pending:
    the oldest samples, as many whole frames as there are, leave the
    buffer in that one pass and are what [onChunk] receives. *)
Theorem emission_pass_drains
  (cb : Audio.AudioStreamCallbacks) (st : Audio.Framer)
  (input : list number) (now : number)
  (ctx : Audio.AudioContext) (resampled : list number) :
  Audio.running st = true ->
  Audio.audioContext st = Some ctx ->
  resampleLinear input (Audio.sampleRate ctx) TARGET_SAMPLE_RATE
    = Some resampled ->
  Audio.elapsed st now = true ->
  let st' := fst (Audio.onaudioprocess cb st input now) in
  let fx := snd (Audio.onaudioprocess cb st input now) in
  (length (Audio.resampleBuffer st') < Audio.samplesPerFrame)%nat /\
  exists emitted,
    emitted ++ Audio.resampleBuffer st' = Audio.resampleBuffer st ++ resampled /\
    length emitted =
      (length (Audio.resampleBuffer st ++ resampled) / Audio.samplesPerFrame
       * Audio.samplesPerFrame)%nat /\
    Audio.chunks fx =
      if (0 <? length emitted)%nat
      then [Int16Array_buffer (floatTo16BitPCM emitted)]
      else [].
Proof.
  intros Hrun Hctx Hres Hel st' fx. subst st' fx.
  destruct (onaudioprocess_pass cb st input now ctx resampled
              Hrun Hctx Hres Hel) as [Hbuf Hfx].
  cbv zeta in Hbuf, Hfx.
  set (concat := Audio.resampleBuffer st ++ resampled) in *.
  set (n := (length concat / Audio.samplesPerFrame
             * Audio.samplesPerFrame)%nat) in *.
  pose proof samplesPerFrame_pos as Hpos.
  pose proof (whole_frames_le (length concat)) as Hle. fold n in Hle.
  assert (Hlen : length (take n concat) = n) by (rewrite length_take; lia).
  rewrite Hbuf. split.
  - rewrite length_drop. unfold n.
    pose proof (Nat.mod_upper_bound (length concat) Audio.samplesPerFrame).
    pose proof (Nat.div_mod_eq (length concat) Audio.samplesPerFrame). lia.
  - exists (take n concat). split; [apply take_drop|]. split; [done|].
    by rewrite Hlen.
Qed.

Lemma emission_pass_drains_witness :
  (length (Audio.resampleBuffer
             (fst (Audio.onaudioprocess quiet_callbacks one_frame_buffered
                     [] 250%float)))
   < Audio.samplesPerFrame)%nat.
Proof.
  refine (proj1 (emission_pass_drains quiet_callbacks one_frame_buffered
                   [] 250%float {| Audio.sampleRate := 48000%float |} []
                   _ _ _ _)); reflexivity.
Defined.

(** C10: in every run of the controller, every payload handed to
    [onChunk] has a byte length that is a positive multiple of
    [samplesPerFrame * 2], which is 8000 bytes. *)
Theorem payload_is_whole_frames
  (cb : Audio.AudioStreamCallbacks) (s : Audio.System)
  (tr : list Audio.step) (payload : list Z) :
  payload ∈ Audio.chunks (snd (Audio.run cb s tr)) ->
  (Audio.samplesPerFrame * 2 = 8000)%nat /\
  exists k, (0 < k)%nat /\
    length payload = (k * (Audio.samplesPerFrame * 2))%nat.
Proof.
  intros H. split; [by rewrite samplesPerFrame_value|].
  revert s H. induction tr as [|a tr IH]; intros s H; simpl in H.
  - by apply elem_of_nil in H.
  - pose proof (exec_chunks cb s a payload) as Ha.
    destruct (Audio.exec cb s a) as [s1 fx1].
    specialize (IH s1). destruct (Audio.run cb s1 tr) as [s2 fx2].
    cbn [snd] in *. rewrite chunks_app in H.
    apply elem_of_app in H as [H|H]; auto.
Qed.

Lemma payload_is_whole_frames_witness :
  exists k, (0 < k)%nat /\
    length (Int16Array_buffer (replicate 4000 0))
    = (k * (Audio.samplesPerFrame * 2))%nat.
Proof.
  refine (proj2 (payload_is_whole_frames quiet_callbacks
                   (Audio.mkSystem one_frame_buffered 0)
                   [Audio.AudioProcess [] 250%float]
                   (Int16Array_buffer (replicate 4000 0)) _)).
  vm_compute. apply list_elem_of_here.
Defined.

(** ** [start()] against [stop()] *)






(** ** The WebSocket client *)

Section Client.

Import WS Run.















(** An admitted sequence leads from a reachable client to a reachable
    client. *)
Lemma admits_reachable cfg tr : forall c h,
  reachable cfg c h -> admits cfg c h tr = true ->
  exists h', reachable cfg (run cfg c tr) h'.
Proof.
  induction tr as [|o tr IH]; intros c h Hreach Htr; [by exists h|].
  cbn [admits] in Htr. apply andb_true_iff in Htr as [Ho Htr].
  unfold run. cbn [foldl]. apply (IH _ (record c h o)); [|done].
  by apply reach_step.
Qed.






End Client.




(** C7: when the connection is not open, [sendAudioChunk] sends nothing,
    calls nothing and leaves the client as it is. *)
Theorem sendAudioChunk_drops (c : WS.Client) (ch : WS.chunk) :
  WS.state c <> WS.Open -> WS.sendAudioChunk c ch = (c, []).
Proof.
  unfold WS.state, WS.sendAudioChunk. destruct (WS.isOpen c); [|done].
  intros H. by destruct H.
Qed.

Lemma sendAudioChunk_drops_witness :
  WS.sendAudioChunk (Run.apply plain_config WS.init Run.Connect)
    (WS.Buffer [1; 2; 3; 4])
  = (Run.apply plain_config WS.init Run.Connect, []).
Proof. apply sendAudioChunk_drops. discriminate. Defined.

(** C3, as the code has it: a text frame reaches the message callback
    exactly when it is a JSON text, whatever its shape; a frame that is
    no JSON text is not delivered and is reported once to the error
    callback when one was supplied, and not at all otherwise; in both
    cases the client, and with it the connection, stays as it is. *)
Theorem onmessage_delivers_json
  (cfg : WS.Config) (c : WS.Client) (s : JSON.jsstring) :
  let r := WS.onmessage cfg c (WS.Text s) in
  fst r = c /\
  match JSON.parse s with
  | Some msg =>
      WS.delivered (snd r) = true /\
      exists rest, snd r = WS.CallOnMessage msg :: rest /\
                   WS.delivered rest = false
  | None =>
      WS.delivered (snd r) = false /\
      snd r = (if WS.has_onError cfg then [WS.CallOnError SyntaxError] else [])
  end.
Proof.
  cbv zeta. unfold WS.onmessage. destruct (JSON.parse s) as [msg|].
  - split; [done|]. split; [done|]. eexists. split; [done|].
    destruct (WS.onMessage_throws cfg msg); [|done].
    unfold WS.report. by destruct (WS.has_onError cfg).
  - split; [done|]. unfold WS.report. by destruct (WS.has_onError cfg).
Qed.

(** C3 fails as stated: a JSON text that is no server message is
    delivered all the same. *)
Lemma bogus_frame_delivered :
  WS.delivered
    (snd (WS.onmessage plain_config WS.init (WS.Text bogus_frame))) = true /\
  option_map WS.is_ServerMessage (JSON.parse bogus_frame) = Some false.
Proof. split; reflexivity. Qed.

(** * Further properties of the code *)

(** ** The capture session *)

Section Stream.

Import Audio.

Lemma Int16Array_buffer_app (a b : list Z) :
  Int16Array_buffer (a ++ b) = Int16Array_buffer a ++ Int16Array_buffer b.
Proof. unfold Int16Array_buffer. apply flat_map_app. Qed.

(** [resampleLinear] throws nothing on a block below 2^32 samples when
    the native rate is at least the target rate. *)
Lemma resampleLinear_total (input : list number) (r : number) :
  Z.of_nat (length input) < 2 ^ 32 ->
  (TARGET_SAMPLE_RATE <=? r)%float = true ->
  exists output, resampleLinear input r TARGET_SAMPLE_RATE = Some output.
Proof.
  intros Hlen Hle.
  destruct (r =? TARGET_SAMPLE_RATE)%float eqn:E.
  - exists input. unfold resampleLinear. by rewrite E.
  - destruct (resample_length_valid (length input) r TARGET_SAMPLE_RATE
                Hlen eq_refl Hle) as [n Hn].
    pose proof (resampleLinear_unequal input r TARGET_SAMPLE_RATE E) as H.
    rewrite Hn in H. destruct H as (output & H & _). by exists output.
Qed.

(** One pass of a running session: the session keeps running on the same
    context, and the pending samples are split into what [onChunk]
    receives and what stays in the buffer. *)
Lemma onaudioprocess_split cb st input now ctx resampled :
  running st = true ->
  audioContext st = Some ctx ->
  resampleLinear input (sampleRate ctx) TARGET_SAMPLE_RATE = Some resampled ->
  let st' := fst (onaudioprocess cb st input now) in
  let fx := snd (onaudioprocess cb st input now) in
  running st' = true /\ processor st' = processor st /\
  audioContext st' = Some ctx /\
  exists emitted,
    emitted ++ resampleBuffer st' = resampleBuffer st ++ resampled /\
    concat (chunks fx) = Int16Array_buffer (map quantize emitted).
Proof.
  intros Hrun Hctx Hres. cbv zeta. unfold onaudioprocess.
  rewrite Hrun, Hctx, Hres. cbn [negb].
  destruct (elapsed st now).
  - destruct (0 <? _)%nat; cbn [fst snd running processor audioContext
                                  resampleBuffer].
    + rewrite chunks_deliver. repeat split; try done.
      eexists. split; [apply take_drop|].
      cbn [concat]. rewrite app_nil_r. by rewrite floatTo16BitPCM_map.
    + repeat split; try done. by exists [].
  - cbn [fst snd running processor audioContext resampleBuffer].
    repeat split; try done. by exists [].
Qed.

(** A run of passes of a running session splits the resampled stream
    into what [onChunk] received, in order, and what is still pending. *)
Lemma run_passes_split
  (cb : AudioStreamCallbacks) (st : Framer)
  (ctx : AudioContext) (blocks : list (list number * number))
  (k : nat) :
  running st = true ->
  processor st = true ->
  audioContext st = Some ctx ->
  (TARGET_SAMPLE_RATE <=? sampleRate ctx)%float = true ->
  Forall (fun b => Z.of_nat (length (fst b)) < 2 ^ 32) blocks ->
  let r := run cb (mkSystem st k) (passes blocks) in
  exists resampled emitted,
    Forall2
      (fun b out =>
         resampleLinear (fst b) (sampleRate ctx) TARGET_SAMPLE_RATE
         = Some out) blocks resampled /\
    emitted ++ resampleBuffer (framer (fst r))
      = resampleBuffer st ++ concat resampled /\
    concat (chunks (snd r)) = Int16Array_buffer (map quantize emitted).
Proof.
  intros Hrun Hproc Hctx Hrate Hblocks. cbv zeta.
  revert st Hrun Hproc Hctx.
  induction Hblocks as [|[input now] blocks Hlen _ IH]; intros st Hrun Hproc Hctx.
  - exists [], []. cbn. rewrite app_nil_r. done.
  - cbn [fst] in Hlen.
    destruct (resampleLinear_total input (sampleRate ctx) Hlen Hrate)
      as [out Hout].
    destruct (onaudioprocess_split cb st input now ctx out Hrun Hctx Hout)
      as (Hrun1 & Hproc1 & Hctx1 & em1 & Hem1 & Hfx1).
    assert (Hexec : exec cb (mkSystem st k)
                      (AudioProcess input now)
                    = (mkSystem
                         (fst (onaudioprocess cb st input now)) k,
                       snd (onaudioprocess cb st input now))).
    { unfold exec. cbn [framer suspended]. rewrite Hproc.
      by destruct (onaudioprocess cb st input now). }
    cbn [passes map fst snd run]. rewrite Hexec. fold (passes blocks).
    destruct (onaudioprocess cb st input now) as [st1 fx1].
    cbn [fst snd] in *. rewrite Hproc in Hproc1.
    destruct (IH st1 Hrun1 Hproc1 Hctx1) as (rs & em & HF & Hem & Hfx).
    destruct (run cb (mkSystem st1 k) (passes blocks)) as [s2 fx2].
    cbn [fst snd] in *.
    exists (out :: rs), (em1 ++ em). split; [by constructor|]. split.
    + cbn [concat]. rewrite <- app_assoc, Hem, !app_assoc, Hem1. done.
    + rewrite chunks_app, concat_app, Hfx1, Hfx, map_app.
      by rewrite Int16Array_buffer_app.
Qed.

End Stream.

(** X1: a run of passes of the capture callback in a running session
    (native rate at least the target rate, blocks below 2^32 samples)
    loses, repeats and reorders nothing: every block is resampled, and
    the resampled stream that follows the samples already pending is
    split into a prefix whose 16-bit encoding is the concatenation of the
    payloads handed to [onChunk], in order, and the rest, which is the
    buffer after the run. *)
Theorem capture_stream_is_conserved
  (cb : Audio.AudioStreamCallbacks) (st : Audio.Framer)
  (ctx : Audio.AudioContext) (blocks : list (list number * number))
  (k : nat) :
  Audio.running st = true ->
  Audio.processor st = true ->
  Audio.audioContext st = Some ctx ->
  (TARGET_SAMPLE_RATE <=? Audio.sampleRate ctx)%float = true ->
  Forall (fun b => Z.of_nat (length (fst b)) < 2 ^ 32) blocks ->
  let r := Audio.run cb (Audio.mkSystem st k) (passes blocks) in
  exists resampled emitted,
    Forall2
      (fun b out =>
         resampleLinear (fst b) (Audio.sampleRate ctx) TARGET_SAMPLE_RATE
         = Some out) blocks resampled /\
    emitted ++ Audio.resampleBuffer (Audio.framer (fst r))
      = Audio.resampleBuffer st ++ concat resampled /\
    concat (Audio.chunks (snd r)) = Int16Array_buffer (map quantize emitted).
Proof.
  intros Hrun Hproc Hctx Hrate Hblocks.
  by apply run_passes_split.
Qed.

Lemma capture_stream_is_conserved_witness :
  let r := Audio.run quiet_callbacks (Audio.mkSystem one_frame_buffered 0)
             (passes [([], 250%float)]) in
  exists resampled emitted,
    Forall2
      (fun b out =>
         resampleLinear (fst b) 48000%float TARGET_SAMPLE_RATE = Some out)
      [([], 250%float)] resampled /\
    emitted ++ Audio.resampleBuffer (Audio.framer (fst r))
      = replicate 4000 0%float ++ concat resampled /\
    concat (Audio.chunks (snd r)) = Int16Array_buffer (map quantize emitted).
Proof.
  apply (capture_stream_is_conserved quiet_callbacks one_frame_buffered
           {| Audio.sampleRate := 48000%float |} [([], 250%float)] 0);
    try reflexivity.
  repeat constructor.
Defined.

Section Session.

Import Audio.

(** A pass moves [lastEmitTime] only when it calls [onChunk], and it
    calls [onChunk] only when the frame duration has elapsed. *)
Lemma onaudioprocess_lastEmitTime cb st input now :
  let st' := fst (onaudioprocess cb st input now) in
  match chunks (snd (onaudioprocess cb st input now)) with
  | [] => lastEmitTime st' = lastEmitTime st
  | _ :: _ => elapsed st now = true /\ lastEmitTime st' = now
  end.
Proof.
  cbv zeta. unfold onaudioprocess.
  destruct (running st); cbn [negb]; [|done].
  destruct (audioContext st) as [ctx|]; [|done].
  destruct (resampleLinear _ _ _) as [resampled|]; [|done].
  destruct (elapsed st now); [|done].
  destruct (0 <? _)%nat; [|done].
  cbn [fst snd]. by rewrite chunks_deliver.
Qed.

Lemma stop_idle st : idle (fst (stop st)) = true.
Proof. reflexivity. Qed.

Lemma idle_spec st :
  idle st = true ->
  exists t, st = mkFramer None None false false false [] t.
Proof.
  unfold idle, released. destruct st as [ms ac p sn r buf t]. cbn.
  destruct r, ms, ac, p, sn, buf; cbn; try discriminate. by exists t.
Qed.

Lemma stop_of_idle st :
  idle st = true -> stop st = (st, []).
Proof. by intros [t ->]%idle_spec. Qed.

Lemma exec_idle cb s a :
  idle (framer s) = true -> is_resume a = false ->
  framer (fst (exec cb s a)) = framer s /\ snd (exec cb s a) = [].
Proof.
  intros Hidle Ha. destruct a as [|env| |input now]; try discriminate.
  - unfold exec. by destruct (start_call (framer s)).
  - unfold exec. by rewrite (stop_of_idle _ Hidle).
  - unfold exec. destruct (idle_spec _ Hidle) as [t Ht].
    rewrite Ht. cbn [processor fst snd]. done.
Qed.

Lemma run_idle cb tr : forall s,
  idle (framer s) = true -> forallb (fun a => negb (is_resume a)) tr = true ->
  framer (fst (run cb s tr)) = framer s /\ snd (run cb s tr) = [].
Proof.
  induction tr as [|a tr IH]; intros s Hidle Htr; [done|].
  cbn [forallb] in Htr. apply andb_true_iff in Htr as [Ha Htr].
  apply negb_true_iff in Ha.
  destruct (exec_idle cb s a Hidle Ha) as [Hf Hfx].
  cbn [run]. destruct (exec cb s a) as [s1 fx1]. cbn [fst snd] in *.
  subst fx1. rewrite <- Hf in Hidle.
  destruct (IH s1 Hidle Htr) as [Hf2 Hfx2].
  destruct (run cb s1 tr) as [s2 fx2]. cbn [fst snd] in *.
  subst. split; [congruence|done].
Qed.

Lemma error_reports_app fx1 fx2 :
  error_reports (fx1 ++ fx2) = error_reports fx1 ++ error_reports fx2.
Proof. unfold error_reports. apply omap_app. Qed.

Lemma error_reports_stop st : error_reports (snd (stop st)) = [].
Proof.
  unfold stop. cbn [snd].
  destruct (processor st), (sourceNode st), (audioContext st),
    (mediaStream st); reflexivity.
Qed.

Lemma error_reports_report cb e :
  error_reports (report cb e) = (if has_onError cb then [e] else []).
Proof. unfold report. by destruct (has_onError cb). Qed.

Lemma report_throws_supplied cb e e' :
  report_throws cb e = Some e' -> has_onError cb = true.
Proof. unfold report_throws. by destruct (has_onError cb). Qed.

(** The [catch] block of [start()] when [onError] returns. *)
Lemma start_catch_returns cb st e :
  report_throws cb e = None ->
  let r := start_catch cb st e in
  idle (fst r) = true /\
  error_reports (snd r) = (if has_onError cb then [e] else []) /\
  forall s, mediaStream st = Some s -> TracksStop s ∈ snd r.
Proof.
  intros Hq. cbv zeta. unfold start_catch. rewrite Hq.
  pose proof (error_reports_stop st) as Herr.
  pose proof (stop_idle st) as Hidle.
  assert (Hs : forall s, mediaStream st = Some s -> TracksStop s ∈ snd (stop st)).
  { intros s Hs. unfold stop. cbn [snd]. rewrite Hs.
    rewrite !elem_of_app. right. right. right. apply list_elem_of_here. }
  destruct (stop st) as [st' fx]. cbn [fst snd] in *.
  split; [done|]. split.
  - by rewrite error_reports_app, Herr, app_nil_r, error_reports_report.
  - intros s H. apply elem_of_app. right. by apply Hs.
Qed.

(** The [catch] block of [start()] when [onError] throws. *)
Lemma start_catch_throws cb st e e' :
  report_throws cb e = Some e' ->
  start_catch cb st e = (st, [CallOnError e; StartRejects e']).
Proof.
  intros Hq. unfold start_catch, report. rewrite Hq.
  by rewrite (report_throws_supplied cb e e' Hq).
Qed.




End Session.

(** X2: in every run of passes, the readings of the clock in the passes
    that call [onChunk] are at least [FRAME_DURATION_MS] apart (as the
    source compares them), the first of them at least that long after
    [lastEmitTime]. *)
Theorem emissions_are_spaced
  (cb : Audio.AudioStreamCallbacks) (st : Audio.Framer)
  (blocks : list (list number * number)) :
  spaced (Audio.lastEmitTime st) (emission_times cb st blocks) = true.
Proof.
  revert st. induction blocks as [|[input now] blocks IH]; intros st; [done|].
  cbn [emission_times].
  pose proof (onaudioprocess_lastEmitTime cb st input now) as H.
  cbv zeta in H.
  destruct (Audio.onaudioprocess cb st input now) as [st' fx].
  cbn [fst snd] in H.
  destruct (Audio.chunks fx).
  - rewrite <- H. apply IH.
  - destruct H as [Hel Ht]. cbn [spaced]. unfold Audio.elapsed in Hel.
    rewrite Hel. cbn [andb]. rewrite <- Ht. apply IH.
Qed.

(** X3: [stop()] flushes nothing and leaves an idle session (not
    running, no capture resource, empty buffer); from then on, until a
    suspended [start()] resumes, no step does anything: audio events are
    ignored, further [stop()] calls release nothing, and the session
    stays as it is. *)
Theorem stopped_session_is_silent
  (cb : Audio.AudioStreamCallbacks) (s : Audio.System)
  (tr : list Audio.step) :
  forallb (fun a => negb (is_resume a)) tr = true ->
  let stopped := Audio.exec cb s Audio.StopCall in
  let r := Audio.run cb (fst stopped) tr in
  idle (Audio.framer (fst stopped)) = true /\
  Audio.chunks (snd stopped) = [] /\
  Audio.framer (fst r) = Audio.framer (fst stopped) /\
  snd r = [].
Proof.
  intros Htr. cbv zeta.
  assert (Hidle : idle (Audio.framer (fst (Audio.exec cb s Audio.StopCall)))
                  = true).
  { unfold Audio.exec. pose proof (stop_idle (Audio.framer s)) as H.
    by destruct (Audio.stop (Audio.framer s)). }
  split; [done|]. split.
  - unfold Audio.exec. pose proof (chunks_stop (Audio.framer s)) as H.
    by destruct (Audio.stop (Audio.framer s)).
  - by apply run_idle.
Qed.

Lemma stopped_session_is_silent_witness :
  snd (Audio.run quiet_callbacks
         (fst (Audio.exec quiet_callbacks
                 (Audio.mkSystem one_frame_buffered 0) Audio.StopCall))
         [Audio.AudioProcess [] 250%float; Audio.StartCall; Audio.StopCall])
  = [].
Proof.
  refine (proj2 (proj2 (proj2
    (stopped_session_is_silent quiet_callbacks
       (Audio.mkSystem one_frame_buffered 0)
       [Audio.AudioProcess [] 250%float; Audio.StartCall; Audio.StopCall]
       _)))).
  reflexivity.
Defined.

(** X5: a [start()] that fails, at [getUserMedia] or at the
    [AudioContext] constructor, reports the error to [onError] exactly
    once when that callback was supplied and calls [onChunk] not at all.
    When [onError] returns, or was not supplied, [stop()] runs: the
    session is left idle and the tracks of the stream it was granted, if
    it was granted one, are stopped.  When [onError] throws, [stop()] is
    skipped: nothing is released, the session keeps its variables as they
    were except that it holds the granted stream, and the promise of
    [start()] is rejected with what [onError] threw. *)
Theorem failed_start_releases
  (cb : Audio.AudioStreamCallbacks) (env : Audio.start_env)
  (st : Audio.Framer) (e : error) :
  start_error env = Some e ->
  let r := Audio.start_resume cb env st in
  error_reports (snd r) = (if Audio.has_onError cb then [e] else []) /\
  Audio.chunks (snd r) = [] /\
  match Audio.report_throws cb e with
  | None =>
      idle (fst r) = true /\
      (forall s, Audio.getUserMedia env = inr s -> Audio.TracksStop s ∈ snd r)
  | Some e' =>
      snd r = [Audio.CallOnError e; Audio.StartRejects e'] /\
      fst r =
        Audio.mkFramer
          (match Audio.getUserMedia env with
           | inr s => Some s
           | inl _ => Audio.mediaStream st
           end)
          (Audio.audioContext st) (Audio.processor st) (Audio.sourceNode st)
          (Audio.running st) (Audio.resampleBuffer st) (Audio.lastEmitTime st)
  end.
Proof.
  intros He. cbv zeta. split; [|split; [apply chunks_start_resume|]].
  - revert He. unfold start_error, Audio.start_resume.
    assert (Hrep : forall st0,
      error_reports (snd (Audio.start_catch cb st0 e))
      = (if Audio.has_onError cb then [e] else [])).
    { intros st0. destruct (Audio.report_throws cb e) as [e'|] eqn:Hq.
      - rewrite (start_catch_throws cb st0 e e' Hq).
        by rewrite (report_throws_supplied cb e e' Hq).
      - apply (start_catch_returns cb st0 e Hq). }
    destruct (Audio.getUserMedia env) as [e1|stream].
    + intros [= ->]. apply Hrep.
    + destruct (Audio.new_AudioContext env) as [e2|ctx]; [|discriminate].
      intros [= ->]. apply Hrep.
  - revert He. unfold start_error, Audio.start_resume.
    destruct (Audio.report_throws cb e) as [e'|] eqn:Hq.
    + destruct (Audio.getUserMedia env) as [e1|stream].
      * intros [= ->]. rewrite (start_catch_throws cb st e e' Hq).
        split; [done|]. by destruct st.
      * destruct (Audio.new_AudioContext env) as [e2|ctx]; [|discriminate].
        intros [= ->]. by rewrite (start_catch_throws cb _ e e' Hq).
    + destruct (Audio.getUserMedia env) as [e1|stream].
      * intros [= ->].
        destruct (start_catch_returns cb st e Hq) as (Hi & _ & _).
        split; [done|]. intros s [=].
      * destruct (Audio.new_AudioContext env) as [e2|ctx]; [|discriminate].
        intros [= ->].
        match goal with |- context [Audio.start_catch cb ?st0 e] =>
          destruct (start_catch_returns cb st0 e Hq) as (Hi & _ & Hs) end.
        split; [done|]. intros s [= <-]. by apply Hs.
Qed.

Lemma failed_start_releases_witness :
  let r := Audio.start_resume throwing_callbacks context_refused Audio.init in
  snd r = [Audio.CallOnError (DOMException 1);
           Audio.StartRejects (Thrown 2)] /\
  Audio.mediaStream (fst r) = Some 7%nat.
Proof.
  pose proof (failed_start_releases throwing_callbacks context_refused
                Audio.init (DOMException 1) eq_refl) as H.
  exact (conj (proj1 (proj2 (proj2 H)))
           (f_equal Audio.mediaStream (proj2 (proj2 (proj2 H))))).
Defined.

(** X4: after [stop()] the controller behaves as a newly created one
    (with as many [start()] calls suspended): every sequence of steps has
    the same effects from the stopped session as from the initial one,
    and leaves [isRecording()] with the same answer. *)
Theorem stop_resets
  (cb : Audio.AudioStreamCallbacks) (s : Audio.System)
  (tr : list Audio.step) :
  let stopped := fst (Audio.exec cb s Audio.StopCall) in
  let fresh := Audio.mkSystem Audio.init (Audio.suspended s) in
  snd (Audio.run cb stopped tr) = snd (Audio.run cb fresh tr) /\
  Audio.isRecording (Audio.framer (fst (Audio.run cb stopped tr)))
  = Audio.isRecording (Audio.framer (fst (Audio.run cb fresh tr))).
Proof.
  cbv zeta.
  (* two sessions that are not running and differ in [lastEmitTime] only *)
  pose (R := fun f1 f2 : Audio.Framer =>
    f1 = f2 \/
    (Audio.running f1 = false /\
     exists t, f2 =
       Audio.mkFramer (Audio.mediaStream f1) (Audio.audioContext f1)
         (Audio.processor f1) (Audio.sourceNode f1) false
         (Audio.resampleBuffer f1) t)).
  assert (H : forall s1 s2,
    Audio.suspended s1 = Audio.suspended s2 ->
    R (Audio.framer s1) (Audio.framer s2) ->
    snd (Audio.run cb s1 tr) = snd (Audio.run cb s2 tr) /\
    Audio.isRecording (Audio.framer (fst (Audio.run cb s1 tr)))
    = Audio.isRecording (Audio.framer (fst (Audio.run cb s2 tr)))).
  { induction tr as [|a tr IH]; intros s1 s2 Hsus Hrel.
    - split; [done|]. cbn [Audio.run fst].
      destruct Hrel as [->|(Hr & t & ->)]; [done|].
      unfold Audio.isRecording. by rewrite Hr.
    - cbn [Audio.run].
      assert (Hstep :
        snd (Audio.exec cb s1 a) = snd (Audio.exec cb s2 a) /\
        Audio.suspended (fst (Audio.exec cb s1 a))
        = Audio.suspended (fst (Audio.exec cb s2 a)) /\
        R (Audio.framer (fst (Audio.exec cb s1 a)))
          (Audio.framer (fst (Audio.exec cb s2 a)))).
      { destruct s1 as [f1 k1], s2 as [f2 k2]. cbn in Hsus. subst k2.
        cbn [Audio.framer] in Hrel.
        destruct Hrel as [->|(Hr & t & ->)].
        - split; [done|]. split; [done|]. by left.
        - destruct f1 as [ms ac p sn r buf t1]. cbn in Hr. subst r.
          cbn [Audio.mediaStream Audio.audioContext Audio.processor
                 Audio.sourceNode Audio.resampleBuffer].
          assert (Hrel : forall ms' ac' p' sn' buf' ta tb,
            R (Audio.mkFramer ms' ac' p' sn' false buf' ta)
              (Audio.mkFramer ms' ac' p' sn' false buf' tb)).
          { intros. right. split; [done|]. by eexists. }
          destruct a as [|env| |input now];
            cbn [Audio.exec Audio.framer Audio.suspended Audio.start_call
                   Audio.running Audio.processor Audio.stop negb fst snd
                   Audio.mediaStream Audio.audioContext Audio.sourceNode
                   Audio.resampleBuffer Audio.lastEmitTime].
          + split; [done|]. split; [done|]. apply Hrel.
          + destruct k1 as [|k]; [by (split; [|split; [|apply Hrel]])|].
            unfold Audio.start_resume, Audio.start_catch.
            cbn [Audio.stop Audio.running Audio.processor
                   Audio.mediaStream Audio.audioContext Audio.sourceNode
                   Audio.resampleBuffer Audio.lastEmitTime].
            destruct (Audio.getUserMedia env) as [e|stream].
            * destruct (Audio.report_throws cb e);
                by (split; [|split; [|apply Hrel]]).
            * destruct (Audio.new_AudioContext env) as [e|ctx].
              -- destruct (Audio.report_throws cb e);
                   by (split; [|split; [|apply Hrel]]).
              -- by (split; [|split; [|left]]).
          + by (split; [|split; [|apply Hrel]]).
          + unfold Audio.onaudioprocess. cbn [Audio.running negb].
            destruct p; by (split; [|split; [|apply Hrel]]). }
      destruct Hstep as (Hfx & Hsus1 & Hrel1).
      destruct (Audio.exec cb s1 a) as [s1' fx1].
      destruct (Audio.exec cb s2 a) as [s2' fx2]. cbn [fst snd] in *.
      subst fx2. destruct (IH s1' s2' Hsus1 Hrel1) as [Hfx' Hrec].
      destruct (Audio.run cb s1' tr) as [s1'' fx1'].
      destruct (Audio.run cb s2' tr) as [s2'' fx2']. cbn [fst snd] in *.
      by subst. }
  apply H.
  - unfold Audio.exec. by destruct (Audio.stop (Audio.framer s)).
  - right. unfold Audio.exec, Audio.stop. cbn [fst Audio.framer].
    split; [done|]. by eexists.
Qed.


Section Callbacks.

Import Audio.

(** One step: the session and the payloads depend on the callbacks
    only through the errors on which [onError] throws. *)
Lemma exec_callbacks cb1 cb2 s a :
  (forall e, onError_escapes cb1 e = onError_escapes cb2 e) ->
  fst (exec cb1 s a) = fst (exec cb2 s a) /\
  chunks (snd (exec cb1 s a)) = chunks (snd (exec cb2 s a)).
Proof.
  intros Hesc. destruct a as [|env| |input now]; unfold exec.
  - by destruct (start_call (framer s)).
  - destruct (suspended s); [done|].
    pose proof (chunks_start_resume cb1 env (framer s)) as H1.
    pose proof (chunks_start_resume cb2 env (framer s)) as H2.
    assert (Hcatch : forall st e,
      fst (start_catch cb1 st e) = fst (start_catch cb2 st e)).
    { intros st e. specialize (Hesc e). unfold onError_escapes in Hesc.
      unfold start_catch.
      by destruct (report_throws cb1 e), (report_throws cb2 e). }
    assert (Hst : fst (start_resume cb1 env (framer s))
                  = fst (start_resume cb2 env (framer s))).
    { unfold start_resume.
      destruct (getUserMedia env); [apply Hcatch|].
      destruct (new_AudioContext env); [apply Hcatch|done]. }
    destruct (start_resume cb1 env (framer s)),
      (start_resume cb2 env (framer s)). cbn [fst snd] in *.
    by rewrite H1, H2, Hst.
  - done.
  - destruct (processor (framer s)); [|done].
    assert (H : fst (onaudioprocess cb1 (framer s) input now)
                = fst (onaudioprocess cb2 (framer s) input now) /\
                chunks (snd (onaudioprocess cb1 (framer s) input now))
                = chunks (snd (onaudioprocess cb2 (framer s) input now))).
    { unfold onaudioprocess.
      destruct (running (framer s)); cbn [negb]; [|done].
      destruct (audioContext (framer s)); [|done].
      destruct (resampleLinear _ _ _); [|done].
      destruct (elapsed (framer s) now); [|done].
      destruct (0 <? _)%nat; [|done].
      cbn [fst snd]. by rewrite !chunks_deliver. }
    destruct H as [Hst Hfx].
    destruct (onaudioprocess cb1 (framer s) input now),
      (onaudioprocess cb2 (framer s) input now). cbn [fst snd] in *.
    by rewrite Hst, Hfx.
Qed.

End Callbacks.

(** X19: the callbacks influence the framer only through the errors on
    which [onError] throws (a throw that makes the [catch] block of
    [start()] skip [stop()]): with two sets of callbacks that agree on
    these, in every run the session ends up in the same state and
    [onChunk] is handed the same payloads in the same order, whether
    [onChunk] throws or not and whether [onError] was supplied or not; a
    payload whose delivery throws is not kept and not delivered again. *)
Theorem callbacks_do_not_interfere
  (cb1 cb2 : Audio.AudioStreamCallbacks) (s : Audio.System)
  (tr : list Audio.step) :
  (forall e, onError_escapes cb1 e = onError_escapes cb2 e) ->
  fst (Audio.run cb1 s tr) = fst (Audio.run cb2 s tr) /\
  Audio.chunks (snd (Audio.run cb1 s tr))
  = Audio.chunks (snd (Audio.run cb2 s tr)).
Proof.
  intros Hesc. revert s. induction tr as [|a tr IH]; intros s; [done|].
  cbn [Audio.run].
  destruct (exec_callbacks cb1 cb2 s a Hesc) as [Hst Hfx].
  destruct (Audio.exec cb1 s a) as [s1 fx1].
  destruct (Audio.exec cb2 s a) as [s2 fx2]. cbn [fst snd] in *.
  subst s2. destruct (IH s1) as [Hst' Hfx'].
  destruct (Audio.run cb1 s1 tr) as [s1' fx1'].
  destruct (Audio.run cb2 s1 tr) as [s2' fx2']. cbn [fst snd] in *.
  split; [done|]. by rewrite !chunks_app, Hfx, Hfx'.
Qed.

Lemma callbacks_do_not_interfere_witness :
  Audio.chunks
    (snd (Audio.run quiet_callbacks (Audio.mkSystem one_frame_buffered 0)
            [Audio.AudioProcess [] 250%float]))
  = Audio.chunks
      (snd (Audio.run deaf_callbacks (Audio.mkSystem one_frame_buffered 0)
              [Audio.AudioProcess [] 250%float])).
Proof.
  refine (proj2
    (callbacks_do_not_interfere quiet_callbacks deaf_callbacks
       (Audio.mkSystem one_frame_buffered 0)
       [Audio.AudioProcess [] 250%float] _)).
  intros e. reflexivity.
Defined.

Section Saturation.

#[local] Open Scope float_scope.

(** A number at or above 1 is neither NaN, nor below -1, nor below 0,
    nor below 1. *)
Lemma at_least_one (x : number) :
  (1 <=? x) = true ->
  is_nan x = false /\ (x <? -1) = false /\ (x <? 0) = false /\
  (x <? 1) = false.
Proof.
  rewrite is_nan_spec, !FloatAxioms.ltb_spec, FloatAxioms.leb_spec.
  unfold SFltb, SFleb.
  rewrite (SFcompare_antisym (Prim2SF 1) (Prim2SF x)).
  change (Prim2SF 1) with (S754_finite false 4503599627370496 (-52)).
  change (Prim2SF (-1)) with (S754_finite true 4503599627370496 (-52)).
  change (Prim2SF 0) with (S754_zero false).
  destruct (Prim2SF x) as [s|s| |s m e]; try destruct s;
    cbv beta iota delta [SFcompare option_map CompOpp]; try discriminate.
  - intros _. split; [discriminate|done].
  - destruct (-52 ?= e)%Z; [|intros _; split; [discriminate|done]|discriminate].
    destruct (Pos.compare_cont Eq 4503599627370496 m);
      [intros _; split; [discriminate|done]
      |intros _; split; [discriminate|done]|discriminate].
Qed.

(** A number at or below -1 is negative and not NaN. *)
Lemma at_most_minus_one (x : number) :
  (x <=? -1) = true ->
  is_nan x = false /\ (1 <? x) = false /\ (x <? 0) = true /\
  (-1 <? x) = false.
Proof.
  rewrite is_nan_spec, !FloatAxioms.ltb_spec, FloatAxioms.leb_spec.
  unfold SFltb, SFleb.
  rewrite (SFcompare_antisym (Prim2SF x) (Prim2SF 1)).
  rewrite (SFcompare_antisym (Prim2SF x) (Prim2SF (-1))).
  change (Prim2SF 1) with (S754_finite false 4503599627370496 (-52)).
  change (Prim2SF (-1)) with (S754_finite true 4503599627370496 (-52)).
  change (Prim2SF 0) with (S754_zero false).
  destruct (Prim2SF x) as [s|s| |s m e]; try destruct s;
    cbv beta iota delta [SFcompare option_map CompOpp]; try discriminate.
  - intros _. split; [discriminate|done].
  - destruct (e ?= -52)%Z; [|discriminate|intros _; split; [discriminate|done]].
    destruct (Pos.compare_cont Eq m 4503599627370496);
      [intros _; split; [discriminate|done]|discriminate
      |intros _; split; [discriminate|done]].
Qed.

Lemma clamp_high (x : number) : (1 <=? x) = true -> clamp x = 1.
Proof.
  intros H. destruct (at_least_one x H) as (Hn & H1 & _ & H2).
  rewrite clamp_eq, H1. destruct (1 <? x) eqn:E; [done|].
  by eapply (compare_eq_finite x 1).
Qed.

Lemma clamp_low (x : number) : (x <=? -1) = true -> clamp x = -1.
Proof.
  intros H. destruct (at_most_minus_one x H) as (Hn & H1 & _ & H2).
  rewrite clamp_eq. destruct (x <? -1) eqn:E; [done|]. rewrite H1.
  by eapply (compare_eq_finite x (-1)).
Qed.

End Saturation.

(** X7: a sample at or above 1 is stored as 32767 and a sample at or
    below -1 as -32768, the infinities included. *)
Theorem quantize_saturates (x : number) :
  ((1 <=? x) || (x <=? -1))%float = true ->
  quantize x = if (x <? 0)%float then -32768 else 32767.
Proof.
  intros H. apply orb_true_iff in H as [H|H].
  - destruct (at_least_one x H) as (_ & _ & -> & _).
    unfold quantize. by rewrite (clamp_high x H).
  - destruct (at_most_minus_one x H) as (_ & _ & -> & _).
    unfold quantize. by rewrite (clamp_low x H).
Qed.

Lemma quantize_saturates_witness :
  quantize infinity = 32767 /\ quantize (-1.5)%float = -32768.
Proof.
  split.
  - apply (quantize_saturates infinity). reflexivity.
  - apply (quantize_saturates (-1.5)%float). reflexivity.
Defined.

Section RoundTrip.

Lemma decode_sample (v : Z) :
  -32768 <= v <= 32767 ->
  (let u := (v mod 65536) mod 256 + 256 * ((v mod 65536) / 256) in
   if 32768 <=? u then u - 65536 else u) = v.
Proof.
  intros Hv. cbv zeta.
  pose proof (Z.div_mod (v mod 65536) 256 ltac:(lia)) as Hd.
  replace ((v mod 65536) mod 256 + 256 * ((v mod 65536) / 256))
    with (v mod 65536) by lia.
  destruct (Z.ltb_spec v 0) as [Hneg|Hpos].
  - replace (v mod 65536) with (v + 65536)
      by (apply Z.mod_unique with (-1); lia).
    destruct (Z.leb_spec 32768 (v + 65536)); lia.
  - rewrite Z.mod_small by lia.
    destruct (Z.leb_spec 32768 v); lia.
Qed.

Lemma decode_pcm16le_buffer (pcm : list Z) :
  Forall (fun v => -32768 <= v <= 32767) pcm ->
  decode_pcm16le (Int16Array_buffer pcm) = pcm.
Proof.
  induction 1 as [|v pcm Hv _ IH]; [done|].
  cbn [Int16Array_buffer flat_map app decode_pcm16le].
  fold (Int16Array_buffer pcm). rewrite IH. f_equal. by apply decode_sample.
Qed.

End RoundTrip.

(** X8: reading a payload back as signed 16-bit little-endian PCM gives
    the quantized samples of the frame, one for each input sample and in
    order. *)
Theorem payload_decodes_to_samples (frame : list number) :
  decode_pcm16le (Int16Array_buffer (floatTo16BitPCM frame))
  = map quantize frame.
Proof.
  rewrite floatTo16BitPCM_map. apply decode_pcm16le_buffer.
  apply Forall_forall. intros v (x & -> & _)%list_elem_of_fmap.
  apply ToInt16_range.
Qed.

Section Empty.

#[local] Open Scope float_scope.

Lemma zero_over (y : number) :
  match Prim2SF (of_nat 0 / y) with
  | S754_zero _ | S754_nan => True
  | _ => False
  end.
Proof.
  rewrite FloatAxioms.div_spec.
  change (Prim2SF (of_nat 0)) with (S754_zero false).
  unfold SF64div, SFdiv. by destruct (Prim2SF y).
Qed.

End Empty.

(** X9: [resampleLinear] returns an empty block for an empty block,
    whatever the two rates are (zero, negative, infinite or NaN
    included): no allocation fails. *)
Theorem resampleLinear_empty (inputRate targetRate : number) :
  resampleLinear [] inputRate targetRate = Some [].
Proof.
  unfold resampleLinear. destruct (inputRate =? targetRate)%float; [done|].
  unfold resample_length, Float32Array_new. cbn [length].
  pose proof (zero_over (inputRate / targetRate)%float) as H.
  set (q := (of_nat 0 / (inputRate / targetRate))%float) in *.
  assert (Hfl : Math_floor q = q).
  { unfold Math_floor. by destruct (Prim2SF q). }
  rewrite Hfl. unfold ToIndex, truncZ.
  destruct (Prim2SF q); try done.
Qed.

(** ** Integers as numbers *)

Section Integers.

(** Rounding a number that needs no rounding: the mantissa is cut at the
    exponent of its last digit and nothing else happens. *)
Lemma binary_round_aux_representable (sx : bool) (mx ex : Z) :
  0 <= mx ->
  let e1 := Z.max ex (fexp64 (Zdigits2 mx + ex)) in
  mx mod 2 ^ (e1 - ex) = 0 ->
  binary_round_aux prec emax sx mx ex loc_Exact =
    match Z.shiftr mx (e1 - ex) with
    | Z0 => S754_zero sx
    | Z.pos m => if e1 <=? 971 then S754_finite sx m e1
                 else S754_infinity sx
    | Z.neg _ => S754_nan
    end.
Proof.
  intros Hm e1 Hmod. unfold binary_round_aux.
  destruct (shr_fexp_spec mx ex loc_Exact Hm) as [He1 Hm1].
  pose proof (shr_fexp_exact mx ex Hm Hmod) as Hex.
  fold e1 in He1, Hm1.
  destruct (shr_fexp prec emax mx ex loc_Exact) as [mrs1 e1'].
  cbn [fst snd] in *. subst e1'. rewrite Hex. cbn [round_nearest_even].
  rewrite Hm1. set (m1 := Z.shiftr mx (e1 - ex)).
  assert (Hm1' : 0 <= m1) by (apply Z.shiftr_nonneg; lia).
  destruct (shr_fexp_spec m1 e1 loc_Exact Hm1') as [He3 Hm3].
  destruct (shr_fexp prec emax m1 e1 loc_Exact) as [mrs3 e3].
  cbn [fst snd] in *.
  assert (He : Z.max e1 (fexp64 (Zdigits2 m1 + e1)) = e1).
  { pose proof (Zdigits2_nonneg mx) as Hdx.
    assert (-1074 <= e1) by (unfold e1, fexp64; lia).
    destruct (Z.eq_dec m1 0) as [E0|E0].
    - rewrite E0. cbn [Zdigits2]. unfold fexp64. lia.
    - assert (Zdigits2 m1 + e1 = Zdigits2 mx + ex) as ->;
        [|unfold e1; unfold fexp64; lia].
      destruct (Z_lt_le_dec (e1 - ex) (Zdigits2 mx)) as [Hlt|Hge].
      + unfold m1. rewrite Zdigits2_shiftr; [lia| |unfold e1; lia].
        destruct (Z.eq_dec mx 0) as [E|E]; [|lia].
        subst mx. unfold m1 in E0. by rewrite Z.shiftr_0_l in E0.
      + unfold m1 in E0. rewrite shiftr_zero_of_small in E0; lia. }
  rewrite He in He3, Hm3. rewrite Z.sub_diag, Z.shiftr_0_r in Hm3.
  rewrite Hm3, He3. reflexivity.
Qed.

(** The mantissa and exponent of the number that is the integer [n]. *)
Lemma of_Z_canonical (n : Z) :
  0 < n < 2 ^ 53 ->
  exists m : positive,
    Z.pos m = n * 2 ^ (53 - Zdigits2 n) /\
    Prim2SF (of_Z n) = S754_finite false m (Zdigits2 n - 53).
Proof.
  intros Hn. unfold of_Z. rewrite (proj2 (Z.ltb_ge n 0)) by lia.
  rewrite of_uint63_spec.
  assert (Hphi : Uint63.to_Z (Uint63.of_Z n) = n).
  { rewrite Uint63.of_Z_spec. apply Z.mod_small.
    change wB with (2 ^ 63). 
    assert (2 ^ 53 < 2 ^ 63) by (apply Z.pow_lt_mono_r; lia). lia. }
  rewrite Hphi. destruct n as [|p|p]; try lia.
  unfold binary_normalize, binary_round.
  rewrite fexp_eq.
  pose proof (Zdigits2_bounds (Z.pos p) ltac:(lia)) as [Hlo Hhi].
  pose proof (Zdigits2_pos (Z.pos p) ltac:(lia)) as Hd1.
  assert (Hd : Zdigits2 (Z.pos p) <= 53)
    by (apply Zdigits2_le; lia).
  change (Z.pos (digits2_pos p)) with (Zdigits2 (Z.pos p)).
  set (d := Zdigits2 (Z.pos p)) in *.
  assert (Hf : fexp64 (d + 0) = d - 53) by (unfold fexp64; lia).
  rewrite Hf. unfold shl_align.
  destruct (d - 53 - 0) as [|q|q] eqn:E.
  - (* 53 digits *)
    assert (d = 53) by lia.
    exists p. split; [replace (53 - d) with 0 by lia; rewrite Z.pow_0_r; lia|].
    assert (He1 : Z.max 0 (fexp64 (Zdigits2 (Z.pos p) + 0)) = 0)
      by (fold d; lia).
    rewrite binary_round_aux_representable;
      [|lia|rewrite He1; apply Z.mod_1_r].
    rewrite He1, Z.shiftr_0_r.
    replace (d - 53) with 0 by lia. reflexivity.
  - lia.
  - (* fewer digits: the mantissa is shifted up *)
    assert (Hq : Z.pos q = 53 - d) by lia.
    change (Pos.iter xO p q) with (shift_pos q p).
    exists (shift_pos q p).
    assert (Hs : Z.pos (shift_pos q p) = Z.pos p * 2 ^ (53 - d)).
    { rewrite shift_pos_correct, Z.pow_pos_fold, Hq. lia. }
    split; [done|].
    assert (Hds : Zdigits2 (Z.pos (shift_pos q p)) = 53).
    { change (Zdigits2 (Z.pos (shift_pos q p)))
        with (Z.pos (digits2_pos (shift_pos q p))).
      unfold shift_pos. rewrite digits2_pos_iter_xO.
      change (Z.pos (digits2_pos p)) with d. lia. }
    assert (He1 : Z.max (d - 53)
                    (fexp64 (Zdigits2 (Z.pos (shift_pos q p)) + (d - 53)))
                  = d - 53)
      by (rewrite Hds; unfold fexp64; lia).
    rewrite binary_round_aux_representable;
      [|lia|rewrite He1, Z.sub_diag; apply Z.mod_1_r].
    rewrite He1, Z.sub_diag, Z.shiftr_0_r.
    rewrite (proj2 (Z.leb_le (d - 53) 971)) by lia. reflexivity.
Qed.

Lemma Zdigits2_mul_pow2 (n k : Z) :
  0 < n -> 0 <= k -> Zdigits2 (n * 2 ^ k) = Zdigits2 n + k.
Proof.
  intros Hn Hk.
  destruct (Zdigits2_bounds n Hn) as [Hlo Hhi].
  pose proof (Zdigits2_pos n Hn) as Hd.
  assert (Hp : 0 < 2 ^ k) by (apply Z.pow_pos_nonneg; lia).
  apply Z.le_antisymm.
  - apply Zdigits2_le; [nia|lia|]. rewrite Z.pow_add_r by lia. nia.
  - replace (Zdigits2 n + k) with (Zdigits2 n - 1 + k + 1) by lia.
    apply Zdigits2_ge; [lia|]. rewrite Z.pow_add_r by lia. nia.
Qed.

Lemma shiftr_mul_pow2 (n a b : Z) :
  0 <= b <= a -> Z.shiftr (n * 2 ^ a) b = n * 2 ^ (a - b).
Proof.
  intros H. rewrite Z.shiftr_div_pow2 by lia.
  replace a with (a - b + b) at 1 by lia.
  rewrite Z.pow_add_r, Z.mul_assoc by lia.
  apply Z.div_mul. apply Z.pow_nonzero; lia.
Qed.

Lemma mod_mul_pow2 (n a b : Z) :
  0 <= b <= a -> (n * 2 ^ a) mod 2 ^ b = 0.
Proof.
  intros H. replace a with (a - b + b) by lia.
  rewrite Z.pow_add_r, Z.mul_assoc by lia. apply Z.mod_mul.
  apply Z.pow_nonzero; lia.
Qed.

(** Rounding the integer [n], given with [k] more digits than it needs
    at the exponent [- k]. *)
Lemma binary_round_aux_integer (sx : bool) (n k : Z) :
  0 < n < 2 ^ 53 -> 53 - Zdigits2 n <= k ->
  binary_round_aux prec emax sx (n * 2 ^ k) (- k) loc_Exact =
    match n * 2 ^ (53 - Zdigits2 n) with
    | Z.pos m => S754_finite sx m (Zdigits2 n - 53)
    | _ => S754_nan
    end.
Proof.
  intros Hn Hk.
  destruct (Zdigits2_bounds n ltac:(lia)) as [Hlo Hhi].
  pose proof (Zdigits2_pos n ltac:(lia)) as Hd1.
  assert (Hd : Zdigits2 n <= 53) by (apply Zdigits2_le; lia).
  assert (Hk0 : 0 <= k) by lia.
  assert (Hdig : Zdigits2 (n * 2 ^ k) = Zdigits2 n + k)
    by (apply Zdigits2_mul_pow2; lia).
  assert (He1 : Z.max (- k) (fexp64 (Zdigits2 (n * 2 ^ k) + - k))
                = Zdigits2 n - 53).
  { rewrite Hdig. unfold fexp64. lia. }
  assert (Hp : 0 < 2 ^ k) by (apply Z.pow_pos_nonneg; lia).
  rewrite binary_round_aux_representable; [|nia|].
  - rewrite He1.
    replace (Zdigits2 n - 53 - - k) with (k - (53 - Zdigits2 n)) by lia.
    rewrite shiftr_mul_pow2 by lia.
    replace (k - (k - (53 - Zdigits2 n))) with (53 - Zdigits2 n) by lia.
    assert (0 < n * 2 ^ (53 - Zdigits2 n)).
    { apply Z.mul_pos_pos; [lia|apply Z.pow_pos_nonneg; lia]. }
    destruct (n * 2 ^ (53 - Zdigits2 n)) as [|m|m]; try lia.
    rewrite (proj2 (Z.leb_le (Zdigits2 n - 53) 971)) by lia. reflexivity.
  - rewrite He1. apply mod_mul_pow2. lia.
Qed.

(** The number that is the integer [n], by its mantissa and exponent. *)
Lemma of_Z_spec (n : Z) :
  0 < n < 2 ^ 53 ->
  Prim2SF (of_Z n) =
    match n * 2 ^ (53 - Zdigits2 n) with
    | Z.pos m => S754_finite false m (Zdigits2 n - 53)
    | _ => S754_nan
    end.
Proof.
  intros Hn. destruct (of_Z_canonical n Hn) as (m & Hm & ->).
  by rewrite <- Hm.
Qed.

Lemma of_Z_0 : Prim2SF (of_Z 0) = S754_zero false.
Proof. reflexivity. Qed.

(** Products of integers are exact. *)
Lemma of_Z_mul (a b : Z) :
  0 <= a < 2 ^ 53 -> 0 <= b < 2 ^ 53 -> a * b < 2 ^ 53 ->
  (of_Z a * of_Z b)%float = of_Z (a * b).
Proof.
  intros Ha Hb Hab. apply Prim2SF_inj. rewrite mul_spec.
  destruct (Z.eq_dec a 0) as [->|Ha0].
  { rewrite Z.mul_0_l, of_Z_0. unfold SF64mul, SFmul.
    destruct (Z.eq_dec b 0) as [->|Hb0]; [by rewrite of_Z_0|].
    destruct (of_Z_canonical b ltac:(lia)) as (mb & _ & ->). done. }
  destruct (Z.eq_dec b 0) as [->|Hb0].
  { rewrite Z.mul_0_r, of_Z_0. unfold SF64mul, SFmul.
    destruct (of_Z_canonical a ltac:(lia)) as (ma & _ & ->). done. }
  destruct (of_Z_canonical a ltac:(lia)) as (ma & Hma & ->).
  destruct (of_Z_canonical b ltac:(lia)) as (mb & Hmb & ->).
  rewrite (of_Z_spec (a * b)) by nia.
  unfold SF64mul, SFmul. cbn [xorb].
  set (da := Zdigits2 a) in *. set (db := Zdigits2 b) in *.
  assert (Hda : 1 <= da <= 53).
  { split; [apply Zdigits2_pos; lia|apply Zdigits2_le; lia]. }
  assert (Hdb : 1 <= db <= 53).
  { split; [apply Zdigits2_pos; lia|apply Zdigits2_le; lia]. }
  assert (Hprod : Z.pos (ma * mb) = a * b * 2 ^ (106 - da - db)).
  { rewrite Pos2Z.inj_mul, Hma, Hmb.
    replace (106 - da - db) with ((53 - da) + (53 - db)) by lia.
    rewrite Z.pow_add_r by lia. ring. }
  rewrite Hprod.
  replace (da - 53 + (db - 53)) with (- (106 - da - db)) by lia.
  apply binary_round_aux_integer; [nia|].
  (* the product has at least [da + db - 1] digits *)
  assert (da + db - 1 <= Zdigits2 (a * b)); [|lia].
  destruct (Zdigits2_bounds a ltac:(lia)) as [Hloa _].
  destruct (Zdigits2_bounds b ltac:(lia)) as [Hlob _].
  fold da in Hloa. fold db in Hlob.
  replace (da + db - 1) with (da - 1 + (db - 1) + 1) by lia.
  apply Zdigits2_ge; [lia|]. rewrite Z.pow_add_r by lia.
  assert (0 < 2 ^ (da - 1)) by (apply Z.pow_pos_nonneg; lia).
  assert (0 < 2 ^ (db - 1)) by (apply Z.pow_pos_nonneg; lia).
  nia.
Qed.

Lemma shl_align_value (mx : positive) (ex ez : Z) :
  ez <= ex ->
  Z.pos (fst (shl_align mx ex ez)) = Z.pos mx * 2 ^ (ex - ez).
Proof.
  intros H. unfold shl_align.
  destruct (ez - ex) as [|d|d] eqn:E; cbn [fst]; try lia.
  - replace (ex - ez) with 0 by lia. rewrite Z.pow_0_r. lia.
  - change (Pos.iter xO mx d) with (shift_pos d mx).
    rewrite shift_pos_correct, Z.pow_pos_fold.
    replace (ex - ez) with (Z.pos d) by lia. lia.
Qed.

(** Normalizing the integer [n], given at the exponent [- k]. *)
Lemma binary_round_integer (sx : bool) (M : positive) (n k : Z) :
  0 < n < 2 ^ 53 -> 0 <= k -> Z.pos M = n * 2 ^ k ->
  binary_round prec emax sx M (- k) =
    match n * 2 ^ (53 - Zdigits2 n) with
    | Z.pos m => S754_finite sx m (Zdigits2 n - 53)
    | _ => S754_nan
    end.
Proof.
  intros Hn Hk HM. unfold binary_round. rewrite fexp_eq.
  change (Z.pos (digits2_pos M)) with (Zdigits2 (Z.pos M)).
  rewrite HM, Zdigits2_mul_pow2 by lia.
  pose proof (Zdigits2_pos n ltac:(lia)) as Hd1.
  assert (Hd : Zdigits2 n <= 53) by (apply Zdigits2_le; lia).
  replace (fexp64 (Zdigits2 n + k + - k)) with (Zdigits2 n - 53)
    by (unfold fexp64; lia).
  pose proof (shl_align_value M (- k) (Zdigits2 n - 53)) as Hv.
  unfold shl_align in *.
  destruct (Zdigits2 n - 53 - - k) as [|d|d] eqn:E; cbn [fst] in Hv.
  - rewrite HM. apply binary_round_aux_integer; lia.
  - rewrite HM. apply binary_round_aux_integer; lia.
  - rewrite Hv by lia. rewrite HM.
    replace (n * 2 ^ k * 2 ^ (- k - (Zdigits2 n - 53)))
      with (n * 2 ^ (53 - Zdigits2 n)).
    + replace (Zdigits2 n - 53) with (- (53 - Zdigits2 n)) at 1 by lia.
      apply binary_round_aux_integer; lia.
    + rewrite <- Z.mul_assoc, <- Z.pow_add_r by lia. do 2 f_equal. lia.
Qed.

(** Sums of integers are exact. *)
Lemma of_Z_add (a b : Z) :
  0 <= a -> 0 <= b -> a + b < 2 ^ 53 ->
  (of_Z a + of_Z b)%float = of_Z (a + b).
Proof.
  intros Ha Hb Hab. apply Prim2SF_inj. rewrite add_spec.
  destruct (Z.eq_dec a 0) as [->|Ha0].
  { rewrite Z.add_0_l, of_Z_0. unfold SF64add, SFadd.
    destruct (Z.eq_dec b 0) as [->|Hb0]; [by rewrite of_Z_0|].
    destruct (of_Z_canonical b ltac:(lia)) as (mb & _ & ->). done. }
  destruct (Z.eq_dec b 0) as [->|Hb0].
  { rewrite Z.add_0_r, of_Z_0. unfold SF64add, SFadd.
    destruct (of_Z_canonical a ltac:(lia)) as (ma & _ & ->). done. }
  destruct (of_Z_canonical a ltac:(lia)) as (ma & Hma & ->).
  destruct (of_Z_canonical b ltac:(lia)) as (mb & Hmb & ->).
  rewrite (of_Z_spec (a + b)) by lia.
  unfold SF64add, SFadd. cbn [cond_Zopp].
  set (da := Zdigits2 a) in *. set (db := Zdigits2 b) in *.
  assert (Hda : 1 <= da <= 53).
  { split; [apply Zdigits2_pos; lia|apply Zdigits2_le; lia]. }
  assert (Hdb : 1 <= db <= 53).
  { split; [apply Zdigits2_pos; lia|apply Zdigits2_le; lia]. }
  set (ez := Z.min (da - 53) (db - 53)).
  rewrite !shl_align_value by lia. rewrite Hma, Hmb.
  assert (Hsum : a * 2 ^ (53 - da) * 2 ^ (da - 53 - ez)
                 + b * 2 ^ (53 - db) * 2 ^ (db - 53 - ez)
                 = (a + b) * 2 ^ (- ez)).
  { rewrite <- !Z.mul_assoc, <- !Z.pow_add_r by lia.
    replace (53 - da + (da - 53 - ez)) with (- ez) by lia.
    replace (53 - db + (db - 53 - ez)) with (- ez) by lia. ring. }
  rewrite Hsum.
  assert (0 < (a + b) * 2 ^ (- ez)).
  { apply Z.mul_pos_pos; [lia|apply Z.pow_pos_nonneg; lia]. }
  unfold binary_normalize.
  destruct ((a + b) * 2 ^ (- ez)) as [|M|M] eqn:EM; try lia.
  replace ez with (- (- ez)) at 1 by lia.
  apply binary_round_integer; lia.
Qed.

(** Differences of integers are exact. *)
Lemma of_Z_sub (a b : Z) :
  0 <= b <= a -> a < 2 ^ 53 ->
  (of_Z a - of_Z b)%float = of_Z (a - b).
Proof.
  intros Hb Ha. apply Prim2SF_inj. rewrite sub_spec.
  destruct (Z.eq_dec b 0) as [->|Hb0].
  { rewrite Z.sub_0_r, of_Z_0. unfold SF64sub, SFsub.
    destruct (Z.eq_dec a 0) as [->|Ha0]; [by rewrite of_Z_0|].
    destruct (of_Z_canonical a ltac:(lia)) as (ma & _ & ->). done. }
  destruct (of_Z_canonical a ltac:(lia)) as (ma & Hma & ->).
  destruct (of_Z_canonical b ltac:(lia)) as (mb & Hmb & ->).
  unfold SF64sub, SFsub. cbn [cond_Zopp].
  set (da := Zdigits2 a) in *. set (db := Zdigits2 b) in *.
  assert (Hda : 1 <= da <= 53).
  { split; [apply Zdigits2_pos; lia|apply Zdigits2_le; lia]. }
  assert (Hdb : 1 <= db <= 53).
  { split; [apply Zdigits2_pos; lia|apply Zdigits2_le; lia]. }
  set (ez := Z.min (da - 53) (db - 53)).
  rewrite !shl_align_value by lia. rewrite Hma, Hmb.
  assert (Hsum : a * 2 ^ (53 - da) * 2 ^ (da - 53 - ez)
                 - b * 2 ^ (53 - db) * 2 ^ (db - 53 - ez)
                 = (a - b) * 2 ^ (- ez)).
  { rewrite <- !Z.mul_assoc, <- !Z.pow_add_r by lia.
    replace (53 - da + (da - 53 - ez)) with (- ez) by lia.
    replace (53 - db + (db - 53 - ez)) with (- ez) by lia. ring. }
  rewrite Hsum.
  destruct (Z.eq_dec a b) as [->|Hne].
  { rewrite Z.sub_diag, Z.mul_0_l. reflexivity. }
  rewrite (of_Z_spec (a - b)) by lia.
  assert (0 < (a - b) * 2 ^ (- ez)).
  { apply Z.mul_pos_pos; [lia|apply Z.pow_pos_nonneg; lia]. }
  unfold binary_normalize.
  destruct ((a - b) * 2 ^ (- ez)) as [|M|M] eqn:EM; try lia.
  replace ez with (- (- ez)) at 1 by lia.
  apply binary_round_integer; lia.
Qed.

End Integers.

Section IntegerOps.

(** Integers compare as numbers the way they compare as integers. *)
Lemma of_Z_compare (a b : Z) :
  0 <= a < 2 ^ 53 -> 0 <= b < 2 ^ 53 ->
  SFcompare (Prim2SF (of_Z a)) (Prim2SF (of_Z b)) = Some (a ?= b).
Proof.
  intros Ha Hb.
  destruct (Z.eq_dec a 0) as [->|Ha0]; destruct (Z.eq_dec b 0) as [->|Hb0].
  - reflexivity.
  - rewrite of_Z_0. destruct (of_Z_canonical b ltac:(lia)) as (mb & _ & ->).
    cbn [SFcompare]. f_equal. symmetry. apply Z.compare_lt_iff. lia.
  - rewrite of_Z_0. destruct (of_Z_canonical a ltac:(lia)) as (ma & _ & ->).
    cbn [SFcompare]. f_equal. symmetry. apply Z.compare_gt_iff. lia.
  - destruct (of_Z_canonical a ltac:(lia)) as (ma & Hma & ->).
    destruct (of_Z_canonical b ltac:(lia)) as (mb & Hmb & ->).
    cbn [SFcompare]. f_equal.
    destruct (Zdigits2_bounds a ltac:(lia)) as [Hloa Hhia].
    destruct (Zdigits2_bounds b ltac:(lia)) as [Hlob Hhib].
    set (da := Zdigits2 a) in *. set (db := Zdigits2 b) in *.
    assert (Hda : 1 <= da <= 53).
    { split; [apply Zdigits2_pos; lia|apply Zdigits2_le; lia]. }
    assert (Hdb : 1 <= db <= 53).
    { split; [apply Zdigits2_pos; lia|apply Zdigits2_le; lia]. }
    destruct (Z.compare_spec (da - 53) (db - 53)) as [E|E|E].
    + assert (da = db) as Hd by lia.
      change (Pos.compare_cont Eq ma mb) with (Z.pos ma ?= Z.pos mb).
      rewrite Hma, Hmb, Hd.
      assert (0 < 2 ^ (53 - db)) by (apply Z.pow_pos_nonneg; lia).
      destruct (Z.compare_spec a b) as [->|Hlt|Hgt].
      * apply Z.compare_refl.
      * apply Z.compare_lt_iff. nia.
      * apply Z.compare_gt_iff. nia.
    + symmetry. apply Z.compare_lt_iff.
      assert (2 ^ da <= 2 ^ (db - 1)) by (apply Z.pow_le_mono_r; lia). lia.
    + symmetry. apply Z.compare_gt_iff.
      assert (2 ^ db <= 2 ^ (da - 1)) by (apply Z.pow_le_mono_r; lia). lia.
Qed.

Lemma of_Z_ltb (a b : Z) :
  0 <= a < 2 ^ 53 -> 0 <= b < 2 ^ 53 ->
  (of_Z a <? of_Z b)%float = (a <? b).
Proof.
  intros Ha Hb. rewrite FloatAxioms.ltb_spec. unfold SFltb.
  rewrite of_Z_compare by done. unfold Z.ltb. by destruct (a ?= b).
Qed.

Lemma of_Z_not_nan (n : Z) : 0 <= n < 2 ^ 53 -> is_nan (of_Z n) = false.
Proof.
  intros Hn. apply is_nan_spec.
  destruct (Z.eq_dec n 0) as [->|Hn0]; [by rewrite of_Z_0|].
  by destruct (of_Z_canonical n ltac:(lia)) as (m & _ & ->).
Qed.

(** The integer part of an integer. *)
Lemma floorZ_of_Z (n : Z) : 0 <= n < 2 ^ 53 -> floorZ (of_Z n) = Some n.
Proof.
  intros Hn. unfold floorZ.
  destruct (Z.eq_dec n 0) as [->|Hn0]; [by rewrite of_Z_0|].
  destruct (of_Z_canonical n ltac:(lia)) as (m & Hm & ->).
  pose proof (Zdigits2_pos n ltac:(lia)) as Hd1.
  assert (Hd : Zdigits2 n <= 53) by (apply Zdigits2_le; lia).
  cbn [signed]. f_equal.
  destruct (Z.leb_spec 0 (Zdigits2 n - 53)) as [H0|H0].
  - replace (Zdigits2 n - 53) with 0 by lia. rewrite Hm.
    replace (53 - Zdigits2 n) with 0 by lia. rewrite Z.pow_0_r. lia.
  - rewrite Hm.
    replace (- (Zdigits2 n - 53)) with (53 - Zdigits2 n) by lia.
    rewrite shiftr_mul_pow2 by lia. rewrite Z.sub_diag, Z.pow_0_r. lia.
Qed.

Lemma truncZ_of_Z (n : Z) : 0 <= n < 2 ^ 53 -> truncZ (of_Z n) = Some n.
Proof.
  intros Hn. unfold truncZ.
  destruct (Z.eq_dec n 0) as [->|Hn0]; [by rewrite of_Z_0|].
  destruct (of_Z_canonical n ltac:(lia)) as (m & Hm & ->).
  pose proof (Zdigits2_pos n ltac:(lia)) as Hd1.
  assert (Hd : Zdigits2 n <= 53) by (apply Zdigits2_le; lia).
  cbn [signed]. f_equal.
  destruct (Z.leb_spec 0 (Zdigits2 n - 53)) as [H0|H0].
  - replace (Zdigits2 n - 53) with 0 by lia. rewrite Hm.
    replace (53 - Zdigits2 n) with 0 by lia. rewrite Z.pow_0_r. lia.
  - rewrite Hm.
    replace (- (Zdigits2 n - 53)) with (53 - Zdigits2 n) by lia.
    apply Z.quot_mul. apply Z.pow_nonzero; lia.
Qed.

Lemma Math_floor_of_Z (n : Z) :
  0 <= n < 2 ^ 53 -> Math_floor (of_Z n) = of_Z n.
Proof.
  intros Hn. unfold Math_floor. rewrite floorZ_of_Z by done.
  destruct (Prim2SF (of_Z n)) as [s|s| |s m e]; try done.
  by destruct (0 <=? e).
Qed.

Lemma ToIndex_of_Z (n : Z) :
  0 <= n < 2 ^ 53 -> ToIndex (of_Z n) = Some (Z.to_nat n).
Proof.
  intros Hn. unfold ToIndex. rewrite truncZ_of_Z by done.
  rewrite (proj2 (Z.leb_le 0 n)) by lia.
  rewrite (proj2 (Z.leb_le n (2 ^ 53 - 1))) by lia. cbn [andb].
  destruct (Z.eq_dec n 0) as [->|Hn0]; [by rewrite of_Z_0|].
  by destruct (of_Z_canonical n ltac:(lia)) as (m & _ & ->).
Qed.

Lemma as_index_of_Z (n : Z) :
  0 <= n < 2 ^ 53 -> as_index (of_Z n) = Some (Z.to_nat n).
Proof.
  intros Hn. unfold as_index.
  destruct (Z.eq_dec n 0) as [->|Hn0]; [by rewrite of_Z_0|].
  destruct (of_Z_canonical n ltac:(lia)) as (m & Hm & ->).
  pose proof (Zdigits2_pos n ltac:(lia)) as Hd1.
  assert (Hd : Zdigits2 n <= 53) by (apply Zdigits2_le; lia).
  destruct (Z.leb_spec 0 (Zdigits2 n - 53)) as [H0|H0].
  - replace (Zdigits2 n - 53) with 0 by lia. rewrite Hm.
    replace (53 - Zdigits2 n) with 0 by lia. rewrite Z.pow_0_r.
    do 2 f_equal. lia.
  - rewrite Hm.
    replace (- (Zdigits2 n - 53)) with (53 - Zdigits2 n) by lia.
    rewrite mod_mul_pow2 by lia. cbn [Z.eqb].
    rewrite shiftr_mul_pow2 by lia. rewrite Z.sub_diag, Z.pow_0_r.
    do 2 f_equal. lia.
Qed.

End IntegerOps.

Section Quotient.

(** The mantissa of an integer has 53 digits. *)
Lemma canonical_digits (n : Z) (m : positive) :
  0 < n -> Z.pos m = n * 2 ^ (53 - Zdigits2 n) -> Zdigits2 n <= 53 ->
  Zdigits2 (Z.pos m) = 53.
Proof.
  intros Hn Hm Hd. rewrite Hm, Zdigits2_mul_pow2 by lia. lia.
Qed.

(** The rounded quotient of two integers lies between their integer
    quotient and the next integer. *)
Lemma div_of_Z (a b : Z) :
  0 < a < 2 ^ 32 -> 0 < b < 2 ^ 53 ->
  exists (m : positive) (e : Z),
    Prim2SF (of_Z a / of_Z b) = S754_finite false m e /\
    e < 0 /\ Z.shiftr (Z.pos m) (- e) = a / b.
Proof.
  intros Ha Hb. rewrite div_spec.
  destruct (of_Z_canonical a ltac:(lia)) as (ma & Hma & ->).
  destruct (of_Z_canonical b ltac:(lia)) as (mb & Hmb & ->).
  destruct (Zdigits2_bounds a ltac:(lia)) as [Hloa Hhia].
  destruct (Zdigits2_bounds b ltac:(lia)) as [Hlob Hhib].
  assert (Hda : 1 <= Zdigits2 a <= 32).
  { split; [apply Zdigits2_pos; lia|apply Zdigits2_le; lia]. }
  assert (Hdb : 1 <= Zdigits2 b <= 53).
  { split; [apply Zdigits2_pos; lia|apply Zdigits2_le; lia]. }
  pose proof (canonical_digits a ma ltac:(lia) Hma ltac:(lia)) as Hdma.
  pose proof (canonical_digits b mb ltac:(lia) Hmb ltac:(lia)) as Hdmb.
  set (da := Zdigits2 a) in *. set (db := Zdigits2 b) in *.
  unfold SF64div, SFdiv. cbn [xorb].
  destruct (SFdiv_core_binary_spec (Z.pos ma) (da - 53) (Z.pos mb) (db - 53)
              ltac:(lia) ltac:(lia)) as [lz Hcore].
  cbv zeta in Hcore. rewrite Hdma, Hdmb in Hcore.
  set (T := 53 + db - da).
  assert (HT : 22 <= T) by (unfold T; lia).
  assert (He' : Z.min (fexp64 (53 + (da - 53) - (53 + (db - 53))))
                  (da - 53 - (db - 53)) = - T).
  { unfold fexp64, T. lia. }
  rewrite He' in Hcore.
  replace (da - 53 - (db - 53) - - T) with 53 in Hcore by (unfold T; lia).
  rewrite Hcore. clear Hcore He'.
  (* the quotient of the mantissas *)
  assert (Hp1 : 0 < 2 ^ (53 - db)) by (apply Z.pow_pos_nonneg; lia).
  assert (HpT : 0 < 2 ^ T) by (apply Z.pow_pos_nonneg; lia).
  assert (Hmz : Z.pos ma * 2 ^ 53 / Z.pos mb = a * 2 ^ T / b).
  { rewrite Hma, Hmb.
    replace (a * 2 ^ (53 - da) * 2 ^ 53) with (a * 2 ^ T * 2 ^ (53 - db)).
    - apply Z.div_mul_cancel_r; lia.
    - rewrite <- !Z.mul_assoc, <- !Z.pow_add_r by lia.
      do 2 f_equal. unfold T. lia. }
  rewrite Hmz. clear Hmz.
  set (mz := a * 2 ^ T / b).
  set (q := a / b).
  pose proof (Z.div_mod a b ltac:(lia)) as Hdm. fold q in Hdm.
  pose proof (Z.mod_pos_bound a b ltac:(lia)) as Hr.
  set (r := a mod b) in *.
  assert (Hq0 : 0 <= q) by (apply Z.div_pos; lia).
  (* the magnitude of the quotient *)
  assert (Hpda : 2 ^ (da - 1 + T) = 2 ^ 52 * 2 ^ db).
  { rewrite <- Z.pow_add_r by lia. f_equal. unfold T. lia. }
  assert (Hpda' : 2 ^ (da + T) = 2 ^ 54 * 2 ^ (db - 1)).
  { rewrite <- Z.pow_add_r by lia. f_equal. unfold T. lia. }
  assert (Hpa1 : 2 ^ (da - 1) * 2 ^ T = 2 ^ (da - 1 + T))
    by (rewrite Z.pow_add_r by lia; done).
  assert (Hpa2 : 2 ^ da * 2 ^ T = 2 ^ (da + T))
    by (rewrite Z.pow_add_r by lia; done).
  assert (Hmz_lo : 2 ^ 52 <= mz).
  { apply Z.div_le_lower_bound; [lia|].
    assert (2 ^ 52 * 2 ^ db <= a * 2 ^ T) by nia. nia. }
  assert (Hmz_hi : mz < 2 ^ 54).
  { apply Z.div_lt_upper_bound; [lia|].
    assert (a * 2 ^ T < 2 ^ 54 * 2 ^ (db - 1)) by nia. nia. }
  assert (Hdz : 53 <= Zdigits2 mz <= 54).
  { split; [apply (Zdigits2_ge mz 52); lia|apply Zdigits2_le; lia]. }
  (* the quotient between the two integers *)
  assert (Hmz_q : q * 2 ^ T <= mz).
  { apply Z.div_le_lower_bound; [lia|]. nia. }
  assert (Hmzb : mz * b <= a * 2 ^ T).
  { unfold mz. rewrite Z.mul_comm. apply Z.mul_div_le. lia. }
  destruct (binary_round_aux_spec false mz (- T) lz ltac:(lia))
    as (m2 & H2 & ->).
  set (c := Zdigits2 mz - 53).
  assert (He1 : Z.max (- T) (fexp64 (Zdigits2 mz + - T)) = - T + c).
  { unfold fexp64, c, T. lia. }
  rewrite He1 in *.
  replace (- T + c - - T) with c in * by lia.
  assert (Hc : 0 <= c <= 1) by (unfold c; lia).
  set (m1 := Z.shiftr mz c) in *.
  assert (Hdm1 : Zdigits2 m1 = 53).
  { unfold m1. rewrite Zdigits2_shiftr by lia. unfold c. lia. }
  destruct (Zdigits2_bounds m1) as [Hm1lo Hm1hi].
  { unfold m1. rewrite Z.shiftr_div_pow2 by lia.
    apply Z.div_str_pos. split; [apply Z.pow_pos_nonneg; lia|].
    assert (2 ^ c <= 2 ^ 1) by (apply Z.pow_le_mono_r; lia).
    change (2 ^ 1) with 2 in *. lia. }
  rewrite Hdm1 in Hm1lo, Hm1hi.
  replace (53 - 1) with 52 in Hm1lo by lia.
  assert (Hdm2 : 53 <= Zdigits2 m2 <= 54).
  { split; [apply (Zdigits2_ge m2 52); lia|].
    apply Zdigits2_le; [lia|lia|].
    change (2 ^ 54) with (2 * 2 ^ 53). lia. }
  set (c2 := Zdigits2 m2 - 53).
  assert (He3 : Z.max (- T + c) (fexp64 (Zdigits2 m2 + (- T + c)))
                = - T + c + c2).
  { unfold fexp64, c2, T. lia. }
  rewrite He3. clear He3.
  replace (- T + c + c2 - (- T + c)) with c2 by lia.
  assert (Hc2 : 0 <= c2 <= 1) by (unfold c2; lia).
  set (K := T - c).
  assert (HK : 21 <= K) by (unfold K; lia).
  assert (HpK : 0 < 2 ^ K) by (apply Z.pow_pos_nonneg; lia).
  assert (Hpc : 0 < 2 ^ c) by (apply Z.pow_pos_nonneg; lia).
  assert (HTK : 2 ^ T = 2 ^ K * 2 ^ c).
  { rewrite <- Z.pow_add_r by lia. f_equal. unfold K. lia. }
  (* the first cut stays between the two integers *)
  assert (Hm1_q : q * 2 ^ K <= m1).
  { unfold m1. rewrite Z.shiftr_div_pow2 by lia.
    apply Z.div_le_lower_bound; [lia|]. nia. }
  assert (Hm1_q1 : m1 + 2 <= (q + 1) * 2 ^ K).
  { (* [b * 2 ^ (c + 1) <= 2 ^ T] *)
    assert (Hb2 : b * (2 * 2 ^ c) <= 2 ^ T).
    { assert (2 ^ db * (2 * 2 ^ c) <= 2 ^ T); [|nia].
      replace (2 * 2 ^ c) with (2 ^ (c + 1))
        by (rewrite Z.pow_add_r by lia; change (2 ^ 1) with 2; lia).
      rewrite <- Z.pow_add_r by lia. apply Z.pow_le_mono_r; [lia|].
      unfold T. lia. }
    assert (Hmz_q1 : mz + 2 * 2 ^ c <= (q + 1) * 2 ^ T).
    { apply (Z.mul_le_mono_pos_r _ _ b); [lia|]. nia. }
    assert (Hm1c : m1 * 2 ^ c <= mz).
    { unfold m1. rewrite Z.shiftr_div_pow2 by lia.
      rewrite Z.mul_comm. apply Z.mul_div_le. lia. }
    apply (Z.mul_le_mono_pos_r _ _ (2 ^ c)); [lia|]. nia. }
  assert (Hm2_q : q * 2 ^ K <= m2 < (q + 1) * 2 ^ K) by lia.
  (* the second cut *)
  assert (Hm3 : 0 < Z.shiftr m2 c2).
  { rewrite Z.shiftr_div_pow2 by lia. apply Z.div_str_pos.
    split; [apply Z.pow_pos_nonneg; lia|].
    assert (2 ^ c2 <= 2 ^ 1) by (apply Z.pow_le_mono_r; lia).
    change (2 ^ 1) with 2 in *. lia. }
  destruct (Z.shiftr m2 c2) as [|m3|m3] eqn:Em3; try lia.
  rewrite (proj2 (Z.leb_le (- T + c + c2) 971)) by lia.
  exists m3, (- T + c + c2). split; [done|]. split; [lia|].
  rewrite <- Em3, Z.shiftr_shiftr by lia.
  replace (c2 + - (- T + c + c2)) with K by (unfold K; lia).
  rewrite Z.shiftr_div_pow2 by lia.
  symmetry. apply Z.div_unique with (m2 - q * 2 ^ K); lia.
Qed.

(** [Math.floor (a / b)] on integers is the integer quotient. *)
Lemma Math_floor_div (a b : Z) :
  0 <= a < 2 ^ 32 -> 0 < b < 2 ^ 53 ->
  Math_floor (of_Z a / of_Z b)%float = of_Z (a / b).
Proof.
  intros Ha Hb. destruct (Z.eq_dec a 0) as [->|Ha0].
  - assert (H0 : (of_Z 0 / of_Z b)%float = of_Z 0).
    { apply Prim2SF_inj. rewrite div_spec, of_Z_0.
      destruct (of_Z_canonical b ltac:(lia)) as (mb & _ & ->). done. }
    rewrite H0. by rewrite Z.div_0_l by lia.
  - destruct (div_of_Z a b ltac:(lia) Hb) as (m & e & Hp & He & Hfl).
    unfold Math_floor, floorZ. rewrite Hp. cbn [signed].
    rewrite (proj2 (Z.leb_gt 0 e)) by lia. by rewrite Hfl.
Qed.

End Quotient.

Section Decimation.

Lemma of_Z_1 : of_Z 1 = 1%float.
Proof. reflexivity. Qed.

Lemma Math_min_of_Z (a b : Z) :
  0 <= a < 2 ^ 53 -> 0 <= b < 2 ^ 53 ->
  Math_min (of_Z a) (of_Z b) = of_Z (Z.min a b).
Proof.
  intros Ha Hb. unfold Math_min.
  rewrite !of_Z_not_nan by done. cbn [orb].
  rewrite !of_Z_ltb by done.
  destruct (Z.ltb_spec a b) as [H|H]; [by rewrite Z.min_l by lia|].
  destruct (Z.ltb_spec b a) as [H'|H']; [by rewrite Z.min_r by lia|].
  assert (a = b) as -> by lia. rewrite Z.min_id.
  by destruct (is_neg_zero (of_Z b)).
Qed.

Lemma get_of_Z (input : list number) (n : nat) :
  Z.of_nat n < 2 ^ 53 -> get input (of_nat n) = get_at input n.
Proof.
  intros Hn. unfold get, of_nat. rewrite as_index_of_Z by lia.
  by rewrite Nat2Z.id.
Qed.

(** The loop body of [resampleLinear] when the ratio of the rates is the
    integer [k]: the source position is the integer [i * k], and the
    weight of the next sample is 0. *)
Lemma resample_sample_integer (input : list number) (k i : nat) :
  (0 < k)%nat -> (i < length input / k)%nat ->
  Z.of_nat (length input) < 2 ^ 32 ->
  resample_sample input (of_nat k) i =
    (get_at input (i * k) * 1
     + get_at input (Nat.min (i * k + 1) (length input - 1)) * 0)%float.
Proof.
  intros Hk Hik Hlen. unfold resample_sample.
  assert (H32 : 2 ^ 32 < 2 ^ 53) by (apply Z.pow_lt_mono_r; lia).
  assert (Hq : (length input / k * k <= length input)%nat)
    by (rewrite Nat.mul_comm; apply Nat.Div0.mul_div_le).
  assert (Hi' : (i * k + k <= length input)%nat) by nia.
  assert (Hi'' : (i <= i * k)%nat) by nia.
  assert (Hi : Z.of_nat i < 2 ^ 53) by lia.
  assert (Hk53 : Z.of_nat k < 2 ^ 53) by lia.
  assert (Hidx : (of_nat i * of_nat k)%float = of_nat (i * k)).
  { unfold of_nat. rewrite of_Z_mul by lia. by rewrite Nat2Z.inj_mul. }
  rewrite Hidx.
  assert (Hfl : Math_floor (of_nat (i * k)) = of_nat (i * k))
    by (apply Math_floor_of_Z; lia).
  rewrite Hfl.
  assert (Hw : (of_nat (i * k) - of_nat (i * k))%float = 0%float).
  { unfold of_nat. rewrite of_Z_sub by lia. by rewrite Z.sub_diag. }
  rewrite Hw.
  assert (Hhi : Math_min (of_nat (i * k) + 1)%float
                  (of_nat (length input) - 1)%float
                = of_nat (Nat.min (i * k + 1) (length input - 1))).
  { unfold of_nat. rewrite <- of_Z_1.
    rewrite of_Z_add, of_Z_sub by lia.
    rewrite Math_min_of_Z by lia. f_equal. lia. }
  rewrite Hhi, !get_of_Z by lia.
  reflexivity.
Qed.

End Decimation.

Section Identities.

#[local] Open Scope float_scope.

Lemma valid_finite (x : number) (s : bool) (m : positive) (e : Z) :
  Prim2SF x = S754_finite s m e ->
  fexp64 (Zdigits2 (Z.pos m) + e) = e /\ (e <= 971)%Z.
Proof.
  intros Hx. pose proof (Prim2SF_valid x) as Hv. rewrite Hx in Hv.
  unfold SpecFloat.valid_binary, bounded, canonical_mantissa in Hv.
  apply andb_prop in Hv as [Hc Hb]. apply Z.eqb_eq in Hc.
  apply Z.leb_le in Hb. rewrite fexp_eq in Hc.
  split; [exact Hc|]. change (emax - prec)%Z with 971%Z in Hb. exact Hb.
Qed.

(** Multiplying by 1 changes nothing. *)
Lemma number_mul_1_r (x : number) : x * 1 = x.
Proof.
  apply Prim2SF_inj. rewrite mul_spec.
  change (Prim2SF 1) with (S754_finite false 4503599627370496 (-52)).
  unfold SF64mul, SFmul.
  destruct (Prim2SF x) as [s|s| |s m e] eqn:Hx;
    [by destruct s|by destruct s|done|].
  destruct (valid_finite x s m e Hx) as [Hc Hb].
  rewrite xorb_false_r.
  assert (Hprod : Z.pos (m * 4503599627370496) = (Z.pos m * 2 ^ 52)%Z).
  { rewrite Pos2Z.inj_mul. reflexivity. }
  rewrite Hprod.
  assert (Hdig : Zdigits2 (Z.pos m * 2 ^ 52) = (Zdigits2 (Z.pos m) + 52)%Z)
    by (apply Zdigits2_mul_pow2; lia).
  assert (He1 : Z.max (e + -52)
                  (fexp64 (Zdigits2 (Z.pos m * 2 ^ 52) + (e + -52)))
                = e).
  { rewrite Hdig.
    replace (Zdigits2 (Z.pos m) + 52 + (e + -52))%Z
      with (Zdigits2 (Z.pos m) + e)%Z by lia.
    rewrite Hc. lia. }
  rewrite binary_round_aux_representable; [|lia|].
  - rewrite He1. replace (e - (e + -52))%Z with 52%Z by lia.
    rewrite shiftr_mul_pow2 by lia. rewrite Z.sub_diag, Z.pow_0_r, Z.mul_1_r.
    by rewrite (proj2 (Z.leb_le e 971)).
  - rewrite He1. replace (e - (e + -52))%Z with 52%Z by lia.
    apply mod_mul_pow2. lia.
Qed.

(** A finite sample with weight 0 adds nothing but the sign of a zero. *)
Lemma blend_weight_0 (x y : number) :
  finite_number x = true -> finite_number y = true ->
  (x * 1 + y * 0 =? x) = true.
Proof.
  unfold finite_number. intros Hx Hy. rewrite number_mul_1_r.
  rewrite FloatAxioms.eqb_spec, add_spec, mul_spec.
  change (Prim2SF 0) with (S754_zero false).
  unfold SF64add, SF64mul, SFmul, SFadd, SFeqb.
  destruct (Prim2SF y) as [sy|sy| |sy my ey]; try done;
    destruct (Prim2SF x) as [sx|sx| |sx mx ex]; try done;
    cbn [xorb]; try (by destruct sx, sy);
    cbv beta iota delta [SFcompare];
    rewrite Z.compare_refl, Pos.compare_cont_refl; by destruct sx.
Qed.

End Identities.

(** X17: the frame arithmetic of the capture callback, computed on
    numbers as the source does, gives the integer quotient and product
    that the embedding of [onaudioprocess] uses: for every buffer below
    2^32 samples, [framesToEmit] is the integer quotient of the buffer
    length by [samplesPerFrame], it is positive exactly when that quotient
    is, and [emitCount] is the number of samples in that many frames. *)
Theorem frame_count_is_integer_quotient (len : nat) :
  Z.of_nat len < 2 ^ 32 ->
  samplesPerFrame_number = of_nat Audio.samplesPerFrame /\
  framesToEmit len = of_nat (len / Audio.samplesPerFrame) /\
  (0 <? framesToEmit len)%float = (0 <? len / Audio.samplesPerFrame)%nat /\
  emitCount len
  = of_nat (len / Audio.samplesPerFrame * Audio.samplesPerFrame).
Proof.
  intros Hlen.
  assert (H32 : 2 ^ 32 < 2 ^ 53) by (apply Z.pow_lt_mono_r; lia).
  assert (Hspf : samplesPerFrame_number = of_nat Audio.samplesPerFrame)
    by (vm_compute; reflexivity).
  assert (Hq : (len / Audio.samplesPerFrame <= len)%nat).
  { apply Nat.Div0.div_le_upper_bound.
    pose proof samplesPerFrame_pos. nia. }
  assert (Hfr : framesToEmit len = of_nat (len / Audio.samplesPerFrame)).
  { unfold framesToEmit. rewrite Hspf. unfold of_nat.
    rewrite samplesPerFrame_value.
    rewrite Math_floor_div by lia. by rewrite Nat2Z.inj_div. }
  split; [done|]. split; [done|]. split.
  - rewrite Hfr. unfold of_nat. change 0%float with (of_Z 0).
    rewrite of_Z_ltb by lia.
    destruct (Nat.ltb_spec 0 (len / Audio.samplesPerFrame));
      destruct (Z.ltb_spec 0 (Z.of_nat (len / Audio.samplesPerFrame))); lia.
  - unfold emitCount. rewrite Hfr, Hspf. unfold of_nat.
    pose proof (whole_frames_le len) as Hle.
    rewrite of_Z_mul by (rewrite ?samplesPerFrame_value in *; lia).
    by rewrite Nat2Z.inj_mul.
Qed.

Lemma frame_count_is_integer_quotient_witness :
  framesToEmit 4001 = 1%float /\ emitCount 4001 = 4000%float.
Proof.
  pose proof (frame_count_is_integer_quotient 4001 eq_refl)
    as (_ & H1 & _ & H2).
  split; [exact H1|exact H2].
Defined.

(** X18: when the ratio of the native rate to the target rate is an
    integer [k] (3 for the 48 kHz context that [start()] asks for),
    [resampleLinear] is decimation by [k]: it returns one sample for every
    [k] input samples, output sample [i] is computed from the input
    samples at [i * k] and [min (i * k + 1) lastIndex], both inside the
    block, with weights exactly 1 and 0, and it is numerically the input
    sample at [i * k] when the two samples are finite. *)
Theorem resampleLinear_decimates
  (input : list number) (inputRate targetRate : number) (k : nat) :
  (inputRate =? targetRate)%float = false ->
  (inputRate / targetRate)%float = of_nat k ->
  (0 < k)%nat -> Z.of_nat k < 2 ^ 53 ->
  Z.of_nat (length input) < 2 ^ 32 ->
  exists output,
    resampleLinear input inputRate targetRate = Some output /\
    length output = (length input / k)%nat /\
    forall i, (i < length input / k)%nat ->
      exists x y,
        input !! (i * k)%nat = Some x /\
        input !! Nat.min (i * k + 1) (length input - 1) = Some y /\
        output !! i = Some (fround (x * 1 + y * 0)%float) /\
        (finite_number x && finite_number y = true ->
         (x * 1 + y * 0 =? x)%float = true).
Proof.
  intros Hne Hratio Hk Hk53 Hlen.
  assert (H32 : 2 ^ 32 < 2 ^ 53) by (apply Z.pow_lt_mono_r; lia).
  pose proof (resampleLinear_unequal input inputRate targetRate Hne) as H.
  assert (Hn : ToIndex (resample_length (length input) inputRate targetRate)
               = Some (length input / k)%nat).
  { unfold resample_length. rewrite Hratio. unfold of_nat.
    rewrite Math_floor_div by lia.
    assert (0 <= Z.of_nat (length input) / Z.of_nat k
            <= Z.of_nat (length input)).
    { split; [apply Z.div_pos; lia|].
      apply Z.div_le_upper_bound; [lia|nia]. }
    rewrite ToIndex_of_Z by lia.
    by rewrite <- Nat2Z.inj_div, Nat2Z.id. }
  rewrite Hn in H. destruct H as (output & Hout & Hlen' & Hsamples).
  exists output. split; [done|]. split; [done|].
  intros i Hi.
  assert (Hq : (length input / k * k <= length input)%nat)
    by (rewrite Nat.mul_comm; apply Nat.Div0.mul_div_le).
  assert (Hik : (i * k + k <= length input)%nat) by nia.
  destruct (lookup_lt_is_Some_2 input (i * k)) as [x Hx]; [lia|].
  destruct (lookup_lt_is_Some_2 input
              (Nat.min (i * k + 1) (length input - 1))) as [y Hy]; [lia|].
  exists x, y. split; [done|]. split; [done|]. split.
  - rewrite (Hsamples i Hi), Hratio.
    rewrite resample_sample_integer by done.
    unfold get_at. unfold number in *. by rewrite Hx, Hy.
  - intros [Hfx Hfy]%andb_true_iff. by apply blend_weight_0.
Qed.

Lemma resampleLinear_decimates_witness :
  exists output,
    resampleLinear [1; 2; 3; 4; 5; 6; 7]%float 48000%float 16000%float
    = Some output /\
    length output = 2%nat.
Proof.
  destruct (resampleLinear_decimates [1; 2; 3; 4; 5; 6; 7]%float
              48000%float 16000%float 3 eq_refl eq_refl
              ltac:(lia) eq_refl eq_refl) as (output & H1 & H2 & _).
  exists output. split; [exact H1|exact H2].
Defined.

(** ** The client in use *)

Section Transport.

Import WS Run.

Lemma all_sent_set_readyState s r ws :
  map sent (set_readyState s r ws) = map sent ws.
Proof.
  unfold set_readyState. destruct (ws !! s) as [w|] eqn:E; [|done].
  apply list_eq. intros i. rewrite !list_lookup_fmap.
  destruct (decide (i = s)) as [->|Hne].
  - rewrite list_lookup_insert_eq by (by eapply lookup_lt_Some).
    by rewrite E.
  - by rewrite list_lookup_insert_ne.
Qed.

Lemma all_sent_socket_close s ws :
  map sent (socket_close s ws) = map sent ws.
Proof.
  unfold socket_close. destruct (ws !! s) as [w|]; [|done].
  destruct (readyState w); try done; apply all_sent_set_readyState.
Qed.

(** A client without a socket: every call but [connect()] and every event
    leave it without one, and hand nothing to any socket. *)
Lemma apply_closed cfg c o :
  socket c = None -> is_connect o = false ->
  socket (apply cfg c o) = None /\ all_sent (apply cfg c o) = all_sent c.
Proof.
  intros Hs Ho. destruct o as [|ch| |ev]; try discriminate; unfold apply.
  - unfold sendAudioChunk, isOpen. by rewrite Hs.
  - unfold close. by rewrite Hs.
  - unfold all_sent.
    destruct ev as [s|s e|s|s d]; unfold handle;
      destruct (sockets c !! s) as [w|]; cbn [fst socket sockets];
      rewrite ?all_sent_set_readyState; try done.
    unfold onmessage. destruct d as [t|b]; [|done].
    by destruct (JSON.parse t).
Qed.

Lemma run_closed cfg tr : forall c,
  socket c = None ->
  forallb (fun o => negb (is_connect o)) tr = true ->
  socket (run cfg c tr) = None /\ all_sent (run cfg c tr) = all_sent c.
Proof.
  induction tr as [|o tr IH]; intros c Hs Htr; [done|].
  cbn [forallb] in Htr. apply andb_true_iff in Htr as [Ho Htr].
  apply negb_true_iff in Ho.
  destruct (apply_closed cfg c o Hs Ho) as (Hs1 & Hsent).
  unfold run. cbn [foldl]. fold (run cfg (apply cfg c o) tr).
  destruct (IH (apply cfg c o) Hs1 Htr) as (Hs2 & Hsent2).
  by rewrite Hsent2.
Qed.

Lemma send_all_open c s w chs :
  socket c = Some s -> sockets c !! s = Some w -> readyState w = OPEN ->
  send_all c chs =
    (mkClient (socket c) (openPromise c)
       (<[ s := mkWebSocket OPEN (promise w)
                  (sent w ++ map chunk_bytes chs) ]> (sockets c))
       (promises c),
     map (fun ch => SocketSend s (chunk_bytes ch)) chs).
Proof.
  revert c w. induction chs as [|ch chs IH]; intros c w Hs Hw Hr.
  - cbn [send_all map]. rewrite app_nil_r.
    rewrite list_insert_id; [by destruct c|].
    rewrite Hw. f_equal. destruct w. cbn in *. by subst.
  - cbn [send_all]. unfold sendAudioChunk at 1, isOpen.
    rewrite Hs, Hw, Hr.
    set (w1 := mkWebSocket OPEN (promise w) (sent w ++ [chunk_bytes ch])).
    set (c1 := mkClient _ _ _ _).
    assert (Hlt : (s < length (sockets c))%nat) by (by eapply lookup_lt_Some).
    rewrite (IH c1 w1); [| done | apply list_lookup_insert_eq; done | done].
    cbn [c1 w1 socket openPromise sockets promises promise sent map].
    rewrite list_insert_insert_eq, <- app_assoc. done.
Qed.

End Transport.

(** X10: when the [WebSocket] constructor rejects the URL, the first
    [connect()] reports the error once and returns a rejected promise
    without a socket (rejected with the error, or with what the error
    callback threw); after that no call and no event changes the client,
    and every [connect()] returns that same rejected promise and reports
    nothing ([close()] does not reset it). *)
Theorem invalid_url_is_final (cfg : WS.Config) (tr : list Run.op) :
  WS.url_ok cfg = false ->
  let first := WS.connect cfg WS.init in
  let c := Run.run cfg (fst (fst first)) tr in
  let reason := default SyntaxError (WS.report_throws cfg SyntaxError) in
  first = (WS.mkClient None (Some 0%nat) [] [WS.Rejected reason],
           WS.Shared 0, WS.report cfg SyntaxError) /\
  c = fst (fst first) /\
  WS.connect cfg c = (c, WS.Shared 0, []) /\
  WS.isOpen c = false.
Proof.
  intros Hurl. cbv zeta.
  set (reason := default SyntaxError (WS.report_throws cfg SyntaxError)).
  assert (Hfirst : WS.connect cfg WS.init
    = (WS.mkClient None (Some 0%nat) [] [WS.Rejected reason],
       WS.Shared 0, WS.report cfg SyntaxError)).
  { unfold WS.connect. cbn. by rewrite Hurl. }
  rewrite Hfirst. cbn [fst]. split; [done|].
  assert (Hfix : Run.run cfg
            (WS.mkClient None (Some 0%nat) [] [WS.Rejected reason]) tr
          = WS.mkClient None (Some 0%nat) [] [WS.Rejected reason]).
  { induction tr as [|o tr IH]; [done|].
    unfold Run.run. cbn [foldl].
    replace (Run.apply cfg _ o)
      with (WS.mkClient None (Some 0%nat) [] [WS.Rejected reason]);
      [exact IH|].
    destruct o as [|ch| |[s|s e|s|s d]]; try done.
  }
  rewrite Hfix. done.
Qed.

Lemma invalid_url_is_final_witness :
  Run.run bad_url_config (fst (fst (WS.connect bad_url_config WS.init)))
    [Run.Close; Run.Connect; Run.Event (WS.Close_ 0); Run.Connect]
  = fst (fst (WS.connect bad_url_config WS.init)).
Proof.
  refine (proj1 (proj2
    (invalid_url_is_final bad_url_config
       [Run.Close; Run.Connect; Run.Event (WS.Close_ 0); Run.Connect] _))).
  reflexivity.
Defined.

(** X11: while the connection is open, [sendAudioChunk] calls in a row
    hand the bytes of their chunks to the socket in call order, a buffer
    and a view alike, change nothing else, and leave the connection
    open. *)
Theorem sends_keep_order (c : WS.Client) (chs : list WS.chunk) :
  WS.isOpen c = true ->
  exists s w,
    WS.socket c = Some s /\ WS.sockets c !! s = Some w /\
    send_all c chs =
      (WS.mkClient (WS.socket c) (WS.openPromise c)
         (<[ s := WS.mkWebSocket WS.OPEN (WS.promise w)
                    (WS.sent w ++ map WS.chunk_bytes chs) ]> (WS.sockets c))
         (WS.promises c),
       map (fun ch => WS.SocketSend s (WS.chunk_bytes ch)) chs) /\
    WS.isOpen (fst (send_all c chs)) = true.
Proof.
  unfold WS.isOpen at 1. intros H.
  destruct (WS.socket c) as [s|] eqn:Hs; [|done].
  destruct (WS.sockets c !! s) as [w|] eqn:Hw; [|done].
  destruct (WS.readyState w) eqn:Hr; try done.
  exists s, w. split; [done|]. split; [done|].
  rewrite (send_all_open c s w chs Hs Hw Hr). split; [by rewrite Hs|].
  unfold WS.isOpen. cbn [fst WS.socket WS.sockets]. rewrite Hs.
  rewrite list_lookup_insert_eq by (by eapply lookup_lt_Some). done.
Qed.

Lemma sends_keep_order_witness :
  exists s w,
    WS.socket open_client = Some s /\ WS.sockets open_client !! s = Some w /\
    send_all open_client [WS.Buffer [1; 2]; WS.View [3; 4]] =
      (WS.mkClient (WS.socket open_client) (WS.openPromise open_client)
         (<[ s := WS.mkWebSocket WS.OPEN (WS.promise w)
                    (WS.sent w ++ [[1; 2]; [3; 4]]) ]>
            (WS.sockets open_client))
         (WS.promises open_client),
       [WS.SocketSend s [1; 2]; WS.SocketSend s [3; 4]]) /\
    WS.isOpen (fst (send_all open_client [WS.Buffer [1; 2]; WS.View [3; 4]]))
    = true.
Proof.
  apply (sends_keep_order open_client [WS.Buffer [1; 2]; WS.View [3; 4]]).
  reflexivity.
Defined.

(** X12: after [close()], and until [connect()] is called again, the
    client refers to no socket whatever events its sockets deliver (a
    late open event included): [isOpen()] is false, nothing is handed to
    any socket, [close()] does nothing more, and [sendAudioChunk] drops
    its chunk. *)
Theorem closed_until_connect
  (cfg : WS.Config) (c : WS.Client) (tr : list Run.op) :
  forallb (fun o => negb (is_connect o)) tr = true ->
  let c' := Run.run cfg (fst (WS.close c)) tr in
  WS.socket c' = None /\
  WS.isOpen c' = false /\
  all_sent c' = all_sent c /\
  WS.close c' = (c', []) /\
  forall ch, WS.sendAudioChunk c' ch = (c', []).
Proof.
  intros Htr. cbv zeta.
  assert (Hc : WS.socket (fst (WS.close c)) = None /\
               all_sent (fst (WS.close c)) = all_sent c).
  { unfold WS.close. destruct (WS.socket c) as [s|] eqn:Hs; [|done].
    cbn [fst WS.socket]. split; [done|].
    unfold all_sent. cbn [WS.sockets]. apply all_sent_socket_close. }
  destruct Hc as [Hs Hsent].
  destruct (run_closed cfg tr (fst (WS.close c)) Hs Htr) as [Hs' Hsent'].
  split; [done|]. split; [unfold WS.isOpen; by rewrite Hs'|].
  split; [congruence|]. split; [unfold WS.close at 1; by rewrite Hs'|].
  intros ch. unfold WS.sendAudioChunk, WS.isOpen. by rewrite Hs'.
Qed.

Lemma closed_until_connect_witness :
  WS.isOpen
    (Run.run plain_config (fst (WS.close open_client))
       [Run.Event (WS.Open_ 0); Run.Send (WS.Buffer [1; 2])])
  = false.
Proof.
  refine (proj1 (proj2
    (closed_until_connect plain_config open_client
       [Run.Event (WS.Open_ 0); Run.Send (WS.Buffer [1; 2])] _))).
  reflexivity.
Defined.

(** X13: from the closed state, [connect()] creates one socket and
    returns a new pending promise; the open event of that socket fulfils
    the promise and opens the connection, and [connect()] then returns a
    resolved promise and creates nothing. *)
Theorem connect_then_open (cfg : WS.Config) (c : WS.Client) :
  WS.url_ok cfg = true ->
  WS.state c = WS.Closed ->
  let s := length (WS.sockets c) in
  let p := length (WS.promises c) in
  let r := WS.connect cfg c in
  let c1 := fst (fst r) in
  let c2 := fst (WS.handle cfg c1 (WS.Open_ s)) in
  snd (fst r) = WS.Shared p /\ snd r = [] /\
  WS.socket c1 = Some s /\ length (WS.sockets c1) = S s /\
  WS.state c1 = WS.Connecting /\
  WS.promises c1 !! p = Some WS.Pending /\
  WS.state c2 = WS.Open /\
  WS.promises c2 !! p = Some WS.Fulfilled /\
  WS.connect cfg c2 = (c2, WS.Resolved, []).
Proof.
  intros Hurl Hst. unfold WS.state in Hst.
  destruct (WS.isOpen c) eqn:Ho; [done|].
  destruct (WS.openPromise c) eqn:Hp; [done|]. clear Hst.
  intros s p.
  pose (w := WS.mkWebSocket WS.CONNECTING p []).
  pose (c1 := WS.mkClient (Some s) (Some p) (WS.sockets c ++ [w])
                (WS.promises c ++ [WS.Pending])).
  assert (H1 : WS.connect cfg c = (c1, WS.Shared p, []))
    by (unfold WS.connect; by rewrite Ho, Hp, Hurl).
  assert (Hw : WS.sockets c1 !! s = Some w) by (by apply list_lookup_middle).
  assert (Hpp : WS.promises c1 !! p = Some WS.Pending)
    by (by apply list_lookup_middle).
  pose (c2 := WS.mkClient (Some s) (Some p)
                (<[ s := WS.mkWebSocket WS.OPEN p [] ]> (WS.sockets c1))
                (<[ p := WS.Fulfilled ]> (WS.promises c1))).
  assert (H2 : WS.handle cfg c1 (WS.Open_ s) = (c2, [])).
  { unfold WS.handle. rewrite Hw. unfold WS.settle, WS.set_readyState.
    cbn [WS.promise w]. by rewrite Hpp, Hw. }
  assert (Hw2 : WS.sockets c2 !! s = Some (WS.mkWebSocket WS.OPEN p [])).
  { apply list_lookup_insert_eq. by eapply lookup_lt_Some. }
  assert (Ho2 : WS.isOpen c2 = true).
  { unfold WS.isOpen. cbn [c2 WS.socket WS.sockets].
    cbn [c2 WS.sockets] in Hw2. by rewrite Hw2. }
  cbv zeta. rewrite H1. cbn [fst snd]. rewrite H2. cbn [fst snd].
  split; [done|]. split; [done|]. split; [done|]. split.
  { cbn [c1 WS.sockets]. rewrite length_app. cbn. unfold s. lia. }
  split.
  { unfold WS.state, WS.isOpen. cbn [c1 WS.socket WS.openPromise WS.sockets].
    cbn [c1 WS.sockets] in Hw. by rewrite Hw. }
  split; [done|]. split; [unfold WS.state; by rewrite Ho2|]. split.
  - apply list_lookup_insert_eq. by eapply lookup_lt_Some.
  - unfold WS.connect. by rewrite Ho2.
Qed.

Lemma connect_then_open_witness :
  WS.state
    (fst (WS.handle plain_config
            (fst (fst (WS.connect plain_config WS.init))) (WS.Open_ 0)))
  = WS.Open.
Proof.
  refine (proj1 (proj2 (proj2 (proj2 (proj2 (proj2 (proj2
    (connect_then_open plain_config WS.init _ _)))))))); reflexivity.
Defined.

(** X14: when the socket of an attempt fails, it is closed and its
    error event is reported, and the promise of the attempt is rejected,
    unless the error callback throws: then [reject] is skipped and the
    promise stays pending.  [connect()] keeps returning that promise
    until the close event of the socket; after the close event the client
    is closed, and the next [connect()] makes a new attempt with a new
    socket and a new pending promise, the old promise staying as it
    was. *)
Theorem failed_attempt_then_retry
  (cfg : WS.Config) (c : WS.Client) (e : error) :
  WS.url_ok cfg = true ->
  WS.state c = WS.Closed ->
  let s := length (WS.sockets c) in
  let p := length (WS.promises c) in
  let c1 := fst (fst (WS.connect cfg c)) in
  let r2 := WS.handle cfg c1 (WS.Error_ s e) in
  let c3 := fst (WS.handle cfg (fst r2) (WS.Close_ s)) in
  let r4 := WS.connect cfg c3 in
  let settled :=
    match WS.report_throws cfg e with
    | Some _ => WS.Pending
    | None => WS.Rejected (Thrown 0)
    end in
  snd r2 = WS.report cfg e /\
  Run.state_of (fst r2) s = Some WS.CLOSED /\
  WS.promises (fst r2) !! p = Some settled /\
  WS.connect cfg (fst r2) = (fst r2, WS.Shared p, []) /\
  WS.state c3 = WS.Closed /\
  snd (fst r4) = WS.Shared (S p) /\
  WS.socket (fst (fst r4)) = Some (S s) /\
  WS.promises (fst (fst r4)) !! S p = Some WS.Pending /\
  WS.promises (fst (fst r4)) !! p = Some settled.
Proof.
  intros Hurl Hst. unfold WS.state in Hst.
  destruct (WS.isOpen c) eqn:Ho; [done|].
  destruct (WS.openPromise c) eqn:Hp; [done|]. clear Hst.
  intros s p.
  pose (w := WS.mkWebSocket WS.CONNECTING p []).
  pose (c1 := WS.mkClient (Some s) (Some p) (WS.sockets c ++ [w])
                (WS.promises c ++ [WS.Pending])).
  assert (H1 : WS.connect cfg c = (c1, WS.Shared p, []))
    by (unfold WS.connect; by rewrite Ho, Hp, Hurl).
  assert (Hw : WS.sockets c1 !! s = Some w) by (by apply list_lookup_middle).
  assert (Hpp : WS.promises c1 !! p = Some WS.Pending)
    by (by apply list_lookup_middle).
  pose (settled := match WS.report_throws cfg e with
                   | Some _ => WS.Pending
                   | None => WS.Rejected (Thrown 0)
                   end).
  pose (ps2 := <[ p := settled ]> (WS.promises c1)).
  pose (ws2 := <[ s := WS.mkWebSocket WS.CLOSED p [] ]> (WS.sockets c1)).
  pose (c2 := WS.mkClient (Some s) (Some p) ws2 ps2).
  assert (H2 : WS.handle cfg c1 (WS.Error_ s e) = (c2, WS.report cfg e)).
  { unfold WS.handle. rewrite Hw. unfold WS.settle, WS.set_readyState.
    cbn [WS.promise WS.sent w]. rewrite Hpp, Hw. unfold c2, ps2, settled.
    destruct (WS.report_throws cfg e); [|done].
    by rewrite (list_insert_id _ _ _ Hpp). }
  assert (Hw2 : ws2 !! s = Some (WS.mkWebSocket WS.CLOSED p [])).
  { unfold ws2. apply list_lookup_insert_eq. by eapply lookup_lt_Some. }
  pose (c3 := WS.mkClient None None ws2 ps2).
  assert (H3 : WS.handle cfg c2 (WS.Close_ s) = (c3, [])).
  { unfold WS.handle. cbn [c2 WS.sockets]. rewrite Hw2.
    unfold WS.set_readyState. rewrite Hw2. cbn [WS.promise WS.sent].
    by rewrite (list_insert_id _ _ _ Hw2). }
  assert (Hlenp : length ps2 = S p).
  { unfold ps2. rewrite length_insert. cbn [c1 WS.promises].
    rewrite length_app. cbn. unfold p. lia. }
  assert (Hlens : length ws2 = S s).
  { unfold ws2. rewrite length_insert. cbn [c1 WS.sockets].
    rewrite length_app. cbn. unfold s. lia. }
  assert (Hp2 : ps2 !! p = Some settled).
  { unfold ps2. apply list_lookup_insert_eq. by eapply lookup_lt_Some. }
  assert (H4 : WS.connect cfg c3
    = (WS.mkClient (Some (S s)) (Some (S p))
         (ws2 ++ [WS.mkWebSocket WS.CONNECTING (S p) []])
         (ps2 ++ [WS.Pending]), WS.Shared (S p), [])).
  { unfold WS.connect, WS.isOpen. cbn [c3 WS.socket WS.openPromise
      WS.sockets WS.promises]. by rewrite Hurl, Hlenp, Hlens. }
  cbv zeta. fold settled. rewrite H1. cbn [fst snd]. rewrite H2.
  cbn [fst snd]. rewrite H3. cbn [fst snd]. rewrite H4.
  cbn [fst snd WS.socket WS.promises].
  split; [done|]. split.
  { unfold Run.state_of. cbn [c2 WS.sockets]. by rewrite Hw2. }
  split; [done|]. split.
  { unfold WS.connect, WS.isOpen. cbn [c2 WS.socket WS.openPromise WS.sockets].
    by rewrite Hw2. }
  split; [done|]. split; [done|]. split; [done|]. split.
  - rewrite <- Hlenp. by apply list_lookup_middle.
  - rewrite lookup_app_l by lia. done.
Qed.

Lemma failed_attempt_then_retry_witness :
  let c1 := fst (fst (WS.connect throwing_config WS.init)) in
  let c2 := fst (WS.handle throwing_config c1 (WS.Error_ 0 (Thrown 1))) in
  Run.state_of c2 0 = Some WS.CLOSED /\
  WS.promises c2 !! 0%nat = Some WS.Pending.
Proof.
  pose proof (failed_attempt_then_retry throwing_config WS.init (Thrown 1)
                eq_refl eq_refl) as H.
  exact (conj (proj1 (proj2 H)) (proj1 (proj2 (proj2 H)))).
Defined.

(** ** The application *)

(** X15: after [handleMessage] has handled a sequence of messages, the
    final transcripts are those held before followed by the texts of the
    final transcript messages in arrival order, the partial transcript is
    what the last transcript message set (empty if it was final,
    unchanged if there was none), error messages change nothing, and the
    text area shows the non-empty ones of these, one per line. *)
Theorem transcript_accumulates
  (t : App.Transcript) (msgs : list App.ServerMessage) :
  let t' := foldl App.handleMessage t msgs in
  App.finals t' = App.finals t ++ omap final_text msgs /\
  App.partial t' = default (App.partial t) (last (omap partial_text msgs)) /\
  App.transcript_text t' =
    App.join [10%N]
      (List.filter App.truthy
         (App.finals t ++ omap final_text msgs
          ++ [default (App.partial t) (last (omap partial_text msgs))])).
Proof.
  cbv zeta.
  assert (H : App.finals (foldl App.handleMessage t msgs)
              = App.finals t ++ omap final_text msgs /\
              App.partial (foldl App.handleMessage t msgs)
              = default (App.partial t) (last (omap partial_text msgs))).
  { revert t. induction msgs as [|msg msgs IH]; intros t.
    - cbn. by rewrite app_nil_r.
    - cbn [foldl]. destruct (IH (App.handleMessage t msg)) as [-> ->].
      assert (Hlast : forall (x : JSON.jsstring) l d,
                default d (last (x :: l)) = default x (last l)).
      { intros x l d. rewrite last_cons. by destruct (last l). }
      destruct msg as [text [[|]|]|message]; cbn; rewrite ?Hlast;
        rewrite <- ?app_assoc; done. }
  destruct H as [Hf Hp]. split; [done|]. split; [done|].
  unfold App.transcript_text. by rewrite Hf, Hp, <- app_assoc.
Qed.

Section Glue.

Lemma forward_send_all (c : WS.Client) (payloads : list (list Z)) :
  App.forward (Some c) payloads
  = (Some (fst (send_all c (map WS.Buffer payloads))),
     snd (send_all c (map WS.Buffer payloads))).
Proof.
  revert c. induction payloads as [|p ps IH]; intros c; [done|].
  cbn [App.forward App.onChunk map send_all].
  destruct (WS.sendAudioChunk c (WS.Buffer p)) as [c1 fx1].
  rewrite IH. by destruct (send_all c1 (map WS.Buffer ps)).
Qed.

End Glue.

(** X16: when the payloads of a run of the capture callback are
    forwarded by the [onChunk] callback of the application to a client
    whose connection is open, the socket is handed exactly these
    payloads, in order; read back as 16-bit PCM and followed by the
    quantized samples still pending, they are the quantized resampled
    stream. *)
Theorem captured_audio_reaches_socket
  (cb : Audio.AudioStreamCallbacks) (st : Audio.Framer)
  (ctx : Audio.AudioContext) (blocks : list (list number * number))
  (k : nat) (c : WS.Client) :
  Audio.running st = true ->
  Audio.processor st = true ->
  Audio.audioContext st = Some ctx ->
  (TARGET_SAMPLE_RATE <=? Audio.sampleRate ctx)%float = true ->
  Forall (fun b => Z.of_nat (length (fst b)) < 2 ^ 32) blocks ->
  WS.isOpen c = true ->
  let r := Audio.run cb (Audio.mkSystem st k) (passes blocks) in
  let ws := fst (App.forward (Some c) (Audio.chunks (snd r))) in
  sent_on_socket ws = sent_on_socket (Some c) ++ Audio.chunks (snd r) /\
  exists resampled,
    Forall2
      (fun b out =>
         resampleLinear (fst b) (Audio.sampleRate ctx) TARGET_SAMPLE_RATE
         = Some out) blocks resampled /\
    decode_pcm16le (concat (Audio.chunks (snd r)))
    ++ map quantize (Audio.resampleBuffer (Audio.framer (fst r)))
    = map quantize (Audio.resampleBuffer st ++ concat resampled).
Proof.
  intros Hrun Hproc Hctx Hrate Hblocks Hopen. cbv zeta.
  destruct (run_passes_split cb st ctx blocks k Hrun Hproc Hctx Hrate Hblocks)
    as (resampled & emitted & HF & Hem & Hfx).
  cbv zeta in Hem, Hfx.
  set (r := Audio.run cb _ _) in *. split.
  - rewrite forward_send_all. cbn [fst].
    revert Hopen. unfold WS.isOpen. intros Hopen.
    destruct (WS.socket c) as [s|] eqn:Hs; [|done].
    destruct (WS.sockets c !! s) as [w|] eqn:Hw; [|done].
    destruct (WS.readyState w) eqn:Hr; try done.
    rewrite (send_all_open c s w _ Hs Hw Hr).
    unfold sent_on_socket. cbn [fst WS.socket WS.sockets]. rewrite Hs, Hw.
    rewrite list_lookup_insert_eq by (by eapply lookup_lt_Some).
    cbn. f_equal. rewrite <- list_fmap_compose. apply list_fmap_id.
  - exists resampled. split; [done|].
    rewrite Hfx, <- Hem, map_app. f_equal.
    apply decode_pcm16le_buffer. apply Forall_forall.
    intros v (x & -> & _)%list_elem_of_fmap. apply ToInt16_range.
Qed.

Lemma captured_audio_reaches_socket_witness :
  let r := Audio.run quiet_callbacks (Audio.mkSystem one_frame_buffered 0)
             (passes [([], 250%float)]) in
  let ws := fst (App.forward (Some open_client) (Audio.chunks (snd r))) in
  sent_on_socket ws
  = sent_on_socket (Some open_client) ++ Audio.chunks (snd r).
Proof.
  refine (proj1
    (captured_audio_reaches_socket quiet_callbacks one_frame_buffered
       {| Audio.sampleRate := 48000%float |} [([], 250%float)] 0
       open_client _ _ _ _ _ _)); try reflexivity.
  repeat constructor.
Defined.

(** ** The scenarios of the specification, evaluated *)

Example quantize_half : map quantize [0.5; -0.5; 2; -7]%float
  = [16383; -16384; 32767; -32768].
Proof. vm_compute. reflexivity. Qed.

Example quantize_specials :
  map quantize [nan; infinity; neg_infinity; (-0)%float] = [0; 32767; -32768; 0].
Proof. vm_compute. reflexivity. Qed.

Example payload_bytes :
  Int16Array_buffer [1; -1; -32768; 32767] = [1; 0; 255; 255; 0; 128; 255; 127].
Proof. reflexivity. Qed.

Example resample_by_three :
  resampleLinear [1; 2; 3; 4; 5; 6; 7]%float 48000%float 16000%float
  = Some [1; 4]%float.
Proof. vm_compute. reflexivity. Qed.

Example resample_block_length :
  option_map length (resampleLinear silence 48000%float 16000%float)
  = Some 1365%nat.
Proof. vm_compute. reflexivity. Qed.

Example resample_zero_rate :
  resampleLinear [1; 2; 3]%float 0%float 16000%float = None.
Proof. vm_compute. reflexivity. Qed.

Example resample_tiny_rate :
  resampleLinear [1]%float 0x1p-1000%float 16000%float = None.
Proof. vm_compute. reflexivity. Qed.

Example floor_keeps_large_integers :
  Math_floor 9223372036854775808%float = 9223372036854775808%float /\
  Math_floor (-2.5)%float = (-3)%float.
Proof. vm_compute. split; reflexivity. Qed.

Example denied_start_is_reported :
  Audio.start_resume quiet_callbacks denied Audio.init
  = (Audio.init, [Audio.CallOnError (DOMException 0)]).
Proof. reflexivity. Qed.

Example transcript_is_message :
  option_map WS.is_ServerMessage
    (JSON.parse
       (JSON.text "{'type':'transcript','text':'hello','is_final':true}"))
  = Some true.
Proof. vm_compute. reflexivity. Qed.

Example not_json_is_reported :
  WS.onmessage plain_config WS.init (WS.Text (JSON.text "not json"))
  = (WS.init, [WS.CallOnError SyntaxError]).
Proof. vm_compute. reflexivity. Qed.

Example nested_json :
  JSON.parse (JSON.text " [1, -2.5e3, [[]], {'a': null}, 'x\n'] ")
  = Some (JSON.Array
            [JSON.Number (JSON.units "1"); JSON.Number (JSON.units "-2.5e3");
             JSON.Array [JSON.Array []];
             JSON.Object [(JSON.units "a", JSON.Null)];
             JSON.Str [120%N; 10%N]]).
Proof. vm_compute. reflexivity. Qed.

Example reconnect_race_breaks_discipline :
  Run.admits plain_config WS.init (Run.mkHistory [] []) reconnect_race
  = false.
Proof. reflexivity. Qed.

Example failure_and_retry_admitted :
  Run.admits plain_config WS.init (Run.mkHistory [] []) failure_and_retry
  = true /\
  Run.live (Run.run plain_config WS.init failure_and_retry) = [1%nat].
Proof. split; reflexivity. Qed.

Example binary_frame_ignored :
  WS.onmessage plain_config WS.init (WS.Binary [1; 2]) = (WS.init, []).
Proof. reflexivity. Qed.
